(** * Verification of the fraud-ring detection engine

    Shallow embedding of [src/services/detectionEngine.ts] (class
    [DetectionEngine]) together with the records of [src/types.ts].

    Conventions of the embedding.
    - A JavaScript [Map] or [Set] iterates in insertion order and the
      detectors depend on that order, so both are association lists /
      duplicate-free lists kept in insertion order.
    - A time value ([Date.prototype.getTime]) is either [NaN] or an integer
      number of milliseconds; it is a [JsNum].  All integers that occur are
      far below 2^53, so arithmetic on them is exact.
    - Amounts, the smurfing risk and the scaling of a risk to a score are
      modelled by exact rationals ([Q]); binary64 rounding is not modelled
      there.  The shell risk, which the source computes from literals
      alone, is computed with binary64 rounding ([b64]) and has the value
      that the source returns.
    - A statement of the source that can raise ([undefined] dereferenced)
      returns [Thrown]; recursion and the [while] loop run on fuel and
      return [Diverged] when it is exhausted.  The theorems show that
      neither happens. *)

From Stdlib Require Import String Ascii Bool Arith ZArith QArith Qround Lia Lqa.
From Stdlib Require Import DecimalString List Permutation Sorted.
From Stdlib Require DecimalNat DecimalFacts.
Import ListNotations.

Close Scope Q_scope.
Close Scope Z_scope.
Open Scope nat_scope.
Open Scope string_scope.
Open Scope list_scope.

(** ** JavaScript values *)

(** The result of [getTime()]: [NaN] for an invalid date. *)
Inductive JsNum : Type :=
| NaN
| Num (z : Z).

Definition num_lt (x y : JsNum) : bool :=
  match x, y with
  | Num a, Num b => (a <? b)%Z
  | _, _ => false
  end.

Definition num_le (x y : JsNum) : bool :=
  match x, y with
  | Num a, Num b => (a <=? b)%Z
  | _, _ => false
  end.

Definition num_sub (x y : JsNum) : JsNum :=
  match x, y with
  | Num a, Num b => Num (a - b)
  | _, _ => NaN
  end.

Definition num_add (x y : JsNum) : JsNum :=
  match x, y with
  | Num a, Num b => Num (a + b)
  | _, _ => NaN
  end.

(** [x > 0] on a comparator result; a [NaN] result counts as [0]. *)
Definition num_pos (x : JsNum) : bool := num_lt (Num 0) x.

(** A value of type [number | null]: [None] is [null]. *)
Definition toNumber (o : option JsNum) : JsNum :=
  match o with
  | None => Num 0
  | Some x => x
  end.

(** [!v] for [v : number | null]: [null], [NaN] and [0] are falsy. *)
Definition falsy (o : option JsNum) : bool :=
  match o with
  | None => true
  | Some NaN => true
  | Some (Num z) => (z =? 0)%Z
  end.

Definition Qltb (x y : Q) : bool := negb (Qle_bool y x).

Definition Qmin (x y : Q) : Q := if Qltb y x then y else x.
Definition Qmax (x y : Q) : Q := if Qltb x y then y else x.

(** *** Binary64

    The value of a binary64 number is a rational.  [b64 x] is [x] rounded
    to the nearest number with a significand of 53 bits, ties to the even
    significand: the number a literal denotes and the result an IEEE 754
    operation returns for the exact result [x].  The exponent range is not
    modelled; the numbers rounded in this file lie between 1/16 and 1. *)

Definition roundHalfEven (x : Q) : Z :=
  let f := Qfloor x in
  match Qcompare (x - inject_Z f) (1 # 2) with
  | Lt => f
  | Gt => (f + 1)%Z
  | Eq => if Z.even f then f else (f + 1)%Z
  end.

(** The exponent [e] with [2^52 <= x / 2^e < 2^53], for a positive [x]. *)
Definition exponentOf (x : Q) : Z :=
  let k := (Z.log2 (Qnum x) - Z.log2 (Zpos (Qden x)))%Z in
  ((if Qltb x (2 ^ k)%Q then k - 1 else k) - 52)%Z.

Definition roundPos (x : Q) : Q :=
  let e := exponentOf x in
  Qred (inject_Z (roundHalfEven (x / 2 ^ e)%Q) * 2 ^ e)%Q.

Definition b64 (x : Q) : Q :=
  if Qeq_bool x 0 then 0%Q
  else if Qltb x 0 then (- roundPos (- x))%Q
  else roundPos x.

(** [x * y] and [x + y] on binary64 numbers. *)
Definition fmul (x y : Q) : Q := b64 (x * y)%Q.
Definition fadd (x y : Q) : Q := b64 (x + y)%Q.

(** Outcome of a computation that may raise or run out of fuel. *)
Inductive result (A : Type) : Type :=
| Returned (a : A)
| Thrown
| Diverged.
Arguments Returned {A} a.
Arguments Thrown {A}.
Arguments Diverged {A}.

Definition bind {A B} (r : result A) (k : A -> result B) : result B :=
  match r with
  | Returned a => k a
  | Thrown => Thrown
  | Diverged => Diverged
  end.

Notation "x <- c ;; k" := (bind c (fun x => k))
  (at level 61, c at next level, right associativity).
Notation "' p <- c ;; k" := (bind c (fun p => k))
  (at level 61, p pattern, c at next level, right associativity).

(** Monadic left fold: a [for ... of] loop whose body may raise. *)
Fixpoint foldM {A S} (f : S -> A -> result S) (l : list A) (s : S) : result S :=
  match l with
  | [] => Returned s
  | x :: l' => s' <- f s x ;; foldM f l' s'
  end.

(** ** Containers in insertion order *)

Definition JsMap (V : Type) := list (string * V).
Definition JsSet := list string.

Fixpoint map_get {V} (m : JsMap V) (k : string) : option V :=
  match m with
  | [] => None
  | (k', v) :: m' => if k' =? k then Some v else map_get m' k
  end.

Definition map_has {V} (m : JsMap V) (k : string) : bool :=
  match map_get m k with
  | Some _ => true
  | None => false
  end.

(** [m.set(k, v)]: an existing key keeps its position. *)
Fixpoint map_set {V} (m : JsMap V) (k : string) (v : V) : JsMap V :=
  match m with
  | [] => [(k, v)]
  | (k', v') :: m' =>
      if k' =? k then (k', v) :: m' else (k', v') :: map_set m' k v
  end.

(** In-place mutation of the value stored under [k] ([m.get(k)!.push(..)]). *)
Fixpoint map_update {V} (m : JsMap V) (k : string) (f : V -> V) : JsMap V :=
  match m with
  | [] => []
  | (k', v') :: m' =>
      if k' =? k then (k', f v') :: m' else (k', v') :: map_update m' k f
  end.

Definition map_keys {V} (m : JsMap V) : list string := map fst m.
Definition map_values {V} (m : JsMap V) : list V := map snd m.

Definition set_has (s : JsSet) (x : string) : bool := existsb (String.eqb x) s.
Definition set_add (s : JsSet) (x : string) : JsSet :=
  if set_has s x then s else s ++ [x].
Definition set_delete (s : JsSet) (x : string) : JsSet :=
  filter (fun y => negb (y =? x)) s.
(** [new Set(iterable)] *)
Definition set_of_list (l : list string) : JsSet := fold_left set_add l [].

(** [arr.join(sep)] *)
Fixpoint join (sep : string) (l : list string) : string :=
  match l with
  | [] => EmptyString
  | [x] => x
  | x :: l' => String.append x (String.append sep (join sep l'))
  end.

(** [Array.prototype.sort(cmp)]: a stable sort; [gt a b] says that the
    comparator is positive on [(a, b)].  For a consistent comparator the
    result is the only stable sorted arrangement; for an inconsistent one
    ECMAScript leaves the order to the implementation, and the embedding
    fixes stable insertion. *)
Fixpoint insert_sorted {A} (gt : A -> A -> bool) (x : A) (l : list A) : list A :=
  match l with
  | [] => [x]
  | y :: l' => if gt y x then x :: l else y :: insert_sorted gt x l'
  end.

Definition jsSort {A} (gt : A -> A -> bool) (l : list A) : list A :=
  fold_left (fun acc x => insert_sorted gt x acc) l [].

(** [arr.slice(i, j)] *)
Definition slice {A} (l : list A) (i j : nat) : list A := firstn (j - i) (skipn i l).

(** ** Records of [types.ts] *)

Record Transaction : Type := mkTransaction {
  transaction_id : string;
  sender_id : string;
  receiver_id : string;
  amount : Q;
  timestamp : string
}.

(** A transaction object after [buildGraph] cached [_time] on it. *)
Record Tx : Type := mkTx {
  tx_data :> Transaction;
  _time : JsNum
}.

Inductive Pattern : Type := cycle | smurfing | shell.

Definition Pattern_eqb (p q : Pattern) : bool :=
  match p, q with
  | cycle, cycle | smurfing, smurfing | shell, shell => true
  | _, _ => false
  end.

Record FraudRing : Type := mkFraudRing {
  ring_id : string;
  member_accounts : list string;
  pattern_type : Pattern;
  risk_score : Q
}.

Record SuspiciousAccount : Type := mkSuspiciousAccount {
  account_id : string;
  suspicion_score : Q;
  detected_patterns : list Pattern;
  sa_ring_id : string   (* field [ring_id] of SuspiciousAccount *)
}.

(** [processing_time_seconds] is wall-clock time and is left out. *)
Record DetectionSummary : Type := mkDetectionSummary {
  total_accounts_analyzed : nat;
  suspicious_accounts_flagged : nat;
  fraud_rings_detected : nat
}.

Record DetectionResult : Type := mkDetectionResult {
  suspicious_accounts : list SuspiciousAccount;
  fraud_rings : list FraudRing;
  summary : DetectionSummary
}.

(** ** Tunable thresholds *)

Definition WINDOW_MS : Z := 72 * 60 * 60 * 1000.
Definition MIN_UNIQUE : nat := 10.
Definition MERCHANT_IN_THRESHOLD : nat := 100.
Definition MERCHANT_AVG_AMOUNT : Q := 2000.
Definition SHELL_MAX_TX : nat := 3.
Definition SHELL_MIN_TX : nat := 2.
Definition PASSTHROUGH_RATIO_MIN : Q := 6 # 10.
Definition SMURFING_RISK_THRESHOLD : Q := 65 # 100.

(** ** The engine *)

Record Engine : Type := mkEngine {
  transactions : list Tx;
  adjacency : JsMap JsSet;
  accountTx : JsMap (list Tx)
}.

Definition txsOf (e : Engine) (account : string) : list Tx :=
  match map_get (accountTx e) account with
  | Some l => l
  | None => []
  end.

Definition neighborsOf (e : Engine) (account : string) : list string :=
  match map_get (adjacency e) account with
  | Some l => l
  | None => []
  end.

Definition sumAmounts (l : list Tx) : Q :=
  fold_left (fun s (t : Tx) => (s + amount t)%Q) l 0%Q.

Definition nat_to_Q (n : nat) : Q := inject_Z (Z.of_nat n).

Definition incomingOf (e : Engine) (account : string) : list Tx :=
  filter (fun t : Tx => receiver_id t =? account) (txsOf e account).

Definition outgoingOf (e : Engine) (account : string) : list Tx :=
  filter (fun t : Tx => sender_id t =? account) (txsOf e account).

Definition isMerchant (e : Engine) (account : string)
    (fanIn : option nat) (avgAmount : option Q) : bool :=
  let incoming := incomingOf e account in
  let outgoing := outgoingOf e account in
  let effectiveFanIn :=
    match fanIn with
    | Some n => n
    | None => length incoming
    end in
  let effectiveAvg :=
    match avgAmount with
    | Some a => a
    | None =>
        if (0 <? length incoming)%nat
        then (sumAmounts incoming / nat_to_Q (length incoming))%Q
        else 0%Q
    end in
  if (MERCHANT_IN_THRESHOLD <? effectiveFanIn)%nat
     && (length outgoing =? 0)%nat
     && Qltb MERCHANT_AVG_AMOUNT effectiveAvg
  then true
  else
    let uniqueReceivers := length (set_of_list (map (fun t : Tx => receiver_id t) outgoing)) in
    if (MERCHANT_IN_THRESHOLD <? uniqueReceivers)%nat && (length incoming <=? 5)%nat
    then true
    else false.

(** *** RingRegistry: [addRing] inside [analyze] *)

Definition string_of_nat (n : nat) : string :=
  NilZero.string_of_uint (Nat.to_uint n).

Fixpoint repeat_string (n : nat) (s : string) : string :=
  match n with
  | 0 => EmptyString
  | S n' => String.append s (repeat_string n' s)
  end.

(** [s.padStart(n, "0")] for a one-character filler *)
Definition padStart (n : nat) (fill : string) (s : string) : string :=
  String.append (repeat_string (n - String.length s) fill) s.

(** [Number(x.toFixed(1))]: the closest number with one decimal, ties
    away from zero. *)
Definition toFixed1 (x : Q) : Q :=
  if Qltb x 0
  then (- (Qfloor ((- x) * 10 + (1 # 2)) # 10))%Q
  else (Qfloor (x * 10 + (1 # 2)) # 10)%Q.

Record Registry : Type := mkRegistry {
  suspiciousMap : JsMap SuspiciousAccount;
  fraudRings : list FraudRing;
  ringCounter : nat
}.

Definition emptyRegistry : Registry :=
  {| suspiciousMap := []; fraudRings := []; ringCounter := 1 |}.

Definition ringIdOf (counter : nat) : string :=
  String.append "RING_" (padStart 3 "0" (string_of_nat counter)).

Definition riskScoreOf (risk : Q) : Q :=
  let clampedRisk := Qmin (Qmax risk 0) 1 in
  toFixed1 (clampedRisk * 100)%Q.

(** Body of the loop [for (const acc of accounts)] of [addRing]. *)
Definition addMember (e : Engine) (pattern : Pattern) (riskScore : Q)
    (ringId : string) (sm : JsMap SuspiciousAccount) (acc : string)
    : JsMap SuspiciousAccount :=
  if isMerchant e acc None None then sm
  else
    match map_get sm acc with
    | None =>
        map_set sm acc
          {| account_id := acc;
             suspicion_score := riskScore;
             detected_patterns := [pattern];
             sa_ring_id := ringId |}
    | Some existing =>
        let existing1 :=
          if Qltb (suspicion_score existing) riskScore
          then {| account_id := account_id existing;
                  suspicion_score := riskScore;
                  detected_patterns := detected_patterns existing;
                  sa_ring_id := ringId |}
          else existing in
        let existing2 :=
          if existsb (Pattern_eqb pattern) (detected_patterns existing1)
          then existing1
          else {| account_id := account_id existing1;
                  suspicion_score := suspicion_score existing1;
                  detected_patterns := detected_patterns existing1 ++ [pattern];
                  sa_ring_id := sa_ring_id existing1 |} in
        map_set sm acc existing2
    end.

Definition addRing (e : Engine) (reg : Registry) (accounts : list string)
    (pattern : Pattern) (risk : Q) : Registry :=
  let ringId := ringIdOf (ringCounter reg) in
  let riskScore := riskScoreOf risk in
  {| suspiciousMap :=
       fold_left (addMember e pattern riskScore ringId) accounts (suspiciousMap reg);
     fraudRings :=
       fraudRings reg ++
       [ {| ring_id := ringId;
            member_accounts := accounts;
            pattern_type := pattern;
            risk_score := riskScore |} ];
     ringCounter := S (ringCounter reg) |}.

(** A ring candidate [{ accounts, risk }] returned by a detector. *)
Record Candidate : Type := mkCandidate {
  accounts : list string;
  risk : Q
}.

(** *** Shell detector helpers *)

Definition getTxTime (e : Engine) (from to : string) : option JsNum :=
  match find (fun t : Tx => (sender_id t =? from) && (receiver_id t =? to))
             (txsOf e from) with
  | Some t => Some (_time t)
  | None => None
  end.

Definition isTemporalChain (e : Engine) (a b c d : string) : bool :=
  let ab := getTxTime e a b in
  let bc := getTxTime e b c in
  let cd := getTxTime e c d in
  if falsy ab || falsy bc || falsy cd then false
  else num_lt (toNumber ab) (toNumber bc) && num_lt (toNumber bc) (toNumber cd).

Definition DAY_MS : Z := 24 * 60 * 60 * 1000.

Definition shellSpread (e : Engine) (a b c d : string) : JsNum :=
  let ab := toNumber (getTxTime e a b) in
  let cd := toNumber (getTxTime e c d) in
  num_sub cd ab.

(** [0.7 * speedScore + 0.1] in binary64: the literals are the nearest
    binary64 numbers and both operations round. *)
Definition shellRisk (e : Engine) (a b c d : string) : Q :=
  let totalSpread := shellSpread e a b c d in
  let speedScore := if num_lt totalSpread (Num DAY_MS) then 1%Q else b64 (75 # 100) in
  fadd (fmul (b64 (7 # 10)) speedScore) (b64 (1 # 10)).

Definition isShellIntermediate (e : Engine) (account : string) : bool :=
  let txs := txsOf e account in
  if (length txs <? SHELL_MIN_TX)%nat || (SHELL_MAX_TX <? length txs)%nat then false
  else
    let totalIn := sumAmounts (incomingOf e account) in
    let totalOut := sumAmounts (outgoingOf e account) in
    if Qeq_bool totalIn 0 then false
    else if Qeq_bool totalOut 0
    then false  (* totalIn / 0 is an infinity: the minimum is 0 or -Infinity *)
    else
      let ratio := Qmin (totalOut / totalIn)%Q (totalIn / totalOut)%Q in
      Qle_bool PASSTHROUGH_RATIO_MIN ratio.

Definition ShellState : Type := (list Candidate * JsSet)%type.

Definition shellStepD (e : Engine) (a b c : string) (st : ShellState) (d : string)
    : ShellState :=
  if (d =? a) || (d =? b) || (d =? c) then st
  else
    let nodes := [a; b; c; d] in
    if match map_get (adjacency e) d with
       | Some s => set_has s a
       | None => false
       end then st
    else if negb (isTemporalChain e a b c d) then st
    else
      let risk := shellRisk e a b c d in
      if Qltb risk (b64 (6 # 10)) then st
      else
        let key := join "|" nodes in
        if negb (set_has (snd st) key)
        then (fst st ++ [ {| accounts := nodes; risk := risk |} ], set_add (snd st) key)
        else st.

Definition shellStepC (e : Engine) (cycleAccounts : JsSet) (a b : string)
    (st : ShellState) (c : string) : ShellState :=
  if set_has cycleAccounts c then st
  else if negb (isShellIntermediate e c) then st
  else if c =? a then st
  else fold_left (shellStepD e a b c) (neighborsOf e c) st.

Definition shellStepB (e : Engine) (cycleAccounts : JsSet) (a : string)
    (st : ShellState) (b : string) : ShellState :=
  if set_has cycleAccounts b then st
  else if negb (isShellIntermediate e b) then st
  else fold_left (shellStepC e cycleAccounts a b) (neighborsOf e b) st.

Definition shellStepA (e : Engine) (cycleAccounts : JsSet)
    (st : ShellState) (entry : string * JsSet) : ShellState :=
  let '(a, neighborsA) := entry in
  if isMerchant e a None None then st
  else if set_has cycleAccounts a then st
  else fold_left (shellStepB e cycleAccounts a) neighborsA st.

Definition detectShell (e : Engine) (cycleAccounts : JsSet) : list Candidate :=
  fst (fold_left (shellStepA e cycleAccounts) (adjacency e) ([], [])).

(** *** Smurfing detector helpers *)

(** The inner [while] loop of the window scan. *)
Fixpoint advanceLeft (fuel : nat) (incoming : list Tx) (windowEnd : JsNum)
    (left : nat) : result nat :=
  match fuel with
  | 0 => Diverged
  | S fuel' =>
      match nth_error incoming left with
      | None => Thrown
      | Some t =>
          if num_lt (_time t) (num_sub windowEnd (Num WINDOW_MS))
          then advanceLeft fuel' incoming windowEnd (S left)
          else Returned left
      end
  end.

Definition windowStep (incoming : list Tx) (st : nat * list Tx) (right : nat)
    : result (nat * list Tx) :=
  let left := fst st in
  let bestWindow := snd st in
  match nth_error incoming right with
  | None => Thrown
  | Some tr =>
      let windowEnd := _time tr in
      left' <- advanceLeft (S (length incoming)) incoming windowEnd left ;;
      let window := slice incoming left' (right + 1) in
      Returned (left',
                if (length bestWindow <? length window)%nat then window else bestWindow)
  end.

(** The densest 72-hour window of a time-sorted list. *)
Definition densestWindow (incoming : list Tx) : result (list Tx) :=
  st <- foldM (windowStep incoming) (seq 0 (length incoming)) (0, []) ;;
  Returned (snd st).

(** [txs.filter(..).sort((a, b) => a._time - b._time)].  The comparator is
    consistent when the times are all numbers (the result is then the
    stable arrangement in time order) and when they are all [NaN] (every
    comparison is a tie and the list stays as it is); for a list that is
    already in an order in which no element is above a later one the
    insertion moves nothing.  With [NaN] mixed among numbers in another
    order the arrangement is the implementation's. *)
Definition sortedIncoming (account : string) (txs : list Tx) : list Tx :=
  jsSort (fun a b : Tx => num_pos (num_sub (_time a) (_time b)))
         (filter (fun t : Tx => receiver_id t =? account) txs).

Definition uniqueSendersOf (bestWindow : list Tx) : JsSet :=
  set_of_list (map (fun t : Tx => sender_id t) bestWindow).

Definition uniqueReceiversOf (account : string) (txs : list Tx) (windowStart : JsNum)
    : JsSet :=
  let windowEnd := num_add windowStart (Num WINDOW_MS) in
  let outgoing :=
    filter (fun t : Tx =>
              (sender_id t =? account)
              && num_le windowStart (_time t)
              && num_le (_time t) windowEnd) txs in
  set_of_list (map (fun t : Tx => receiver_id t) outgoing).

Definition smurfRisk (nSenders nReceivers : nat) : Q :=
  let hasFanOut := (MIN_UNIQUE <=? nReceivers)%nat in
  let senderScore := Qmin (nat_to_Q nSenders / 30)%Q 1%Q in
  let hubFactor := Qmin (nat_to_Q (nSenders + nReceivers) / 40)%Q 1%Q in
  if hasFanOut
  then ((5 # 10) * senderScore + (3 # 10) * hubFactor + (2 # 10))%Q
  else ((5 # 10) * senderScore + (15 # 100))%Q.

(** One iteration of the loop over [accountTx.entries()]: [None] is a
    [continue]. *)
Definition smurfCandidate (e : Engine) (account : string) (txs : list Tx)
    : result (option Candidate) :=
  if isMerchant e account None None then Returned None
  else
    let incoming := sortedIncoming account txs in
    if (length incoming <? MIN_UNIQUE)%nat then Returned None
    else
      bestWindow <- densestWindow incoming ;;
      if (length bestWindow <? MIN_UNIQUE)%nat then Returned None
      else
        let uniqueSenders := uniqueSendersOf bestWindow in
        if (length uniqueSenders <? MIN_UNIQUE)%nat then Returned None
        else
          match nth_error bestWindow 0 with
          | None => Thrown
          | Some first =>
              let windowStart := _time first in
              let avgAmount :=
                (sumAmounts bestWindow / nat_to_Q (length bestWindow))%Q in
              if isMerchant e account (Some (length uniqueSenders)) (Some avgAmount)
              then Returned None
              else
                let uniqueReceivers := uniqueReceiversOf account txs windowStart in
                let hasFanOut := (MIN_UNIQUE <=? length uniqueReceivers)%nat in
                let risk := smurfRisk (length uniqueSenders) (length uniqueReceivers) in
                if Qltb risk SMURFING_RISK_THRESHOLD then Returned None
                else
                  let accounts :=
                    if hasFanOut
                    then account :: uniqueSenders ++ uniqueReceivers
                    else account :: uniqueSenders in
                  Returned (Some {| accounts := set_of_list accounts; risk := risk |})
          end.

Definition smurfStep (e : Engine) (rings : list Candidate) (entry : string * list Tx)
    : result (list Candidate) :=
  r <- smurfCandidate e (fst entry) (snd entry) ;;
  match r with
  | None => Returned rings
  | Some ring => Returned (rings ++ [ring])
  end.

Definition detectSmurfing (e : Engine) : result (list Candidate) :=
  foldM (smurfStep e) (accountTx e) [].

(** ** Functions that use the JavaScript runtime

    [new Date(s).getTime()] and [String.prototype.localeCompare] belong to
    the runtime (the second one depends on the locale); the engine is
    parametric in both. *)

Section Runtime.

Variable Date_getTime : string -> JsNum.
Variable localeCompare : string -> string -> comparison.

(** *** GraphIndex *)

Definition buildGraph_step (g : JsMap JsSet * JsMap (list Tx)) (t : Tx)
    : JsMap JsSet * JsMap (list Tx) :=
  let adj := fst g in
  let acc := snd g in
  let adj := if negb (map_has adj (sender_id t)) then map_set adj (sender_id t) [] else adj in
  let adj := map_update adj (sender_id t) (fun s => set_add s (receiver_id t)) in
  let acc := if negb (map_has acc (sender_id t)) then map_set acc (sender_id t) [] else acc in
  let acc := if negb (map_has acc (receiver_id t)) then map_set acc (receiver_id t) [] else acc in
  let acc := map_update acc (sender_id t) (fun l => l ++ [t]) in
  let acc := map_update acc (receiver_id t) (fun l => l ++ [t]) in
  (adj, acc).

(** The assignment [(tx as any)._time = new Date(tx.timestamp).getTime()]. *)
Definition cacheTime (t : Transaction) : Tx :=
  {| tx_data := t; _time := Date_getTime (timestamp t) |}.

(** [new DetectionEngine(transactions)]: the constructor runs [buildGraph]. *)
Definition DetectionEngine (txs : list Transaction) : Engine :=
  let cached := map cacheTime txs in
  let g := fold_left buildGraph_step cached ([], []) in
  {| transactions := cached; adjacency := fst g; accountTx := snd g |}.

(** *** CycleDetector *)

Definition rotationsOf (arr : list string) : list (list string) :=
  map (fun i => skipn i arr ++ firstn i arr) (seq 0 (length arr)).

Definition rotationGt (a b : list string) : bool :=
  match localeCompare (join "," a) (join "," b) with
  | Gt => true
  | _ => false
  end.

(** [rotations.sort(..)[0].join("|")]; for an empty [arr] the element
    [[0]] is [undefined] and [.join] raises. *)
Definition canonicalize (arr : list string) : result string :=
  let rotations := rotationsOf arr ++ rotationsOf (rev arr) in
  match jsSort rotationGt rotations with
  | [] => Thrown
  | r :: _ => Returned (join "|" r)
  end.

(** The two closure variables of [detectCycles] and the [visited] set
    shared by the recursive calls of one search. *)
Record DfsState : Type := mkDfsState {
  emitted : JsSet;
  results : list (list string);
  visited : JsSet
}.

Definition withVisited (st : DfsState) (v : JsSet) : DfsState :=
  {| emitted := emitted st; results := results st; visited := v |}.

Definition emitCycle (path : list string) (st : DfsState) : result DfsState :=
  key <- canonicalize path ;;
  if negb (set_has (emitted st) key)
  then Returned {| emitted := set_add (emitted st) key;
                   results := results st ++ [path];
                   visited := visited st |}
  else Returned st.

Fixpoint dfs (fuel : nat) (e : Engine) (min max : nat) (start current : string)
    (path : list string) (st : DfsState) : result DfsState :=
  match fuel with
  | 0 => Diverged
  | S fuel' =>
      if (max <? length path)%nat then Returned st
      else
        match map_get (adjacency e) current with
        | None => Returned st
        | Some neighbors =>
            foldM
              (fun st next =>
                 st1 <- (if (next =? start) && (min <=? length path)%nat
                         then emitCycle path st
                         else Returned st) ;;
                 if negb (set_has (visited st1) next)
                 then
                   st2 <- dfs fuel' e min max start next (path ++ [next])
                              (withVisited st1 (set_add (visited st1) next)) ;;
                   Returned (withVisited st2 (set_delete (visited st2) next))
                 else Returned st1)
              neighbors st
        end
  end.

Definition detectCycles (e : Engine) (min max : nat) : result (list (list string)) :=
  st <- foldM
          (fun st node =>
             dfs (S max) e min max node node [node] (withVisited st [node]))
          (map_keys (adjacency e))
          {| emitted := []; results := []; visited := [] |} ;;
  Returned (results st).

(** *** Entry point *)

Definition registerCycle (e : Engine) (st : Registry * JsSet) (cyc : list string)
    : Registry * JsSet :=
  (addRing e (fst st) cyc cycle (85 # 100), fold_left set_add cyc (snd st)).

Definition registerCandidate (e : Engine) (pattern : Pattern) (reg : Registry)
    (c : Candidate) : Registry :=
  addRing e reg (accounts c) pattern (risk c).

Definition scoreGt (a b : SuspiciousAccount) : bool :=
  Qltb 0 (suspicion_score b - suspicion_score a)%Q.

Definition allAccountsOf (txs : list Tx) : JsSet :=
  fold_left (fun s (t : Tx) => set_add (set_add s (sender_id t)) (receiver_id t)) txs [].

Definition analyze (e : Engine) : result DetectionResult :=
  cycles <- detectCycles e 3 5 ;;
  let st1 := fold_left (registerCycle e) cycles (emptyRegistry, []) in
  let cycleAccounts := snd st1 in
  smurfs <- detectSmurfing e ;;
  let reg2 := fold_left (registerCandidate e smurfing) smurfs (fst st1) in
  let reg3 := fold_left (registerCandidate e shell) (detectShell e cycleAccounts) reg2 in
  let suspicious := jsSort scoreGt (map_values (suspiciousMap reg3)) in
  Returned
    {| suspicious_accounts := suspicious;
       fraud_rings := fraudRings reg3;
       summary :=
         {| total_accounts_analyzed := length (allAccountsOf (transactions e));
            suspicious_accounts_flagged := length suspicious;
            fraud_rings_detected := length (fraudRings reg3) |} |}.

(** [new DetectionEngine(transactions).analyze()], as the server calls it. *)
Definition runAnalysis (txs : list Transaction) : result DetectionResult :=
  analyze (DetectionEngine txs).

End Runtime.

(** ** A runtime for the examples

    [isoTime] reads the UTC form [YYYY-MM-DDTHH:mm:ssZ] of the ECMAScript
    date-time string format, on which every implementation of [Date]
    agrees, and answers [NaN] for every other string; the examples use no
    other form.  [String.compare] orders strings by code unit and agrees
    with [localeCompare] on equal strings. *)

Definition digitOf (c : ascii) : option Z :=
  let n := nat_of_ascii c in
  if (48 <=? n)%nat && (n <=? 57)%nat then Some (Z.of_nat (n - 48)) else None.

Fixpoint digitsOf (l : list ascii) (acc : Z) : option Z :=
  match l with
  | [] => Some acc
  | c :: l' =>
      match digitOf c with
      | Some d => digitsOf l' (acc * 10 + d)%Z
      | None => None
      end
  end.

Definition isLeapYear (y : Z) : bool :=
  ((y mod 4 =? 0) && negb (y mod 100 =? 0) || (y mod 400 =? 0))%Z.

Definition daysInMonth (y m : Z) : Z :=
  (if m =? 2 then (if isLeapYear y then 29 else 28)
   else if (m =? 4) || (m =? 6) || (m =? 9) || (m =? 11) then 30
   else 31)%Z.

(** Days between 1970-01-01 and the given civil date. *)
Definition daysFromCivil (y m d : Z) : Z :=
  (let y' := if m <=? 2 then y - 1 else y in
   let era := y' / 400 in
   let yoe := y' - era * 400 in
   let mp := if 2 <? m then m - 3 else m + 9 in
   let doy := (153 * mp + 2) / 5 + d - 1 in
   let doe := yoe * 365 + yoe / 4 - yoe / 100 + doy in
   era * 146097 + doe - 719468)%Z.

Definition isoTime (s : string) : JsNum :=
  match list_ascii_of_string s with
  | [y1; y2; y3; y4; p1; m1; m2; p2; d1; d2; pt; h1; h2; c1; n1; n2; c2; s1; s2; z] =>
      if (p1 =? "-")%char && (p2 =? "-")%char && (pt =? "T")%char
         && (c1 =? ":")%char && (c2 =? ":")%char && (z =? "Z")%char
      then
        match digitsOf [y1; y2; y3; y4] 0, digitsOf [m1; m2] 0, digitsOf [d1; d2] 0,
              digitsOf [h1; h2] 0, digitsOf [n1; n2] 0, digitsOf [s1; s2] 0 with
        | Some y, Some m, Some d, Some h, Some mi, Some sec =>
            if ((1 <=? m) && (m <=? 12) && (1 <=? d) && (d <=? daysInMonth y m)
                && (h <=? 23) && (mi <=? 59) && (sec <=? 59))%Z
            then Num ((((daysFromCivil y m d * 24 + h) * 60 + mi) * 60 + sec) * 1000)%Z
            else NaN
        | _, _, _, _, _, _ => NaN
        end
      else NaN
  | _ => NaN
  end.

Definition run (txs : list Transaction) : result DetectionResult :=
  runAnalysis isoTime String.compare txs.

Definition mkT (id s r : string) (a : Q) (ts : string) : Transaction :=
  {| transaction_id := id; sender_id := s; receiver_id := r; amount := a; timestamp := ts |}.

(** ** Example batches *)

(** A shell chain A -> B -> C -> D whose last node D also lies on the
    cycle D -> E -> F -> D. *)
Definition chainIntoCycle : list Transaction :=
  [ mkT "t1" "A" "B" 100 "2024-01-15T10:00:00Z";
    mkT "t2" "B" "C" 100 "2024-01-15T11:00:00Z";
    mkT "t3" "C" "D" 100 "2024-01-15T12:00:00Z";
    mkT "t4" "D" "E" 100 "2024-01-15T13:00:00Z";
    mkT "t5" "E" "F" 100 "2024-01-15T14:00:00Z";
    mkT "t6" "F" "D" 100 "2024-01-15T15:00:00Z" ].

(** Three hops at 00:00, 01:00 and 02:00 of 1970-01-01: the first one has
    time value 0. *)
Definition epochChain : list Transaction :=
  [ mkT "t1" "A" "B" 100 "1970-01-01T00:00:00Z";
    mkT "t2" "B" "C" 100 "1970-01-01T01:00:00Z";
    mkT "t3" "C" "D" 100 "1970-01-01T02:00:00Z" ].

(** [n] transfers of [amt] at the same instant, from S1 .. Sn to [target]. *)
Definition fanIn (n : nat) (target : string) (amt : Q) (ts : string) : list Transaction :=
  map (fun i => mkT (String.append "in" (string_of_nat i))
                    (String.append "S" (string_of_nat i)) target amt ts)
      (seq 1 n).

(** [n] transfers of [amt] at the same instant, from [source] to R1 .. Rn. *)
Definition fanOut (n : nat) (source : string) (amt : Q) (ts : string) : list Transaction :=
  map (fun i => mkT (String.append "out" (string_of_nat i))
                    source (String.append "R" (string_of_nat i)) amt ts)
      (seq 1 n).


(** 20 senders into H at 09:00 and 15 receivers out of H at 10:00. *)
Definition hubBatch : list Transaction :=
  fanIn 20 "H" 100 "2024-01-15T09:00:00Z" ++ fanOut 15 "H" 100 "2024-01-15T10:00:00Z".

(** 30 senders into X at the same instant, nothing out of X. *)
Definition fanInOnlyBatch : list Transaction :=
  fanIn 30 "X" 100 "2024-01-15T09:00:00Z".

(** The same 30 transfers with a timestamp that cannot be parsed. *)
Definition unparsableBatch : list Transaction :=
  fanIn 30 "X" 100 "not-a-date".


(** One directed cycle through three accounts whose ids contain commas. *)
Definition commaCycle : list string := ["a"; "a,a"; "a,a,a"].

Definition commaBatch : list Transaction :=
  [ mkT "t1" "a" "a,a" 100 "2024-01-15T10:00:00Z";
    mkT "t2" "a,a" "a,a,a" 100 "2024-01-15T10:05:00Z";
    mkT "t3" "a,a,a" "a" 100 "2024-01-15T10:10:00Z" ].

(** * Specifications *)

(** ** The merge policy of [addRing] *)

(** The record stored for a non-merchant member, from the record found. *)
Definition mergeRecord (pattern : Pattern) (riskScore : Q) (ringId acc : string)
    (found : option SuspiciousAccount) : SuspiciousAccount :=
  match found with
  | None =>
      {| account_id := acc; suspicion_score := riskScore;
         detected_patterns := [pattern]; sa_ring_id := ringId |}
  | Some existing =>
      let existing1 :=
        if Qltb (suspicion_score existing) riskScore
        then {| account_id := account_id existing;
                suspicion_score := riskScore;
                detected_patterns := detected_patterns existing;
                sa_ring_id := ringId |}
        else existing in
      if existsb (Pattern_eqb pattern) (detected_patterns existing1)
      then existing1
      else {| account_id := account_id existing1;
              suspicion_score := suspicion_score existing1;
              detected_patterns := detected_patterns existing1 ++ [pattern];
              sa_ring_id := sa_ring_id existing1 |}
  end.

Definition memberOf (acc : string) (r : FraudRing) : bool :=
  existsb (String.eqb acc) (member_accounts r).

(** Rings that list [acc] as a member, in discovery order. *)
Definition ringsOf (acc : string) (rings : list FraudRing) : list FraudRing :=
  filter (memberOf acc) rings.

(** What the merge policy promises about the record [sa] of an account
    whose rings are [R]: score and ring id are those of the first ring of
    maximal score, the patterns are those of [R] without repetition. *)
Definition mergedFrom (sa : SuspiciousAccount) (R : list FraudRing) : Prop :=
  (exists R1 rmax R2,
      R = R1 ++ rmax :: R2 /\
      suspicion_score sa = risk_score rmax /\
      sa_ring_id sa = ring_id rmax /\
      (forall r, In r R1 -> (risk_score r < risk_score rmax)%Q) /\
      (forall r, In r R2 -> (risk_score r <= risk_score rmax)%Q)) /\
  NoDup (detected_patterns sa) /\
  (forall p, In p (detected_patterns sa) <-> exists r, In r R /\ pattern_type r = p).

(** The entry of [acc] in the suspicious map agrees with the rings
    registered so far. *)
Definition entryOk (e : Engine) (reg : Registry) (acc : string) : Prop :=
  if isMerchant e acc None None
  then map_get (suspiciousMap reg) acc = None
  else
    match map_get (suspiciousMap reg) acc with
    | None => ringsOf acc (fraudRings reg) = []
    | Some sa => account_id sa = acc /\ mergedFrom sa (ringsOf acc (fraudRings reg))
    end.

Definition registryOk (e : Engine) (reg : Registry) : Prop :=
  NoDup (map_keys (suspiciousMap reg)) /\ forall acc, entryOk e reg acc.

(** Pattern and members of a ring, without id and score. *)
Definition ringTag (r : FraudRing) : Pattern * list string :=
  (pattern_type r, member_accounts r).

(** ** The shell detector *)

(** The checks that the code performs before it emits the chain
    [a -> b -> c -> d]. *)
Definition shellChain (e : Engine) (cycleAccounts : JsSet) (ring : Candidate) : Prop :=
  exists a b c d,
    accounts ring = [a; b; c; d] /\
    risk ring = shellRisk e a b c d /\
    set_has cycleAccounts a = false /\
    set_has cycleAccounts b = false /\
    set_has cycleAccounts c = false /\
    isMerchant e a None None = false /\
    isShellIntermediate e b = true /\
    isShellIntermediate e c = true /\
    In c (neighborsOf e b) /\
    In d (neighborsOf e c) /\
    isTemporalChain e a b c d = true.

(** Everything the shell detector has emitted so far passed its checks. *)
Definition shellInv (e : Engine) (cyc : JsSet) (st : ShellState) : Prop :=
  forall ring, In ring (fst st) -> shellChain e cyc ring.

(** ** The smurfing detector *)

(** What the code has established about [account] when it emits [ring]. *)
Definition smurfEmission (e : Engine) (account : string) (txs : list Tx)
    (ring : Candidate) : Prop :=
  exists bestWindow first,
    isMerchant e account None None = false /\
    densestWindow (sortedIncoming account txs) = Returned bestWindow /\
    nth_error bestWindow 0 = Some first /\
    MIN_UNIQUE <= length bestWindow /\
    MIN_UNIQUE <= length (uniqueSendersOf bestWindow) /\
    risk ring = smurfRisk (length (uniqueSendersOf bestWindow))
                          (length (uniqueReceiversOf account txs (_time first))) /\
    (SMURFING_RISK_THRESHOLD <= risk ring)%Q /\
    accounts ring =
      set_of_list
        (if (MIN_UNIQUE <=? length (uniqueReceiversOf account txs (_time first)))%nat
         then account :: uniqueSendersOf bestWindow
                ++ uniqueReceiversOf account txs (_time first)
         else account :: uniqueSendersOf bestWindow).

(** The window scan on parsable times. *)

Definition timeOf (t : Tx) : Z :=
  match _time t with
  | Num z => z
  | NaN => 0%Z
  end.

(** The timestamp of [t] could be parsed. *)
Definition timed (t : Tx) : Prop := _time t = Num (timeOf t).

Definition sortedByTime (l : list Tx) : Prop :=
  StronglySorted (fun a b => (timeOf a <= timeOf b)%Z) l.

(** [t] is not more than 72 hours older than [last]. *)
Definition inWindow (last t : Tx) : bool :=
  (timeOf last - WINDOW_MS <=? timeOf t)%Z.

(** The transactions up to position [right] that lie in the 72 hours
    before the one at [right]. *)
Definition windowAt (incoming : list Tx) (right : nat) : list Tx :=
  match nth_error incoming right with
  | Some last => filter (inWindow last) (firstn (S right) incoming)
  | None => []
  end.

(** State of the window scan before the iteration [right]. *)
Definition scanInv (incoming : list Tx) (right : nat) (st : nat * list Tx) : Prop :=
  fst st <= right /\
  (forall i t last,
      i < fst st -> nth_error incoming i = Some t ->
      nth_error incoming right = Some last -> inWindow last t = false) /\
  (snd st = [] \/ exists r, r < right /\ snd st = windowAt incoming r) /\
  (forall r, r < right -> length (windowAt incoming r) <= length (snd st)).

(** ** The cycle detector *)

(** [l2] is a cyclic rotation of [l1]. *)
Definition rotationOf (l1 l2 : list string) : Prop :=
  exists u v, l1 = u ++ v /\ l2 = v ++ u.

(** [l2] names the same ring as [l1]: a rotation of it or of its reversal. *)
Definition sameRing (l1 l2 : list string) : Prop :=
  rotationOf l1 l2 \/ rotationOf (rev l1) l2.

(** The character [sep] does not occur in [s]. *)
Fixpoint lacksChar (sep : ascii) (s : string) : bool :=
  match s with
  | EmptyString => true
  | String c s' => negb (c =? sep)%char && lacksChar sep s'
  end.

Definition noComma (s : string) : bool := lacksChar "," s.
Definition noBar (s : string) : bool := lacksChar "|" s.

Definition hasEdge (e : Engine) (u v : string) : Prop := In v (neighborsOf e u).

(** Consecutive nodes of [p] are joined by edges of the graph. *)
Fixpoint isPath (e : Engine) (p : list string) : Prop :=
  match p with
  | [] => True
  | u :: rest =>
      match rest with
      | [] => True
      | v :: _ => hasEdge e u v /\ isPath e rest
      end
  end.

(** [c] lists the nodes of a simple directed cycle: distinct nodes, an
    edge between neighbours in the list and from the last one back to the
    first. *)
Definition simpleCycle (e : Engine) (c : list string) : Prop :=
  c <> [] /\ NoDup c /\ isPath e c /\ hasEdge e (last c "") (hd "" c).

(** Everything the cycle detector has recorded so far is a simple cycle
    of the requested size. *)
Definition resultsOk (e : Engine) (min max : nat) (st : DfsState) : Prop :=
  forall c, In c (results st) -> simpleCycle e c /\ min <= length c <= max.

(** The set of emitted keys lists the keys of the recorded cycles, in the
    same order and without repetition. *)
Definition keysOk (cmp : string -> string -> comparison) (st : DfsState) : Prop :=
  Forall2 (fun k p => canonicalize cmp p = Returned k) (emitted st) (results st) /\
  NoDup (emitted st).

(** From [st] to [s] the emitted keys only grow and stay in step with the
    recorded cycles. *)
Definition frame (cmp : string -> string -> comparison) (st s : DfsState) : Prop :=
  (forall k, In k (emitted st) -> In k (emitted s)) /\
  (keysOk cmp st -> keysOk cmp s).

(** The first element of [l] is not above any later element. *)
Definition headMin {A} (gt : A -> A -> bool) (l : list A) : Prop :=
  match l with
  | [] => True
  | h :: t => forall y, In y t -> gt h y = false
  end.


(** ** The graph index *)

(** What [buildGraph] appends to the list of [acc] for the transaction [t]:
    the transaction once as its sender and once as its receiver. *)
Definition pushesOf (acc : string) (t : Tx) : list Tx :=
  (if sender_id t =? acc then [t] else []) ++
  (if receiver_id t =? acc then [t] else []).

(** The distinct receivers of the transfers sent by [a], in the order of
    their first occurrence in [l]. *)
Definition receiversOf (a : string) (l : list Tx) : JsSet :=
  set_of_list (map (fun t : Tx => receiver_id t)
                   (filter (fun t : Tx => sender_id t =? a) l)).

(** The distinct senders of [l], in the order of their first occurrence. *)
Definition sendersOf (l : list Tx) : JsSet :=
  set_of_list (map (fun t : Tx => sender_id t) l).

(** ** The result of one analysis *)

(** Pattern, members and score of a ring, without its id. *)
Definition ringBody (r : FraudRing) : Pattern * list string * Q :=
  (pattern_type r, member_accounts r, risk_score r).

(** The rings are numbered from 1 in the order of their registration and
    the counter is one ahead of the last number used. *)
Definition ringsNumbered (reg : Registry) : Prop :=
  map ring_id (fraudRings reg) = map ringIdOf (seq 1 (length (fraudRings reg))) /\
  ringCounter reg = S (length (fraudRings reg)).

(** [a] is not placed after [b] in the list of suspicious accounts. *)
Definition scoreGe (a b : SuspiciousAccount) : Prop :=
  (suspicion_score b <= suspicion_score a)%Q.

(** [acc] is the sender or the receiver of some transaction of the batch. *)
Definition inBatch (txs : list Transaction) (acc : string) : Prop :=
  exists t, In t txs /\ (sender_id t = acc \/ receiver_id t = acc).

(** ** What the detectors guarantee about a ring *)

(** The structural checks behind an emitted shell chain: [a] is a key of
    the adjacency map and [b] one of its neighbours, [c] a neighbour of
    [b] other than [a], [d] a neighbour of [c] other than [a], [b] and
    [c], and [d] has no edge back to [a]. *)
Definition shellShape (e : Engine) (ring : Candidate) : Prop :=
  exists a b c d neighborsA,
    accounts ring = [a; b; c; d] /\
    In (a, neighborsA) (adjacency e) /\
    In b neighborsA /\
    In c (neighborsOf e b) /\
    In d (neighborsOf e c) /\
    c <> a /\ d <> a /\ d <> b /\ d <> c /\
    ~ In a (neighborsOf e d).

(** The key under which the shell detector remembers a chain. *)
Definition shellKey (ring : Candidate) : string := join "|" (accounts ring).

(** State of the shell detector: every chain emitted so far has the shape
    above, and [seen] holds the keys of the emitted chains, each once. *)
Definition shellSeen (e : Engine) (st : ShellState) : Prop :=
  (forall ring, In ring (fst st) -> shellShape e ring) /\
  snd st = map shellKey (fst st) /\
  NoDup (snd st).

(** The members of a smurfing ring around [account]: the account itself
    and counterparties of its transactions [txs]. *)
Definition counterparty (account : string) (txs : list Tx) (x : string) : Prop :=
  x = account \/
  exists t, In t txs /\
            ((receiver_id t = account /\ sender_id t = x) \/
             (sender_id t = account /\ receiver_id t = x)).

(** 101 salary payments out of the account P, which receives nothing. *)
Definition payrollBatch : list Transaction :=
  fanOut 101 "P" 1500 "2024-01-31T09:00:00Z".

(** ** The two values of the shell risk *)

(** The binary64 number that prints as 0.7999999999999999: the result of
    [0.7 * 1 + 0.1]. *)
Definition shellRiskFast : Q := 7205759403792793 # 9007199254740992.

(** The binary64 number that prints as 0.6249999999999999: the result of
    [0.7 * 0.75 + 0.1]. *)
Definition shellRiskSlow : Q := 5629499534213119 # 9007199254740992.

(** ** Seventy-two hours, without reference to the scan *)

(** The incoming transactions of [account] among [txs], in the order of
    [txs]. *)
Definition incomingTo (account : string) (txs : list Tx) : list Tx :=
  filter (fun t : Tx => receiver_id t =? account) txs.

(** Every incoming transaction of [account] has a parsed time. *)
Definition incomingTimed (account : string) (txs : list Tx) : Prop :=
  forall t, In t (incomingTo account txs) -> timed t.

(** [t] has a parsed time, and it lies in the 72 hours that start at
    [s]. *)
Definition inInterval (s : Z) (t : Tx) : bool :=
  match _time t with
  | Num z => (s <=? z)%Z && (z <=? s + WINDOW_MS)%Z
  | NaN => false
  end.

(** [w] is a densest 72-hour window of the incoming transactions of
    [account]: it consists of the incoming transactions that are not
    later than one of them, [last], within the 72 hours before it, and no
    interval of 72 hours holds more incoming transactions than [w]. *)
Definition densest72 (account : string) (txs w : list Tx) : Prop :=
  exists incoming r last,
    Permutation (incomingTo account txs) incoming /\
    sortedByTime incoming /\
    nth_error incoming r = Some last /\
    w = windowAt incoming r /\
    (forall t, In t w -> (timeOf last - WINDOW_MS <= timeOf t <= timeOf last)%Z) /\
    (forall s, length (filter (inInterval s) (incomingTo account txs)) <= length w).

(** The parsed times of [a] and [b] are more than 72 hours apart, or one
    of them has no parsed time. *)
Definition farApart (a b : Tx) : bool :=
  match _time a, _time b with
  | Num x, Num y => (WINDOW_MS <? Z.abs (x - y))%Z
  | _, _ => true
  end.

Fixpoint allFarApart (l : list Tx) : bool :=
  match l with
  | [] => true
  | a :: l' => forallb (farApart a) l' && allFarApart l'
  end.

(** ** The checks of the shell detector *)

(** No account id of the graph, key or neighbour, contains a bar. *)
Definition barFree (e : Engine) : Prop :=
  forall k ns, In (k, ns) (adjacency e) ->
               noBar k = true /\ forall n, In n ns -> noBar n = true.

(** The chain a -> b -> c -> d passes every check that [detectShell]
    makes before it looks at the risk and at the set of keys: [a] is a key
    of the adjacency map, no merchant and on no cycle, [b] is one of its
    neighbours, [c] one of [b]'s and [d] one of [c]'s; [b] and [c] are on no
    cycle and are shell intermediaries; [c] is not [a]; [d] is none of [a],
    [b], [c] and has no edge to [a]; and the three hops are in strict
    temporal order. *)
Definition passesShellChecks (e : Engine) (cycleAccounts : JsSet)
    (a b c d : string) : Prop :=
  (exists neighborsA, In (a, neighborsA) (adjacency e) /\ In b neighborsA) /\
  In c (neighborsOf e b) /\
  In d (neighborsOf e c) /\
  isMerchant e a None None = false /\
  ~ In a cycleAccounts /\ ~ In b cycleAccounts /\ ~ In c cycleAccounts /\
  isShellIntermediate e b = true /\
  isShellIntermediate e c = true /\
  c <> a /\ d <> a /\ d <> b /\ d <> c /\
  ~ In a (neighborsOf e d) /\
  isTemporalChain e a b c d = true.

(** The chain [a, b, c, d] is among those that the shell detector has
    emitted so far. *)
Definition emittedChain (a b c d : string) (st : ShellState) : Prop :=
  exists ring, In ring (fst st) /\ accounts ring = [a; b; c; d].

(** ** Further example batches *)

Definition twoDigits (n : nat) : string := padStart 2 "0" (string_of_nat n).

(** Noon of the 15th of the [i]-th month after January 2020. *)
Definition monthStamp (i : nat) : string :=
  String.append (string_of_nat (2020 + i / 12))
    (String.append "-" (String.append (twoDigits (i mod 12 + 1)) "-15T12:00:00Z")).

(** 30 transfers into X from 30 senders: the first one with a timestamp
    that cannot be parsed, the others one month apart from each other, in
    time order. *)
Definition monthsApart : list Transaction :=
  mkT "in1" "S1" "X" 100 "not-a-date" ::
  map (fun i => mkT (String.append "in" (string_of_nat (i + 1)))
                    (String.append "S" (string_of_nat (i + 1))) "X" 100 (monthStamp i))
      (seq 1 29).

(** Two shell chains into c -> d, ("x|y", z, c, d) and (x, "y|z", c, d),
    whose members give the same string when joined by bars. *)
Definition barBatch : list Transaction :=
  [ mkT "t1" "x|y" "z" 100 "2024-01-15T10:00:00Z";
    mkT "t2" "x" "y|z" 100 "2024-01-15T10:30:00Z";
    mkT "t3" "z" "c" 100 "2024-01-15T11:00:00Z";
    mkT "t4" "y|z" "c" 100 "2024-01-15T11:30:00Z";
    mkT "t5" "c" "d" 200 "2024-01-15T12:00:00Z" ].
(** * Facts about the containers *)

Lemma fold_left_invariant {A S} (P : S -> Prop) (f : S -> A -> S) (l : list A) :
  (forall s x, In x l -> P s -> P (f s x)) ->
  forall s, P s -> P (fold_left f l s).
Proof.
  induction l as [|x l IH]; intros Hstep s Hs; simpl; [exact Hs|].
  apply IH.
  - intros s' y Hy. apply Hstep. now right.
  - apply Hstep; [now left | exact Hs].
Qed.

Lemma foldM_invariant {A S} (P : S -> Prop) (f : S -> A -> result S) (l : list A) :
  (forall s x s', In x l -> P s -> f s x = Returned s' -> P s') ->
  forall s s', P s -> foldM f l s = Returned s' -> P s'.
Proof.
  induction l as [|x l IH]; intros Hstep s s' Hs Hrun; simpl in Hrun.
  - now inversion Hrun; subst.
  - destruct (f s x) as [s1| |] eqn:Hf; simpl in Hrun; try discriminate.
    apply (IH (fun s0 y s0' Hy => Hstep s0 y s0' (or_intror Hy)) s1 s'); [|exact Hrun].
    apply (Hstep s x s1); [now left | exact Hs | exact Hf].
Qed.

(** A loop whose body always returns, returns. *)
Lemma foldM_total {A S} (P : S -> Prop) (f : S -> A -> result S) (l : list A) :
  (forall s x, In x l -> P s -> exists s', f s x = Returned s' /\ P s') ->
  forall s, P s -> exists s', foldM f l s = Returned s' /\ P s'.
Proof.
  induction l as [|x l IH]; intros Hstep s Hs; simpl.
  - now exists s.
  - destruct (Hstep s x (or_introl eq_refl) Hs) as [s1 [Hf Hs1]].
    rewrite Hf; simpl.
    apply IH; [|exact Hs1].
    intros s0 y Hy. apply Hstep. now right.
Qed.

Lemma set_has_In (s : JsSet) (x : string) : set_has s x = true <-> In x s.
Proof.
  unfold set_has. rewrite existsb_exists. split.
  - intros [y [Hy Heq]]. apply String.eqb_eq in Heq. now subst.
  - intros H. exists x. split; [exact H | apply String.eqb_refl].
Qed.

Lemma set_has_false (s : JsSet) (x : string) : set_has s x = false <-> ~ In x s.
Proof.
  rewrite <- set_has_In. destruct (set_has s x); split; congruence.
Qed.

Lemma set_add_In (s : JsSet) (x y : string) : In y (set_add s x) <-> In y s \/ y = x.
Proof.
  unfold set_add. destruct (set_has s x) eqn:H.
  - apply set_has_In in H. split; [tauto|]. intros [?|?]; subst; assumption.
  - rewrite in_app_iff. simpl. split; intros [?|?]; auto.
    + destruct H0; [subst; auto | contradiction].
Qed.

Lemma set_add_NoDup (s : JsSet) (x : string) : NoDup s -> NoDup (set_add s x).
Proof.
  intros Hs. unfold set_add. destruct (set_has s x) eqn:H; [exact Hs|].
  apply set_has_false in H.
  apply NoDup_rev in Hs. rewrite <- (rev_involutive (s ++ [x])).
  apply NoDup_rev. rewrite rev_app_distr. simpl. constructor; [|exact Hs].
  now rewrite <- in_rev.
Qed.

Lemma fold_set_add_In (l : list string) (s : JsSet) (y : string) :
  In y (fold_left set_add l s) <-> In y s \/ In y l.
Proof.
  revert s. induction l as [|x l IH]; intros s; simpl; [tauto|].
  rewrite IH, set_add_In. intuition.
Qed.

Lemma fold_set_add_NoDup (l : list string) (s : JsSet) :
  NoDup s -> NoDup (fold_left set_add l s).
Proof.
  revert s. induction l as [|x l IH]; intros s Hs; simpl; [exact Hs|].
  apply IH. now apply set_add_NoDup.
Qed.

Lemma set_of_list_In (l : list string) (y : string) : In y (set_of_list l) <-> In y l.
Proof. unfold set_of_list. rewrite fold_set_add_In. simpl. tauto. Qed.

Lemma set_of_list_NoDup (l : list string) : NoDup (set_of_list l).
Proof. apply fold_set_add_NoDup. constructor. Qed.

Lemma map_get_set_same {V} (m : JsMap V) (k : string) (v : V) :
  map_get (map_set m k v) k = Some v.
Proof.
  induction m as [|[k' v'] m IH]; simpl.
  - now rewrite String.eqb_refl.
  - destruct (k' =? k) eqn:E; simpl; rewrite E; [reflexivity | exact IH].
Qed.

Lemma map_get_set_other {V} (m : JsMap V) (k k' : string) (v : V) :
  k <> k' -> map_get (map_set m k v) k' = map_get m k'.
Proof.
  intros Hne. induction m as [|[k0 v0] m IH]; simpl.
  - apply String.eqb_neq in Hne. now rewrite Hne.
  - destruct (k0 =? k) eqn:E; simpl.
    + apply String.eqb_eq in E. subst k0.
      apply String.eqb_neq in Hne. now rewrite Hne.
    + now rewrite IH.
Qed.

Lemma map_get_In {V} (m : JsMap V) (k : string) (v : V) :
  map_get m k = Some v -> In (k, v) m.
Proof.
  induction m as [|[k' v'] m IH]; simpl; [discriminate|].
  destruct (k' =? k) eqn:E.
  - apply String.eqb_eq in E. intros H. inversion H. subst. now left.
  - intros H. right. now apply IH.
Qed.

Lemma In_map_get {V} (m : JsMap V) (k : string) (v : V) :
  NoDup (map_keys m) -> In (k, v) m -> map_get m k = Some v.
Proof.
  induction m as [|[k' v'] m IH]; simpl; [contradiction|].
  intros Hnd [Heq|Hin].
  - inversion Heq; subst. now rewrite String.eqb_refl.
  - inversion Hnd as [|? ? Hnotin Hnd']; subst.
    destruct (k' =? k) eqn:E.
    + apply String.eqb_eq in E. subst k'.
      exfalso. apply Hnotin. unfold map_keys. apply in_map_iff. now exists (k, v).
    + now apply IH.
Qed.

Lemma map_set_keys {V} (m : JsMap V) (k : string) (v : V) (x : string) :
  In x (map_keys (map_set m k v)) <-> In x (map_keys m) \/ x = k.
Proof.
  unfold map_keys. induction m as [|[k' v'] m IH]; simpl.
  - intuition.
  - destruct (k' =? k) eqn:E; simpl.
    + apply String.eqb_eq in E. subst. intuition.
    + rewrite IH. intuition.
Qed.

Lemma map_set_NoDup {V} (m : JsMap V) (k : string) (v : V) :
  NoDup (map_keys m) -> NoDup (map_keys (map_set m k v)).
Proof.
  unfold map_keys. induction m as [|[k' v'] m IH]; simpl; intros Hnd.
  - constructor; [intros []|constructor].
  - inversion Hnd as [|? ? Hnotin Hnd']; subst.
    destruct (k' =? k) eqn:E; simpl.
    + constructor; assumption.
    + constructor; [|now apply IH].
      intros Hin. apply (map_set_keys m k v k') in Hin. destruct Hin as [Hin|Heq].
      * now apply Hnotin.
      * subst. now rewrite String.eqb_refl in E.
Qed.

Lemma map_set_In {V} (m : JsMap V) (k : string) (v : V) (k' : string) (v' : V) :
  In (k', v') (map_set m k v) -> (k' = k /\ v' = v) \/ In (k', v') m.
Proof.
  induction m as [|[k0 v0] m IH]; simpl.
  - intros [H|[]]. inversion H. now left.
  - destruct (k0 =? k) eqn:E; simpl.
    + apply String.eqb_eq in E. subst.
      intros [H|H]; [inversion H; now left | right; now right].
    + intros [H|H]; [right; now left|].
      destruct (IH H) as [?|?]; [now left | right; now right].
Qed.

Lemma map_update_keys {V} (m : JsMap V) (k : string) (f : V -> V) :
  map_keys (map_update m k f) = map_keys m.
Proof.
  unfold map_keys. induction m as [|[k' v'] m IH]; simpl; [reflexivity|].
  destruct (k' =? k); simpl; [reflexivity | now rewrite IH].
Qed.

Lemma insert_sorted_perm {A} (gt : A -> A -> bool) (x : A) (l : list A) :
  Permutation (x :: l) (insert_sorted gt x l).
Proof.
  induction l as [|y l IH]; simpl; [apply Permutation_refl|].
  destruct (gt y x); [apply Permutation_refl|].
  eapply Permutation_trans; [apply perm_swap|]. now apply perm_skip.
Qed.

Lemma jsSort_perm {A} (gt : A -> A -> bool) (l : list A) :
  Permutation l (jsSort gt l).
Proof.
  unfold jsSort.
  assert (H : forall acc, Permutation (acc ++ l)
                (fold_left (fun acc x => insert_sorted gt x acc) l acc)).
  { induction l as [|x l IH]; intros acc; simpl.
    - rewrite app_nil_r. apply Permutation_refl.
    - eapply Permutation_trans; [|apply IH].
      eapply Permutation_trans; [apply Permutation_sym, Permutation_middle|].
      apply (Permutation_app_tail l (insert_sorted_perm gt x acc)). }
  apply (H []).
Qed.

Lemma jsSort_In {A} (gt : A -> A -> bool) (l : list A) (x : A) :
  In x (jsSort gt l) <-> In x l.
Proof.
  split; apply Permutation_in; [apply Permutation_sym|]; apply jsSort_perm.
Qed.

Lemma jsSort_length {A} (gt : A -> A -> bool) (l : list A) :
  length (jsSort gt l) = length l.
Proof. symmetry. apply Permutation_length, jsSort_perm. Qed.

(** * Facts about the order on scores *)

Lemma Qltb_lt (x y : Q) : Qltb x y = true <-> (x < y)%Q.
Proof.
  unfold Qltb. rewrite negb_true_iff. split.
  - intros H. apply Qnot_le_lt. intros Hle.
    apply Qle_bool_iff in Hle. congruence.
  - intros H. destruct (Qle_bool y x) eqn:E; [|reflexivity].
    apply Qle_bool_iff in E. exfalso. now apply (Qlt_not_le x y).
Qed.

Lemma Qltb_ge (x y : Q) : Qltb x y = false <-> (y <= x)%Q.
Proof.
  unfold Qltb. rewrite negb_false_iff. apply Qle_bool_iff.
Qed.

Lemma Qltb_irrefl (x : Q) : Qltb x x = false.
Proof. apply Qltb_ge. apply Qle_refl. Qed.

Lemma Qltb_compat (x x' y y' : Q) : (x == x')%Q -> (y == y')%Q -> Qltb x y = Qltb x' y'.
Proof.
  intros Hx Hy. destruct (Qltb x' y') eqn:E.
  - apply Qltb_lt. apply Qltb_lt in E. now rewrite Hx, Hy.
  - apply Qltb_ge. apply Qltb_ge in E. now rewrite Hx, Hy.
Qed.

(** * RingRegistry: the merge policy of [addRing] *)

Lemma Pattern_eqb_eq (p q : Pattern) : Pattern_eqb p q = true <-> p = q.
Proof. destruct p, q; simpl; split; congruence. Qed.

Lemma existsb_Pattern (p : Pattern) (l : list Pattern) :
  existsb (Pattern_eqb p) l = true <-> In p l.
Proof.
  rewrite existsb_exists. split.
  - intros [q [Hq Heq]]. apply Pattern_eqb_eq in Heq. now subst.
  - intros H. exists p. split; [exact H | now apply Pattern_eqb_eq].
Qed.

Lemma addMember_merchant e pattern riskScore ringId sm acc :
  isMerchant e acc None None = true ->
  addMember e pattern riskScore ringId sm acc = sm.
Proof. intros H. unfold addMember. now rewrite H. Qed.

Lemma addMember_merge e pattern riskScore ringId sm acc :
  isMerchant e acc None None = false ->
  addMember e pattern riskScore ringId sm acc =
  map_set sm acc (mergeRecord pattern riskScore ringId acc (map_get sm acc)).
Proof.
  intros H. unfold addMember, mergeRecord. rewrite H.
  destruct (map_get sm acc); reflexivity.
Qed.

Lemma mergeRecord_twice pattern riskScore ringId acc found :
  mergeRecord pattern riskScore ringId acc
    (Some (mergeRecord pattern riskScore ringId acc found)) =
  mergeRecord pattern riskScore ringId acc found.
Proof.
  assert (Hin : forall l, existsb (Pattern_eqb pattern) (l ++ [pattern]) = true).
  { intros l. apply existsb_Pattern, in_or_app. right. now left. }
  destruct found as [ex|]; simpl.
  - destruct (Qltb (suspicion_score ex) riskScore) eqn:Hlt; simpl.
    + destruct (existsb (Pattern_eqb pattern) (detected_patterns ex)) eqn:Hp; simpl;
        rewrite Qltb_irrefl; simpl; [now rewrite Hp | now rewrite Hin].
    + destruct (existsb (Pattern_eqb pattern) (detected_patterns ex)) eqn:Hp; simpl;
        rewrite Hlt; simpl; [now rewrite Hp | now rewrite Hin].
  - rewrite Qltb_irrefl. simpl. destruct pattern; reflexivity.
Qed.

Lemma addMember_get_other e pattern riskScore ringId sm acc k :
  acc <> k ->
  map_get (addMember e pattern riskScore ringId sm acc) k = map_get sm k.
Proof.
  intros Hne. destruct (isMerchant e acc None None) eqn:Hm.
  - now rewrite addMember_merchant.
  - rewrite addMember_merge by exact Hm. now apply map_get_set_other.
Qed.

Lemma addMember_NoDup e pattern riskScore ringId sm acc :
  NoDup (map_keys sm) -> NoDup (map_keys (addMember e pattern riskScore ringId sm acc)).
Proof.
  intros Hnd. destruct (isMerchant e acc None None) eqn:Hm.
  - now rewrite addMember_merchant.
  - rewrite addMember_merge by exact Hm. now apply map_set_NoDup.
Qed.

(** The entry of [k] after the loop over the members of one ring. *)
Lemma addMembers_get e pattern riskScore ringId accounts sm k :
  map_get (fold_left (addMember e pattern riskScore ringId) accounts sm) k =
  if existsb (String.eqb k) accounts && negb (isMerchant e k None None)
  then Some (mergeRecord pattern riskScore ringId k (map_get sm k))
  else map_get sm k.
Proof.
  revert sm. induction accounts as [|a l IH]; intros sm; simpl; [reflexivity|].
  rewrite IH. destruct (k =? a) eqn:Eka; simpl.
  - apply String.eqb_eq in Eka. subst a.
    destruct (isMerchant e k None None) eqn:Hm; simpl.
    + rewrite andb_false_r. now rewrite addMember_merchant.
    + rewrite addMember_merge by exact Hm. rewrite map_get_set_same.
      rewrite andb_true_r.
      destruct (existsb (String.eqb k) l); [apply f_equal, mergeRecord_twice | reflexivity].
  - apply String.eqb_neq in Eka.
    rewrite addMember_get_other by congruence. reflexivity.
Qed.

Lemma addMembers_NoDup e pattern riskScore ringId accounts sm :
  NoDup (map_keys sm) ->
  NoDup (map_keys (fold_left (addMember e pattern riskScore ringId) accounts sm)).
Proof.
  intros Hnd.
  apply (fold_left_invariant (fun s => NoDup (map_keys s))); [|exact Hnd].
  intros s x _. apply addMember_NoDup.
Qed.

Lemma emptyRegistry_ok e : registryOk e emptyRegistry.
Proof.
  split; [constructor|]. intros acc. unfold entryOk. simpl.
  destruct (isMerchant e acc None None); reflexivity.
Qed.

Lemma mergedFrom_first pattern riskScore ringId acc accounts :
  mergedFrom (mergeRecord pattern riskScore ringId acc None)
    [ {| ring_id := ringId; member_accounts := accounts;
         pattern_type := pattern; risk_score := riskScore |} ].
Proof.
  split; [|split].
  - exists [], {| ring_id := ringId; member_accounts := accounts;
                  pattern_type := pattern; risk_score := riskScore |}, [].
    simpl. repeat split; intros r [].
  - simpl. constructor; [intros []|constructor].
  - intros p. simpl. split.
    + intros [Hp|[]]. subst. eexists. split; [now left | reflexivity].
    + intros [r [[Hr|[]] Hp]]. subst. now left.
Qed.

Lemma mergedFrom_next pattern riskScore ringId acc accounts ex R :
  mergedFrom ex R ->
  mergedFrom (mergeRecord pattern riskScore ringId acc (Some ex))
    (R ++ [ {| ring_id := ringId; member_accounts := accounts;
               pattern_type := pattern; risk_score := riskScore |} ]).
Proof.
  set (rn := {| ring_id := ringId; member_accounts := accounts;
                pattern_type := pattern; risk_score := riskScore |}).
  intros [[R1 [rmax [R2 [HR [Hs [Hid [Hlt Hle]]]]]]] [Hnd Hpat]].
  assert (Hbest :
    let ex1 := if Qltb (suspicion_score ex) riskScore
               then {| account_id := account_id ex; suspicion_score := riskScore;
                       detected_patterns := detected_patterns ex;
                       sa_ring_id := ringId |}
               else ex in
    detected_patterns ex1 = detected_patterns ex /\
    exists R1' rmax' R2',
      R ++ [rn] = R1' ++ rmax' :: R2' /\
      suspicion_score ex1 = risk_score rmax' /\
      sa_ring_id ex1 = ring_id rmax' /\
      (forall r, In r R1' -> (risk_score r < risk_score rmax')%Q) /\
      (forall r, In r R2' -> (risk_score r <= risk_score rmax')%Q)).
  { simpl. destruct (Qltb (suspicion_score ex) riskScore) eqn:E.
    - apply Qltb_lt in E. rewrite Hs in E. split; [reflexivity|].
      exists R, rn, []. simpl. repeat split; [|intros r []].
      intros r Hr. subst R. apply in_app_or in Hr.
      destruct Hr as [Hr|[Hr|Hr]].
      + eapply Qlt_trans; [apply Hlt, Hr | exact E].
      + now subst.
      + eapply Qle_lt_trans; [apply Hle, Hr | exact E].
    - apply Qltb_ge in E. rewrite Hs in E. split; [reflexivity|].
      exists R1, rmax, (R2 ++ [rn]). subst R.
      rewrite <- app_assoc. simpl. repeat split; try assumption.
      intros r Hr. apply in_app_or in Hr. destruct Hr as [Hr|[Hr|[]]].
      + now apply Hle.
      + now subst. }
  simpl in Hbest. destruct Hbest as [Hdp Hmax].
  unfold mergeRecord.
  set (ex1 := if Qltb (suspicion_score ex) riskScore then _ else ex) in *.
  assert (Hmem : forall p, (exists r, In r (R ++ [rn]) /\ pattern_type r = p) <->
                          In p (detected_patterns ex) \/ p = pattern).
  { intros p. rewrite Hpat. split.
    - intros [r [Hr Hp]]. apply in_app_or in Hr. destruct Hr as [Hr|[Hr|[]]].
      + left. now exists r.
      + right. now subst.
    - intros [[r [Hr Hp]]|Hp].
      + exists r. split; [apply in_or_app; now left | exact Hp].
      + exists rn. split; [apply in_or_app; right; now left | now subst]. }
  destruct (existsb (Pattern_eqb pattern) (detected_patterns ex1)) eqn:Hp.
  - split; [exact Hmax|]. rewrite Hdp in *. split; [exact Hnd|].
    intros p. rewrite Hmem. apply existsb_Pattern in Hp.
    split; [now left | intros [?|?]; [assumption | now subst]].
  - simpl. split; [exact Hmax|]. rewrite Hdp in *. split.
    + apply NoDup_rev in Hnd. rewrite <- (rev_involutive (_ ++ _)).
      apply NoDup_rev. rewrite rev_app_distr. simpl. constructor; [|exact Hnd].
      rewrite <- in_rev. intros Hin. apply existsb_Pattern in Hin. congruence.
    + intros p. rewrite Hmem. split.
      * intros Hin. apply in_app_or in Hin. destruct Hin as [?|[?|[]]]; auto.
      * intros [?|?]; apply in_or_app; [now left | right; now left].
Qed.

Lemma mergeRecord_account_id pattern riskScore ringId acc ex :
  account_id (mergeRecord pattern riskScore ringId acc (Some ex)) = account_id ex.
Proof.
  unfold mergeRecord.
  destruct (Qltb (suspicion_score ex) riskScore); simpl;
    destruct (existsb (Pattern_eqb pattern) (detected_patterns ex)); reflexivity.
Qed.

Lemma addRing_ok e reg accounts pattern risk :
  registryOk e reg -> registryOk e (addRing e reg accounts pattern risk).
Proof.
  intros [Hnd Hall]. split.
  - simpl. now apply addMembers_NoDup.
  - intros acc. specialize (Hall acc). unfold entryOk in *. simpl.
    rewrite addMembers_get. unfold ringsOf in *. rewrite filter_app. simpl.
    set (rn := {| ring_id := ringIdOf (ringCounter reg); member_accounts := accounts;
                  pattern_type := pattern; risk_score := riskScoreOf risk |}).
    change (memberOf acc rn) with (existsb (String.eqb acc) accounts).
    destruct (isMerchant e acc None None) eqn:Hm.
    + now rewrite andb_false_r.
    + rewrite andb_true_r.
      destruct (existsb (String.eqb acc) accounts) eqn:Hin.
      * destruct (map_get (suspiciousMap reg) acc) as [ex|] eqn:Hget.
        -- destruct Hall as [Hid Hmerged]. split.
           ++ now rewrite mergeRecord_account_id.
           ++ now apply mergedFrom_next.
        -- rewrite Hall. split; [reflexivity|]. apply mergedFrom_first.
      * rewrite app_nil_r. exact Hall.
Qed.

Section RegistryOfAnalysis.

Variable localeCompare : string -> string -> comparison.

(** The result of [analyze] is read off a registry that obeys the merge
    policy. *)
Lemma analyze_registry e r :
  analyze localeCompare e = Returned r ->
  exists reg,
    registryOk e reg /\
    fraud_rings r = fraudRings reg /\
    suspicious_accounts r = jsSort scoreGt (map_values (suspiciousMap reg)).
Proof.
  unfold analyze. intros H.
  destruct (detectCycles localeCompare e 3 5) as [cycles| |]; simpl in H; try discriminate.
  destruct (detectSmurfing e) as [smurfs| |]; simpl in H; try discriminate.
  inversion H; subst; clear H. simpl.
  eexists. split; [|split; reflexivity].
  apply (fold_left_invariant (registryOk e)).
  { intros s x _ Hs. now apply addRing_ok. }
  apply (fold_left_invariant (registryOk e)).
  { intros s x _ Hs. now apply addRing_ok. }
  apply (fold_left_invariant (fun st => registryOk e (fst st))).
  { intros s x _ Hs. simpl. now apply addRing_ok. }
  apply emptyRegistry_ok.
Qed.

End RegistryOfAnalysis.

Lemma values_of_ok_map e reg sa :
  registryOk e reg ->
  In sa (map_values (suspiciousMap reg)) ->
  map_get (suspiciousMap reg) (account_id sa) = Some sa.
Proof.
  intros [Hnd Hall] Hin. unfold map_values in Hin.
  apply in_map_iff in Hin. destruct Hin as [[k v] [Hv Hkv]]. simpl in Hv. subst v.
  pose proof (In_map_get _ _ _ Hnd Hkv) as Hget.
  specialize (Hall k). unfold entryOk in Hall. rewrite Hget in Hall.
  destruct (isMerchant e k None None); [discriminate|].
  destruct Hall as [Hid _]. now rewrite Hid.
Qed.

(** * The shell detector *)

Lemma shellStepD_inv e cyc a b c st d :
  set_has cyc a = false -> set_has cyc b = false -> set_has cyc c = false ->
  isMerchant e a None None = false ->
  isShellIntermediate e b = true -> isShellIntermediate e c = true ->
  In c (neighborsOf e b) -> In d (neighborsOf e c) ->
  shellInv e cyc st -> shellInv e cyc (shellStepD e a b c st d).
Proof.
  intros Ha Hb Hc Hm Hsb Hsc Hbc Hcd Hst. unfold shellStepD.
  destruct ((d =? a) || (d =? b) || (d =? c)); [exact Hst|].
  destruct (match map_get (adjacency e) d with
            | Some s => set_has s a
            | None => false
            end); [exact Hst|].
  destruct (isTemporalChain e a b c d) eqn:Ht; cbn [negb]; [|exact Hst].
  destruct (Qltb (shellRisk e a b c d) (b64 (6 # 10))); [exact Hst|].
  destruct (set_has (snd st) (join "|" [a; b; c; d])); cbn [negb]; [exact Hst|].
  intros ring Hin. cbn [fst] in Hin. apply in_app_or in Hin.
  destruct Hin as [Hin|[Hin|[]]]; [now apply Hst|].
  subst ring. exists a, b, c, d. simpl. repeat split; assumption.
Qed.

Lemma shellStepC_inv e cyc a b st c :
  set_has cyc a = false -> set_has cyc b = false ->
  isMerchant e a None None = false ->
  isShellIntermediate e b = true ->
  In c (neighborsOf e b) ->
  shellInv e cyc st -> shellInv e cyc (shellStepC e cyc a b st c).
Proof.
  intros Ha Hb Hm Hsb Hbc Hst. unfold shellStepC.
  destruct (set_has cyc c) eqn:Hc; [exact Hst|].
  destruct (isShellIntermediate e c) eqn:Hsc; cbn [negb]; [|exact Hst].
  destruct (c =? a); [exact Hst|].
  apply (fold_left_invariant (shellInv e cyc)); [|exact Hst].
  intros s d Hd Hs. now apply shellStepD_inv.
Qed.

Lemma shellStepB_inv e cyc a st b :
  set_has cyc a = false ->
  isMerchant e a None None = false ->
  shellInv e cyc st -> shellInv e cyc (shellStepB e cyc a st b).
Proof.
  intros Ha Hm Hst. unfold shellStepB.
  destruct (set_has cyc b) eqn:Hb; [exact Hst|].
  destruct (isShellIntermediate e b) eqn:Hsb; cbn [negb]; [|exact Hst].
  apply (fold_left_invariant (shellInv e cyc)); [|exact Hst].
  intros s c Hc Hs. now apply shellStepC_inv.
Qed.

Lemma shellStepA_inv e cyc st entry :
  shellInv e cyc st -> shellInv e cyc (shellStepA e cyc st entry).
Proof.
  intros Hst. unfold shellStepA. destruct entry as [a neighborsA].
  destruct (isMerchant e a None None) eqn:Hm; [exact Hst|].
  destruct (set_has cyc a) eqn:Ha; [exact Hst|].
  apply (fold_left_invariant (shellInv e cyc)); [|exact Hst].
  intros s b _ Hs. now apply shellStepB_inv.
Qed.

(** Every emitted shell ring passed all the checks of the detector. *)
Lemma detectShell_sound e cyc ring :
  In ring (detectShell e cyc) -> shellChain e cyc ring.
Proof.
  unfold detectShell.
  apply (fold_left_invariant (shellInv e cyc)).
  - intros s entry _ Hs. now apply shellStepA_inv.
  - intros r [].
Qed.

(** The first three nodes of an emitted shell ring are outside the set of
    cycle members handed to the detector. *)
Lemma detectShell_excludes_first_three e cyc ring :
  In ring (detectShell e cyc) ->
  exists a b c d,
    accounts ring = [a; b; c; d] /\ ~ In a cyc /\ ~ In b cyc /\ ~ In c cyc.
Proof.
  intros Hin. destruct (detectShell_sound e cyc ring Hin)
    as [a [b [c [d [Hacc [_ [Ha [Hb [Hc _]]]]]]]]].
  exists a, b, c, d. rewrite <- !set_has_false. tauto.
Qed.

Lemma shellRisk_value e a b c d :
  shellRisk e a b c d =
  if num_lt (shellSpread e a b c d) (Num DAY_MS) then shellRiskFast else shellRiskSlow.
Proof.
  unfold shellRisk. cbv zeta.
  destruct (num_lt (shellSpread e a b c d) (Num DAY_MS)); vm_compute; reflexivity.
Qed.

Lemma riskScoreOf_compat (x y : Q) : (x == y)%Q -> riskScoreOf x = riskScoreOf y.
Proof.
  intros Hxy. unfold riskScoreOf.
  assert (Hmax : (Qmax x 0 == Qmax y 0)%Q).
  { unfold Qmax. rewrite (Qltb_compat x y 0 0 Hxy (Qeq_refl 0)).
    destruct (Qltb y 0); [reflexivity | exact Hxy]. }
  assert (Hmin : (Qmin (Qmax x 0) 1 == Qmin (Qmax y 0) 1)%Q).
  { unfold Qmin. rewrite (Qltb_compat 1 1 _ _ (Qeq_refl 1) Hmax).
    destruct (Qltb 1 (Qmax y 0)); [reflexivity | exact Hmax]. }
  set (u := Qmin (Qmax x 0) 1) in *. set (v := Qmin (Qmax y 0) 1) in *.
  assert (Hs : (u * 100 == v * 100)%Q) by now rewrite Hmin.
  unfold toFixed1. rewrite (Qltb_compat _ _ 0 0 Hs (Qeq_refl 0)).
  destruct (Qltb (v * 100) 0).
  - assert (Hf : Qfloor (- (u * 100) * 10 + (1 # 2)) = Qfloor (- (v * 100) * 10 + (1 # 2))).
    { apply Qfloor_comp. now rewrite Hs. }
    now rewrite Hf.
  - assert (Hf : Qfloor (u * 100 * 10 + (1 # 2)) = Qfloor (v * 100 * 10 + (1 # 2))).
    { apply Qfloor_comp. now rewrite Hs. }
    now rewrite Hf.
Qed.

Lemma shellRisk_above_floor e a b c d :
  Qltb (shellRisk e a b c d) (b64 (6 # 10)) = false.
Proof.
  rewrite shellRisk_value.
  destruct (num_lt (shellSpread e a b c d) (Num DAY_MS)); vm_compute; reflexivity.
Qed.

(** * The smurfing detector *)

Lemma smurfCandidate_emission e account txs ring :
  smurfCandidate e account txs = Returned (Some ring) ->
  smurfEmission e account txs ring.
Proof.
  unfold smurfCandidate. cbv zeta.
  destruct (isMerchant e account None None) eqn:Hm; [discriminate|].
  destruct (length (sortedIncoming account txs) <? MIN_UNIQUE)%nat; [discriminate|].
  destruct (densestWindow (sortedIncoming account txs)) as [bestWindow| |] eqn:Hbest;
    cbn [bind]; try discriminate.
  destruct (length bestWindow <? MIN_UNIQUE)%nat eqn:Hlen; [discriminate|].
  destruct (length (uniqueSendersOf bestWindow) <? MIN_UNIQUE)%nat eqn:Hs; [discriminate|].
  destruct (nth_error bestWindow 0) as [first|] eqn:Hfirst; [|discriminate].
  destruct (isMerchant e account (Some _) (Some _)); [discriminate|].
  destruct (Qltb _ SMURFING_RISK_THRESHOLD) eqn:Hrisk; [discriminate|].
  intros H. inversion H; subst; clear H. unfold smurfEmission. cbn [risk accounts].
  exists bestWindow, first.
  apply Nat.ltb_ge in Hlen, Hs. apply Qltb_ge in Hrisk.
  split; [exact Hm|]. split; [exact Hbest|]. split; [exact Hfirst|].
  split; [exact Hlen|]. split; [exact Hs|]. split; [reflexivity|].
  split; [exact Hrisk | reflexivity].
Qed.

Lemma detectSmurfing_emission e rings ring :
  detectSmurfing e = Returned rings ->
  In ring rings ->
  exists account txs,
    In (account, txs) (accountTx e) /\
    smurfCandidate e account txs = Returned (Some ring).
Proof.
  unfold detectSmurfing. intros Hrun.
  revert ring.
  apply (foldM_invariant
           (fun rs => forall ring, In ring rs ->
              exists account txs, In (account, txs) (accountTx e) /\
                smurfCandidate e account txs = Returned (Some ring))
           (smurfStep e) (accountTx e)) with (s := []) (s' := rings);
    [| intros ring [] | exact Hrun].
  intros rs [account txs] rs' Hentry Hrs Hstep ring Hin.
  unfold smurfStep in Hstep. simpl in Hstep.
  destruct (smurfCandidate e account txs) as [[c|]| |] eqn:Hc; simpl in Hstep;
    try discriminate; inversion Hstep; subst; clear Hstep.
  - apply in_app_or in Hin. destruct Hin as [Hin|[Hin|[]]]; [now apply Hrs|].
    subst. now exists account, txs.
  - now apply Hrs.
Qed.

Lemma nat_to_Q_le (a b : nat) : (nat_to_Q a <= nat_to_Q b)%Q <-> a <= b.
Proof.
  unfold nat_to_Q. rewrite <- Zle_Qle. lia.
Qed.

Lemma smurfRisk_fan_in_only nS nR :
  nR < MIN_UNIQUE ->
  smurfRisk nS nR = ((5 # 10) * Qmin (nat_to_Q nS / 30) 1 + (15 # 100))%Q.
Proof.
  intros H. unfold smurfRisk. apply Nat.leb_gt in H. now rewrite H.
Qed.

(** The fan-in-only risk reaches the threshold only with 30 senders, and
    then it is the threshold. *)
Lemma fan_in_only_threshold nS nR :
  nR < MIN_UNIQUE ->
  (SMURFING_RISK_THRESHOLD <= smurfRisk nS nR)%Q ->
  30 <= nS /\ (smurfRisk nS nR == 65 # 100)%Q.
Proof.
  intros HnR Hrisk. rewrite (smurfRisk_fan_in_only nS nR HnR) in *.
  unfold SMURFING_RISK_THRESHOLD in Hrisk.
  assert (Hdiv : (nat_to_Q nS / 30 == nat_to_Q nS * (1 # 30))%Q) by reflexivity.
  unfold Qmin in *.
  destruct (Qltb 1 (nat_to_Q nS / 30)) eqn:E.
  - split; [|reflexivity].
    apply Qltb_lt in E. rewrite Hdiv in E.
    apply nat_to_Q_le. change (nat_to_Q 30) with 30%Q. lra.
  - apply Qltb_ge in E. rewrite Hdiv in *.
    split; [apply nat_to_Q_le; change (nat_to_Q 30) with 30%Q|]; lra.
Qed.

Lemma WINDOW_MS_pos : (0 < WINDOW_MS)%Z.
Proof. reflexivity. Qed.

(** ** The window scan finds the densest 72-hour window

    On a list sorted by time whose timestamps were all parsed, the scan
    returns a window that holds as many transactions as any window
    [windowAt incoming right]. *)

Lemma num_lt_timed (t last : Tx) :
  timed t -> timed last ->
  num_lt (_time t) (num_sub (_time last) (Num WINDOW_MS)) = negb (inWindow last t).
Proof.
  unfold timed, inWindow. intros -> ->. simpl.
  rewrite Z.ltb_antisym. reflexivity.
Qed.

Lemma sortedByTime_nth l i j a b :
  sortedByTime l -> i <= j ->
  nth_error l i = Some a -> nth_error l j = Some b -> (timeOf a <= timeOf b)%Z.
Proof.
  intros Hs. revert i j. induction Hs as [|x l Hs IH Hall]; intros i j Hij Hi Hj.
  - destruct i; discriminate.
  - destruct i as [|i], j as [|j]; simpl in *.
    + injection Hi as <-. injection Hj as <-. lia.
    + injection Hi as <-. apply nth_error_In in Hj.
      rewrite Forall_forall in Hall. now apply Hall.
    + lia.
    + apply (IH i j); [lia | assumption | assumption].
Qed.

Lemma firstn_plus {A} (a b : nat) (l : list A) :
  firstn (a + b) l = firstn a l ++ firstn b (skipn a l).
Proof.
  revert l. induction a as [|a IH]; intros l; simpl; [reflexivity|].
  destruct l as [|x l]; simpl; [now rewrite firstn_nil|]. now rewrite IH.
Qed.

Lemma In_firstn_nth {A} (k : nat) (l : list A) (x : A) :
  In x (firstn k l) -> exists i, i < k /\ nth_error l i = Some x.
Proof.
  revert l. induction k as [|k IH]; intros l Hin; simpl in Hin; [destruct Hin|].
  destruct l as [|y l]; [destruct Hin|].
  destruct Hin as [<-|Hin].
  - exists 0. split; [lia | reflexivity].
  - destruct (IH l Hin) as [i [Hi Hn]]. exists (S i). split; [lia | exact Hn].
Qed.

Lemma In_skipn_nth {A} (k : nat) (l : list A) (x : A) :
  In x (skipn k l) -> exists i, k <= i /\ nth_error l i = Some x.
Proof.
  revert l. induction k as [|k IH]; intros l Hin.
  - apply In_nth_error in Hin. destruct Hin as [i Hi]. exists i. split; [lia | exact Hi].
  - destruct l as [|y l]; [destruct Hin|]. simpl in Hin.
    destruct (IH l Hin) as [i [Hi Hn]]. exists (S i). split; [lia | exact Hn].
Qed.

Lemma filter_all {A} (f : A -> bool) (l : list A) :
  (forall x, In x l -> f x = true) -> filter f l = l.
Proof.
  induction l as [|x l IH]; intros H; simpl; [reflexivity|].
  rewrite (H x (or_introl eq_refl)). f_equal. apply IH. intros y Hy. apply H. now right.
Qed.

Lemma filter_none {A} (f : A -> bool) (l : list A) :
  (forall x, In x l -> f x = false) -> filter f l = [].
Proof.
  induction l as [|x l IH]; intros H; simpl; [reflexivity|].
  rewrite (H x (or_introl eq_refl)). apply IH. intros y Hy. apply H. now right.
Qed.

Section WindowScan.

Variable incoming : list Tx.
Hypothesis all_timed : forall t, In t incoming -> timed t.
Hypothesis sorted : sortedByTime incoming.

Lemma timed_nth i t : nth_error incoming i = Some t -> timed t.
Proof. intros H. apply all_timed. eapply nth_error_In; eassumption. Qed.

(** The [while] loop skips exactly the transactions that are too old. *)
Lemma advanceLeft_spec last right :
  nth_error incoming right = Some last ->
  forall fuel left,
    left <= right -> right - left < fuel ->
    exists left',
      advanceLeft fuel incoming (_time last) left = Returned left' /\
      left <= left' <= right /\
      (forall i t, left <= i < left' -> nth_error incoming i = Some t ->
                   inWindow last t = false) /\
      (forall t, nth_error incoming left' = Some t -> inWindow last t = true).
Proof.
  intros Hr. induction fuel as [|fuel IH]; intros left Hle Hfuel; [lia|].
  simpl.
  destruct (nth_error incoming left) as [t|] eqn:Hl.
  2:{ exfalso. apply nth_error_None in Hl.
      assert (right < length incoming) by (apply nth_error_Some; congruence). lia. }
  rewrite (num_lt_timed t last (timed_nth _ _ Hl) (timed_nth _ _ Hr)).
  destruct (inWindow last t) eqn:E; cbn [negb].
  - exists left. split; [reflexivity|]. split; [lia|]. split.
    + intros i u Hi. lia.
    + intros u Hu. rewrite Hl in Hu. now injection Hu as <-.
  - assert (Hne : left <> right).
    { intros ->. rewrite Hr in Hl. injection Hl as <-.
      unfold inWindow in E. apply Z.leb_gt in E. pose proof WINDOW_MS_pos. lia. }
    destruct (IH (S left)) as [left' [Hrun [Hb [Hold Hnew]]]]; [lia | lia |].
    exists left'. split; [exact Hrun|]. split; [lia|]. split; [|exact Hnew].
    intros i u Hi Hu.
    destruct (Nat.eq_dec i left) as [->|Hneq].
    + rewrite Hl in Hu. now injection Hu as <-.
    + apply (Hold i u); [lia | exact Hu].
Qed.

(** The slice that the scan takes at [right] is the window at [right]. *)
Lemma slice_is_window last right left' :
  nth_error incoming right = Some last ->
  left' <= right ->
  (forall i t, i < left' -> nth_error incoming i = Some t -> inWindow last t = false) ->
  (forall t, nth_error incoming left' = Some t -> inWindow last t = true) ->
  slice incoming left' (right + 1) = windowAt incoming right.
Proof.
  intros Hr Hle Hold Hnew. unfold slice, windowAt. rewrite Hr.
  replace (S right) with (left' + (right + 1 - left')) by lia.
  rewrite firstn_plus, filter_app.
  rewrite filter_none, filter_all; [reflexivity| |].
  - intros x Hx. destruct (In_firstn_nth _ _ _ Hx) as [i0 [_ Hn0]].
    apply nth_error_In in Hn0.
    destruct (In_skipn_nth _ _ _ Hn0) as [i [Hi Hn]].
    assert (Hlt : left' < length incoming).
    { assert (right < length incoming) by (apply nth_error_Some; congruence). lia. }
    destruct (nth_error incoming left') as [u|] eqn:Hu;
      [|apply nth_error_None in Hu; lia].
    pose proof (Hnew u eq_refl) as Hwin.
    pose proof (sortedByTime_nth incoming left' i u x sorted Hi Hu Hn) as Hord.
    unfold inWindow in *. apply Z.leb_le in Hwin. apply Z.leb_le. lia.
  - intros x Hx. destruct (In_firstn_nth _ _ _ Hx) as [i [Hi Hn]].
    now apply (Hold i x).
Qed.

Lemma windowStep_scan right st :
  right < length incoming ->
  scanInv incoming right st ->
  exists st', windowStep incoming st right = Returned st' /\
              scanInv incoming (S right) st'.
Proof.
  intros Hlt [Hle [Hold [Hbest Hmax]]]. unfold windowStep.
  destruct (nth_error incoming right) as [last|] eqn:Hr;
    [|apply nth_error_None in Hr; lia].
  destruct (advanceLeft_spec last right Hr (S (length incoming)) (fst st))
    as [left' [Hadv [Hb [Hskip Hnew]]]]; [exact Hle | lia |].
  cbv zeta. rewrite Hadv. cbn [bind].
  assert (Hold' : forall i t, i < left' -> nth_error incoming i = Some t ->
                              inWindow last t = false).
  { intros i t Hi Ht. destruct (Nat.lt_ge_cases i (fst st)) as [Hlow|Hhigh].
    - now apply (Hold i t last).
    - apply (Hskip i t); [lia | exact Ht]. }
  rewrite (slice_is_window last right left' Hr (proj2 Hb) Hold' Hnew).
  eexists. split; [reflexivity|]. unfold scanInv. cbn [fst snd].
  split; [lia|]. split; [|split].
  - intros i t next Hi Ht Hnext.
    pose proof (Hold' i t Hi Ht) as Hout.
    pose proof (sortedByTime_nth incoming right (S right) last next sorted
                  (Nat.le_succ_diag_r right) Hr Hnext) as Hord.
    unfold inWindow in *. apply Z.leb_gt in Hout. apply Z.leb_gt. lia.
  - destruct (length (snd st) <? length (windowAt incoming right))%nat.
    + right. exists right. split; [lia | reflexivity].
    + destruct Hbest as [Hnil|[r [Hr' Heq]]]; [now left|].
      right. exists r. split; [lia | exact Heq].
  - intros r Hr'.
    destruct (length (snd st) <? length (windowAt incoming right))%nat eqn:E.
    + apply Nat.ltb_lt in E.
      destruct (Nat.eq_dec r right) as [->|Hne]; [lia|].
      specialize (Hmax r). lia.
    + apply Nat.ltb_ge in E.
      destruct (Nat.eq_dec r right) as [->|Hne]; [lia|].
      apply Hmax. lia.
Qed.

Lemma window_loop_scan :
  forall n s st,
    s + n <= length incoming ->
    scanInv incoming s st ->
    exists st', foldM (windowStep incoming) (seq s n) st = Returned st' /\
                scanInv incoming (s + n) st'.
Proof.
  induction n as [|n IH]; intros s st Hn Hst; simpl.
  - exists st. split; [reflexivity|]. now rewrite Nat.add_0_r.
  - destruct (windowStep_scan s st) as [st1 [Hstep Hst1]]; [lia | exact Hst |].
    rewrite Hstep. cbn [bind].
    destruct (IH (S s) st1) as [st' [Hrun Hst']]; [lia | exact Hst1 |].
    exists st'. split; [exact Hrun|]. now rewrite <- Nat.add_succ_comm.
Qed.

(** The window returned by the scan is one of the 72-hour windows and no
    72-hour window holds more transactions. *)
Theorem densestWindow_is_densest :
  exists bestWindow,
    densestWindow incoming = Returned bestWindow /\
    (bestWindow = [] \/
     exists r, r < length incoming /\ bestWindow = windowAt incoming r) /\
    forall r, r < length incoming ->
              length (windowAt incoming r) <= length bestWindow.
Proof.
  unfold densestWindow.
  destruct (window_loop_scan (length incoming) 0 (0, [])) as [st [Hrun Hst]].
  - lia.
  - unfold scanInv. cbn [fst snd]. split; [lia|]. split; [|split].
    + intros i t last Hi. lia.
    + now left.
    + intros r Hr. lia.
  - rewrite Hrun. cbn [bind]. exists (snd st). split; [reflexivity|].
    destruct Hst as [_ [_ [Hbest Hmax]]]. simpl in Hbest, Hmax. split; assumption.
Qed.

End WindowScan.

(** The sort by time puts parsed timestamps in ascending order. *)
Lemma insert_sorted_by_time (x : Tx) (acc : list Tx) :
  timed x -> (forall t, In t acc -> timed t) ->
  sortedByTime acc ->
  sortedByTime
    (insert_sorted (fun a b : Tx => num_pos (num_sub (_time a) (_time b))) x acc).
Proof.
  intros Hx Hacc Hs. induction Hs as [|y acc Hs IH Hall]; simpl.
  - constructor; constructor.
  - assert (Hy : timed y) by (apply Hacc; now left).
    assert (Hgt : num_pos (num_sub (_time y) (_time x)) = (timeOf x <? timeOf y)%Z).
    { unfold timed in Hx, Hy. rewrite Hx, Hy. simpl.
      destruct (timeOf x <? timeOf y)%Z eqn:E.
      - apply Z.ltb_lt in E. apply Z.ltb_lt. lia.
      - apply Z.ltb_ge in E. apply Z.ltb_ge. lia. }
    rewrite Hgt. destruct (timeOf x <? timeOf y)%Z eqn:E.
    + apply Z.ltb_lt in E. constructor; [constructor; assumption|].
      constructor; [lia|]. rewrite Forall_forall in *. intros z Hz.
      specialize (Hall z Hz). lia.
    + apply Z.ltb_ge in E. constructor.
      * apply IH. intros t Ht. apply Hacc. now right.
      * rewrite Forall_forall in *. intros z Hz.
        apply (Permutation_in _ (Permutation_sym (insert_sorted_perm _ x acc))) in Hz.
        destruct Hz as [<-|Hz]; [exact E | now apply Hall].
Qed.

Lemma sortedIncoming_sorted account txs :
  (forall t, In t txs -> timed t) -> sortedByTime (sortedIncoming account txs).
Proof.
  intros Htimed. unfold sortedIncoming, jsSort.
  set (gt := fun a b : Tx => num_pos (num_sub (_time a) (_time b))).
  assert (H : forall l acc,
             (forall t, In t l -> timed t) -> (forall t, In t acc -> timed t) ->
             sortedByTime acc ->
             sortedByTime (fold_left (fun acc x => insert_sorted gt x acc) l acc)).
  { induction l as [|x l IH]; intros acc Hl Hacc Hs; simpl; [exact Hs|].
    apply IH.
    - intros t Ht. apply Hl. now right.
    - intros t Ht.
      apply (Permutation_in _ (Permutation_sym (insert_sorted_perm gt x acc))) in Ht.
      destruct Ht as [<-|Ht]; [apply Hl; now left | now apply Hacc].
    - apply insert_sorted_by_time; [apply Hl; now left | exact Hacc | exact Hs]. }
  apply H; [|intros t []|constructor].
  intros t Ht. apply filter_In in Ht. apply Htimed. tauto.
Qed.

(** X29. For an account whose transactions all have a parsed time, the
    list that the window scan goes through is in time order and the
    window that [smurfCandidate] examines is a densest 72-hour window of
    it: it is the window that ends at one of the incoming transactions,
    and no such window holds more transactions. *)
Corollary smurfing_window_is_densest account txs :
  (forall t, In t txs -> timed t) ->
  sortedByTime (sortedIncoming account txs) /\
  exists bestWindow,
    densestWindow (sortedIncoming account txs) = Returned bestWindow /\
    (bestWindow = [] \/
     exists r, r < length (sortedIncoming account txs) /\
               bestWindow = windowAt (sortedIncoming account txs) r) /\
    forall r, r < length (sortedIncoming account txs) ->
              length (windowAt (sortedIncoming account txs) r) <= length bestWindow.
Proof.
  intros Htimed.
  pose proof (sortedIncoming_sorted account txs Htimed) as Hsorted.
  split; [exact Hsorted|].
  apply densestWindow_is_densest; [|exact Hsorted].
  intros t Ht. unfold sortedIncoming in Ht. apply jsSort_In in Ht.
  apply filter_In in Ht. apply Htimed. tauto.
Qed.

(** * The analysis always returns *)

Lemma num_lt_window_irrefl (t : JsNum) : num_lt t (num_sub t (Num WINDOW_MS)) = false.
Proof.
  destruct t as [|z]; simpl; [reflexivity|].
  apply Z.ltb_ge. pose proof WINDOW_MS_pos. lia.
Qed.

(** The [while] loop stops at [right] at the latest. *)
Lemma advanceLeft_total incoming tr right :
  nth_error incoming right = Some tr ->
  forall fuel left,
    left <= right -> right - left < fuel ->
    exists left',
      advanceLeft fuel incoming (_time tr) left = Returned left' /\ left' <= right.
Proof.
  intros Hr. induction fuel as [|fuel IH]; intros left Hle Hfuel; [lia|].
  simpl.
  destruct (nth_error incoming left) as [t|] eqn:Hl.
  - destruct (num_lt (_time t) (num_sub (_time tr) (Num WINDOW_MS))) eqn:E.
    + assert (Hne : left <> right).
      { intros ->. rewrite Hr in Hl. inversion Hl; subst.
        rewrite num_lt_window_irrefl in E. discriminate. }
      apply IH; lia.
    + exists left. split; [reflexivity | exact Hle].
  - exfalso. apply nth_error_None in Hl.
    assert (right < length incoming) by (apply nth_error_Some; congruence).
    lia.
Qed.

Lemma window_loop_total incoming :
  forall n s st,
    s + n <= length incoming -> fst st <= s ->
    exists st', foldM (windowStep incoming) (seq s n) st = Returned st'.
Proof.
  induction n as [|n IH]; intros s st Hn Hst; simpl.
  - now exists st.
  - unfold windowStep at 1.
    destruct (nth_error incoming s) as [tr|] eqn:Hs.
    2:{ exfalso. apply nth_error_None in Hs. lia. }
    destruct (advanceLeft_total incoming tr s Hs (S (length incoming)) (fst st))
      as [left' [Hadv Hle]]; [exact Hst | lia |].
    cbv zeta. rewrite Hadv. cbn [bind].
    apply IH; [lia | simpl; lia].
Qed.

Lemma densestWindow_total incoming : exists bw, densestWindow incoming = Returned bw.
Proof.
  unfold densestWindow.
  destruct (window_loop_total incoming (length incoming) 0 (0, [])) as [st Hst];
    [lia | simpl; lia |].
  rewrite Hst. cbn [bind]. now exists (snd st).
Qed.

Lemma smurfCandidate_total e account txs :
  exists o, smurfCandidate e account txs = Returned o.
Proof.
  unfold smurfCandidate. cbv zeta.
  destruct (isMerchant e account None None); [now eexists|].
  destruct (length (sortedIncoming account txs) <? MIN_UNIQUE)%nat; [now eexists|].
  destruct (densestWindow_total (sortedIncoming account txs)) as [bw Hbw].
  rewrite Hbw. cbn [bind].
  destruct (length bw <? MIN_UNIQUE)%nat eqn:Hlen; [now eexists|].
  destruct (length (uniqueSendersOf bw) <? MIN_UNIQUE)%nat; [now eexists|].
  destruct bw as [|first bw]; [discriminate|]. cbn [nth_error].
  destruct (isMerchant e account (Some _) (Some _)); [now eexists|].
  destruct (Qltb _ SMURFING_RISK_THRESHOLD); now eexists.
Qed.

Lemma detectSmurfing_total e : exists rings, detectSmurfing e = Returned rings.
Proof.
  unfold detectSmurfing.
  destruct (foldM_total (fun _ => True) (smurfStep e) (accountTx e)) with (s := @nil Candidate)
    as [rings [Hrings _]]; [|exact I|now exists rings].
  intros rs [account txs] _ _. unfold smurfStep. simpl.
  destruct (smurfCandidate_total e account txs) as [o Ho]. rewrite Ho. cbn [bind].
  destruct o; eexists; split; try reflexivity; exact I.
Qed.

Section CyclesReturn.

Variable localeCompare : string -> string -> comparison.

Lemma rotationsOf_length arr : length (rotationsOf arr) = length arr.
Proof. unfold rotationsOf. now rewrite length_map, length_seq. Qed.

Lemma canonicalize_total arr :
  arr <> [] -> exists key, canonicalize localeCompare arr = Returned key.
Proof.
  intros Hne. unfold canonicalize.
  destruct (jsSort (rotationGt localeCompare) (rotationsOf arr ++ rotationsOf (rev arr)))
    as [|r l] eqn:Hsort.
  - exfalso. apply (f_equal (@length _)) in Hsort.
    rewrite jsSort_length, length_app, rotationsOf_length in Hsort.
    destruct arr; [congruence | simpl in Hsort; lia].
  - now eexists.
Qed.

Lemma emitCycle_total path st :
  path <> [] -> exists st', emitCycle localeCompare path st = Returned st'.
Proof.
  intros Hne. unfold emitCycle.
  destruct (canonicalize_total path Hne) as [key Hkey]. rewrite Hkey. cbn [bind].
  destruct (negb (set_has (emitted st) key)); now eexists.
Qed.

(** The recursion of [dfs] is at most [max + 1] calls deep: a call on a
    path of length [n] needs [max + 2 - n] units of fuel. *)
Lemma dfs_total e min max start :
  forall fuel current path st,
    path <> [] ->
    0 < fuel ->
    max + 2 <= fuel + length path ->
    exists st', dfs localeCompare fuel e min max start current path st = Returned st'.
Proof.
  induction fuel as [|fuel IH]; intros current path st Hne Hpos Hfuel; [lia|].
  - simpl. destruct (max <? length path)%nat eqn:E; [now eexists|].
    apply Nat.ltb_ge in E.
    destruct (map_get (adjacency e) current) as [neighbors|]; [|now eexists].
    match goal with
    | |- exists st', foldM ?f neighbors st = Returned st' =>
        destruct (foldM_total (fun _ => True) f neighbors) with (s := st)
          as [st' [Hst' _]]; [|exact I|now exists st']
    end.
    intros s next _ _.
    assert (Hemit : exists s1,
      (if (next =? start) && (min <=? length path)%nat
       then emitCycle localeCompare path s else Returned s) = Returned s1).
    { destruct ((next =? start) && (min <=? length path)%nat);
        [now apply emitCycle_total | now eexists]. }
    destruct Hemit as [s1 Hs1]. rewrite Hs1. cbn [bind].
    destruct (negb (set_has (visited s1) next)); [|now eexists].
    destruct (IH next (path ++ [next]) (withVisited s1 (set_add (visited s1) next)))
      as [s2 Hs2].
    + now destruct path.
    + lia.
    + rewrite length_app. simpl. lia.
    + rewrite Hs2. cbn [bind]. now eexists.
Qed.

Lemma detectCycles_total e min max :
  exists cycles, detectCycles localeCompare e min max = Returned cycles.
Proof.
  unfold detectCycles.
  match goal with
  | |- exists cycles, bind (foldM ?f ?l ?s0) _ = _ =>
      destruct (foldM_total (fun _ => True) f l) with (s := s0)
        as [st [Hst _]]; [|exact I|]
  end.
  - intros s node _ _.
    destruct (dfs_total e min max node (S max) node [node] (withVisited s [node]))
      as [s' Hs']; [discriminate | lia | simpl; lia |].
    exists s'. now split.
  - rewrite Hst. cbn [bind]. now eexists.
Qed.

Lemma analyze_total e : exists r, analyze localeCompare e = Returned r.
Proof.
  unfold analyze.
  destruct (detectCycles_total e 3 5) as [cycles Hc]. rewrite Hc. cbn [bind].
  destruct (detectSmurfing_total e) as [smurfs Hs]. rewrite Hs. cbn [bind].
  now eexists.
Qed.

End CyclesReturn.

(** * The cycle detector *)

Lemma insert_sorted_tied {A} (gt : A -> A -> bool) (x : A) (acc : list A) :
  (forall y, In y acc -> gt y x = false) -> insert_sorted gt x acc = acc ++ [x].
Proof.
  induction acc as [|y acc IH]; intros H; simpl; [reflexivity|].
  rewrite (H y (or_introl eq_refl)). rewrite IH; [reflexivity|].
  intros z Hz. apply H. now right.
Qed.

(** A stable sort leaves a list of pairwise tied elements as it is. *)
Lemma jsSort_tied {A} (gt : A -> A -> bool) (l : list A) :
  (forall x y, In x l -> In y l -> gt x y = false) -> jsSort gt l = l.
Proof.
  unfold jsSort.
  assert (H : forall acc,
             (forall x y, In x (acc ++ l) -> In y (acc ++ l) -> gt x y = false) ->
             fold_left (fun acc x => insert_sorted gt x acc) l acc = acc ++ l).
  { induction l as [|a l IH]; intros acc Hall; simpl.
    - now rewrite app_nil_r.
    - rewrite insert_sorted_tied.
      + rewrite IH; [now rewrite <- app_assoc|].
        now rewrite <- app_assoc.
      + intros y Hy. apply Hall; apply in_or_app; [now left | right; now left]. }
  intros Hall. apply (H []). exact Hall.
Qed.

Lemma String_compare_refl (s : string) : String.compare s s = Eq.
Proof.
  induction s as [|c s IH]; simpl; [reflexivity|].
  assert (Hc : Ascii.compare c c = Eq).
  { unfold Ascii.compare. apply N.compare_refl. }
  now rewrite Hc.
Qed.

(** ** What the detector emits is a simple cycle of 3 to 5 nodes *)

Lemma isPath_snoc e p x :
  p <> [] -> isPath e p -> hasEdge e (last p "") x -> isPath e (p ++ [x]).
Proof.
  induction p as [|u p IH]; intros Hne Hp Hedge; [congruence|].
  destruct p as [|v p].
  - simpl in *. split; [exact Hedge | exact I].
  - change ((u :: v :: p) ++ [x]) with (u :: (v :: p) ++ [x]).
    destruct Hp as [Huv Hp]. split; [exact Huv|].
    apply IH; [discriminate | exact Hp | exact Hedge].
Qed.

Lemma hd_snoc (p : list string) x : p <> [] -> hd "" (p ++ [x]) = hd "" p.
Proof. destruct p; [congruence | reflexivity]. Qed.

Lemma set_delete_add (v : JsSet) (x : string) :
  set_has v x = false -> set_delete (set_add v x) x = v.
Proof.
  intros H. unfold set_add. rewrite H. unfold set_delete.
  rewrite filter_app. simpl. rewrite String.eqb_refl. simpl. rewrite app_nil_r.
  apply set_has_false in H.
  induction v as [|y v IH]; simpl; [reflexivity|].
  destruct (y =? x) eqn:E.
  - apply String.eqb_eq in E. subst. exfalso. apply H. now left.
  - simpl. f_equal. apply IH. intros Hin. apply H. now right.
Qed.

Section CyclesSound.

Variable localeCompare : string -> string -> comparison.
Variable e : Engine.
Variables min max : nat.

Lemma emitCycle_sound path st st' :
  simpleCycle e path -> min <= length path <= max ->
  resultsOk e min max st ->
  emitCycle localeCompare path st = Returned st' ->
  resultsOk e min max st' /\ visited st' = visited st.
Proof.
  intros Hc Hlen Hst. unfold emitCycle.
  destruct (canonicalize localeCompare path) as [key| |]; cbn [bind]; try discriminate.
  destruct (negb (set_has (emitted st) key)); intros H; inversion H; subst; clear H.
  - split; [|reflexivity]. intros c Hin. simpl in Hin.
    apply in_app_or in Hin. destruct Hin as [Hin|[<-|[]]]; [now apply Hst | now split].
  - now split.
Qed.

Lemma dfs_sound start :
  forall fuel current path st st',
    path <> [] -> hd "" path = start -> last path "" = current ->
    isPath e path -> NoDup path ->
    (forall x, In x path -> In x (visited st)) ->
    resultsOk e min max st ->
    dfs localeCompare fuel e min max start current path st = Returned st' ->
    resultsOk e min max st' /\ visited st' = visited st.
Proof.
  induction fuel as [|fuel IH];
    intros current path st st' Hne Hhd Hlast Hpath Hnd Hvis Hst Hrun;
    [discriminate|].
  simpl in Hrun.
  destruct (max <? length path)%nat eqn:Hmax.
  { injection Hrun as <-. now split. }
  apply Nat.ltb_ge in Hmax.
  destruct (map_get (adjacency e) current) as [neighbors|] eqn:Hnb.
  2:{ injection Hrun as <-. now split. }
  assert (Hedge : forall next, In next neighbors -> hasEdge e current next).
  { intros next Hin. unfold hasEdge, neighborsOf. now rewrite Hnb. }
  revert Hrun.
  apply (foldM_invariant (fun s => resultsOk e min max s /\ visited s = visited st));
    [|now split].
  intros s next s' Hin [Hs Hv] Hstep.
  destruct (if (next =? start) && (min <=? length path)%nat
            then emitCycle localeCompare path s else Returned s)
    as [s1| |] eqn:Hemit; cbn [bind] in Hstep; try discriminate.
  assert (H1 : resultsOk e min max s1 /\ visited s1 = visited s).
  { destruct ((next =? start) && (min <=? length path)%nat) eqn:Hc.
    - apply andb_prop in Hc. destruct Hc as [Hns Hmin].
      apply String.eqb_eq in Hns. apply Nat.leb_le in Hmin.
      apply (emitCycle_sound path s s1); [|lia|exact Hs|exact Hemit].
      repeat split; try assumption.
      rewrite Hlast, Hhd, <- Hns. now apply Hedge.
    - injection Hemit as <-. now split. }
  destruct H1 as [Hs1 Hv1].
  destruct (set_has (visited s1) next) eqn:Hseen; cbn [negb] in Hstep.
  { injection Hstep as <-. split; [exact Hs1 | congruence]. }
  destruct (dfs localeCompare fuel e min max start next (path ++ [next])
              (withVisited s1 (set_add (visited s1) next))) as [s2| |] eqn:Hrec;
    cbn [bind] in Hstep; try discriminate.
  injection Hstep as <-.
  assert (Hfresh : ~ In next path).
  { intros Hp. apply set_has_false in Hseen. apply Hseen.
    rewrite Hv1, Hv. now apply Hvis. }
  destruct (IH next (path ++ [next])
              (withVisited s1 (set_add (visited s1) next)) s2) as [Hs2 Hv2];
    try exact Hrec.
  - now destruct path.
  - now rewrite hd_snoc.
  - apply last_last.
  - apply isPath_snoc; [exact Hne | exact Hpath |].
    rewrite Hlast. now apply Hedge.
  - apply NoDup_rev in Hnd. rewrite <- (rev_involutive (path ++ [next])).
    apply NoDup_rev. rewrite rev_app_distr. simpl. constructor; [|exact Hnd].
    now rewrite <- in_rev.
  - intros x Hx. simpl. apply set_add_In. apply in_app_or in Hx.
    destruct Hx as [Hx|[<-|[]]]; [left | now right].
    rewrite Hv1, Hv. now apply Hvis.
  - exact Hs1.
  - split; [exact Hs2|]. simpl. rewrite Hv2. simpl.
    rewrite set_delete_add by exact Hseen. congruence.
Qed.

(** Every sequence that [detectCycles] returns is a simple directed cycle
    of the graph with between [min] and [max] nodes. *)
Lemma detectCycles_sound cycles c :
  detectCycles localeCompare e min max = Returned cycles ->
  In c cycles ->
  simpleCycle e c /\ min <= length c <= max.
Proof.
  unfold detectCycles.
  destruct (foldM _ (map_keys (adjacency e)) _) as [st| |] eqn:Hfold;
    cbn [bind]; try discriminate.
  intros H. inversion H; subst; clear H.
  revert c.
  change (resultsOk e min max st).
  revert Hfold. apply (foldM_invariant (resultsOk e min max)); [|intros c []].
  intros s node s' _ Hs Hrun.
  assert (Hnd : NoDup [node]) by (constructor; [intros []|constructor]).
  assert (Hne : [node] <> []) by discriminate.
  exact (proj1 (dfs_sound node (S max) node [node] (withVisited s [node]) s'
                  Hne eq_refl eq_refl I Hnd (fun x Hx => Hx) Hs Hrun)).
Qed.

End CyclesSound.

(** ** Where the canonical key is invariant

    For ids without commas and a comparator that is a strict total order
    on strings, [canonicalize] gives one key to all rotations of a
    sequence and of its reversal. *)

Lemma rotationOf_refl l : rotationOf l l.
Proof. exists [], l. now rewrite app_nil_r. Qed.

Lemma rotationOf_sym l1 l2 : rotationOf l1 l2 -> rotationOf l2 l1.
Proof. intros [u [v [H1 H2]]]. now exists v, u. Qed.

Lemma rotationOf_trans l1 l2 l3 :
  rotationOf l1 l2 -> rotationOf l2 l3 -> rotationOf l1 l3.
Proof.
  intros [u [v [H1 H2]]] [u' [v' [H2' H3]]]. subst l1 l3.
  rewrite H2 in H2'. apply app_eq_app in H2'.
  destruct H2' as [w [[Hv Hv']|[Hu' Hu]]]; subst.
  - exists (u ++ u'), w. now rewrite <- !app_assoc.
  - exists w, (v' ++ v). now rewrite <- !app_assoc.
Qed.

Lemma rotationOf_rev l1 l2 : rotationOf l1 l2 -> rotationOf (rev l1) (rev l2).
Proof.
  intros [u [v [H1 H2]]]. subst. exists (rev v), (rev u).
  now rewrite !rev_app_distr.
Qed.

Lemma sameRing_sym l1 l2 : sameRing l1 l2 -> sameRing l2 l1.
Proof.
  intros [H|H].
  - left. now apply rotationOf_sym.
  - right. apply rotationOf_sym. apply rotationOf_rev in H.
    now rewrite rev_involutive in H.
Qed.

Lemma sameRing_trans l1 l2 l3 : sameRing l1 l2 -> sameRing l2 l3 -> sameRing l1 l3.
Proof.
  intros [H12|H12] [H23|H23].
  - left. eapply rotationOf_trans; eassumption.
  - right. eapply rotationOf_trans; [apply rotationOf_rev, H12 | exact H23].
  - right. eapply rotationOf_trans; eassumption.
  - left. apply rotationOf_rev in H12. rewrite rev_involutive in H12.
    eapply rotationOf_trans; eassumption.
Qed.

Lemma rotationOf_length l1 l2 : rotationOf l1 l2 -> length l2 = length l1.
Proof. intros [u [v [-> ->]]]. rewrite !length_app. lia. Qed.

Lemma rotationOf_In l1 l2 x : rotationOf l1 l2 -> In x l2 -> In x l1.
Proof.
  intros [u [v [-> ->]]] H. apply in_or_app. apply in_app_or in H. tauto.
Qed.

Lemma sameRing_length l1 l2 : sameRing l1 l2 -> length l2 = length l1.
Proof.
  intros [H|H]; apply rotationOf_length in H; [exact H|].
  now rewrite length_rev in H.
Qed.

Lemma sameRing_In l1 l2 x : sameRing l1 l2 -> In x l2 -> In x l1.
Proof.
  intros [H|H] Hx.
  - eapply rotationOf_In; eassumption.
  - apply in_rev. eapply rotationOf_In; eassumption.
Qed.

(** The list built by the first loop of [canonicalize] holds exactly the
    rotations. *)
Lemma rotationsOf_spec arr r :
  arr <> [] -> (In r (rotationsOf arr) <-> rotationOf arr r).
Proof.
  intros Hne. unfold rotationsOf. rewrite in_map_iff. split.
  - intros [i [<- _]]. exists (firstn i arr), (skipn i arr).
    split; [symmetry; apply firstn_skipn | reflexivity].
  - intros [u [v [Harr Hr]]]. destruct v as [|x v].
    + exists 0. rewrite app_nil_r in Harr. subst. simpl.
      split; [now rewrite app_nil_r|]. apply in_seq. destruct u; [congruence|simpl; lia].
    + exists (length u). subst. split.
      * rewrite skipn_app, firstn_app, Nat.sub_diag, skipn_all, firstn_all. simpl.
        now rewrite app_nil_r.
      * apply in_seq. rewrite length_app. simpl. lia.
Qed.

Lemma canonical_candidates_spec arr r :
  arr <> [] ->
  (In r (rotationsOf arr ++ rotationsOf (rev arr)) <-> sameRing arr r).
Proof.
  intros Hne. rewrite in_app_iff, !rotationsOf_spec; [reflexivity| |exact Hne].
  intros H. apply (f_equal (@rev _)) in H. rewrite rev_involutive in H. now subst.
Qed.

Lemma append_sep_inj sep x y s t :
  lacksChar sep x = true -> lacksChar sep y = true ->
  String.append x (String sep s) = String.append y (String sep t) ->
  x = y /\ s = t.
Proof.
  revert y. induction x as [|c x IH]; intros [|d y] Hx Hy H; simpl in *.
  - inversion H. now split.
  - inversion H; subst. rewrite Ascii.eqb_refl in Hy. discriminate.
  - inversion H; subst. rewrite Ascii.eqb_refl in Hx. discriminate.
  - inversion H; subst.
    apply andb_prop in Hx. apply andb_prop in Hy.
    destruct (IH y (proj2 Hx) (proj2 Hy) H2) as [-> ->]. now split.
Qed.

Lemma lacksChar_append sep x s : lacksChar sep (String.append x (String sep s)) = false.
Proof.
  induction x as [|c x IH]; simpl.
  - now rewrite Ascii.eqb_refl.
  - rewrite IH. apply andb_false_r.
Qed.

(** [join] with a one-character separator is injective on non-empty lists
    of strings that lack the separator. *)
Lemma join_sep_inj sep l1 :
  forall l2,
    l1 <> [] -> l2 <> [] ->
    (forall x, In x l1 -> lacksChar sep x = true) ->
    (forall x, In x l2 -> lacksChar sep x = true) ->
    join (String sep "") l1 = join (String sep "") l2 -> l1 = l2.
Proof.
  induction l1 as [|x l1 IH]; intros [|y l2] Hne1 Hne2 H1 H2 Hj; try congruence.
  destruct l1 as [|x' l1], l2 as [|y' l2].
  - simpl in Hj. now subst.
  - exfalso. change (x = String.append y (String sep (join (String sep "") (y' :: l2)))) in Hj.
    pose proof (H1 x (or_introl eq_refl)) as Hx.
    rewrite Hj, lacksChar_append in Hx. discriminate.
  - exfalso. change (String.append x (String sep (join (String sep "") (x' :: l1))) = y) in Hj.
    pose proof (H2 y (or_introl eq_refl)) as Hy.
    rewrite <- Hj, lacksChar_append in Hy. discriminate.
  - change (String.append x (String sep (join (String sep "") (x' :: l1))) =
            String.append y (String sep (join (String sep "") (y' :: l2)))) in Hj.
    apply append_sep_inj in Hj;
      [|apply H1; now left | apply H2; now left].
    destruct Hj as [-> Hj]. f_equal.
    apply IH; [discriminate | discriminate | | | exact Hj];
      intros z Hz; [apply H1 | apply H2]; now right.
Qed.

Section SortedHead.

Context {A : Type} (gt : A -> A -> bool).
Hypothesis gt_asym : forall x y, gt x y = true -> gt y x = false.
Hypothesis le_trans : forall x y z, gt x y = false -> gt y z = false -> gt x z = false.

Lemma insert_sorted_headMin x l : headMin gt l -> headMin gt (insert_sorted gt x l).
Proof.
  destruct l as [|h t]; simpl; [intros _ y []|].
  intros Hmin. destruct (gt h x) eqn:E; simpl.
  - intros y [<-|Hy]; [now apply gt_asym|].
    apply (le_trans x h y); [now apply gt_asym | now apply Hmin].
  - intros y Hy.
    apply (Permutation_in _ (Permutation_sym (insert_sorted_perm gt x t))) in Hy.
    destruct Hy as [<-|Hy]; [exact E | now apply Hmin].
Qed.

(** The first element of the sorted array is below every element. *)
Lemma jsSort_head_min l h t :
  jsSort gt l = h :: t -> In h l /\ forall y, In y l -> gt h y = false.
Proof.
  intros Hsort.
  assert (Hmin : headMin gt (jsSort gt l)).
  { unfold jsSort. apply (fold_left_invariant (headMin gt)); [|exact I].
    intros s x _. apply insert_sorted_headMin. }
  rewrite Hsort in Hmin. simpl in Hmin. split.
  - apply (jsSort_In gt). rewrite Hsort. now left.
  - intros y Hy. apply (jsSort_In gt) in Hy. rewrite Hsort in Hy.
    destruct Hy as [<-|Hy]; [|now apply Hmin].
    destruct (gt h h) eqn:E; [|reflexivity]. now rewrite (gt_asym h h E) in E.
Qed.

End SortedHead.

Section CanonicalKey.

Variable localeCompare : string -> string -> comparison.
Hypothesis cmp_eq : forall x y, localeCompare x y = Eq -> x = y.
Hypothesis cmp_antisym : forall x y, localeCompare x y = CompOpp (localeCompare y x).
Hypothesis cmp_trans :
  forall x y z, localeCompare x y = Lt -> localeCompare y z = Lt -> localeCompare x z = Lt.

Lemma rotationGt_asym a b :
  rotationGt localeCompare a b = true -> rotationGt localeCompare b a = false.
Proof.
  unfold rotationGt. rewrite (cmp_antisym (join "," b) (join "," a)).
  destruct (localeCompare (join "," a) (join "," b)); simpl; congruence.
Qed.

Lemma rotationLe_trans a b c :
  rotationGt localeCompare a b = false -> rotationGt localeCompare b c = false ->
  rotationGt localeCompare a c = false.
Proof.
  unfold rotationGt. intros Hab Hbc.
  destruct (localeCompare (join "," a) (join "," b)) eqn:Eab; try discriminate;
    destruct (localeCompare (join "," b) (join "," c)) eqn:Ebc; try discriminate.
  - apply cmp_eq in Eab. rewrite Eab, Ebc. reflexivity.
  - apply cmp_eq in Eab. rewrite Eab, Ebc. reflexivity.
  - apply cmp_eq in Ebc. rewrite <- Ebc, Eab. reflexivity.
  - now rewrite (cmp_trans _ _ _ Eab Ebc).
Qed.

(** The key is the bar-joined least candidate. *)
Lemma canonicalize_least arr key :
  arr <> [] ->
  canonicalize localeCompare arr = Returned key ->
  exists r,
    key = join "|" r /\ sameRing arr r /\
    forall y, sameRing arr y -> rotationGt localeCompare r y = false.
Proof.
  intros Hne. unfold canonicalize.
  destruct (jsSort (rotationGt localeCompare) (rotationsOf arr ++ rotationsOf (rev arr)))
    as [|r t] eqn:Hsort; [discriminate|].
  intros H. injection H as <-.
  destruct (jsSort_head_min (rotationGt localeCompare) rotationGt_asym rotationLe_trans
              _ r t Hsort) as [Hin Hmin].
  exists r. split; [reflexivity|]. split.
  - now apply canonical_candidates_spec.
  - intros y Hy. apply Hmin. now apply canonical_candidates_spec.
Qed.

(** Restricted form of C5: without commas in the ids and with a strict
    total order as comparator, every rotation of a sequence and of its
    reversal has the key of the sequence. *)
Theorem canonicalize_invariant arr arr' :
  arr <> [] ->
  (forall x, In x arr -> noComma x = true) ->
  sameRing arr arr' ->
  canonicalize localeCompare arr' = canonicalize localeCompare arr.
Proof.
  intros Hne Hcomma Hsame.
  assert (Hne' : arr' <> []).
  { intros ->. apply sameRing_length in Hsame. destruct arr; [congruence|discriminate]. }
  destruct (canonicalize_total localeCompare arr Hne) as [k Hk].
  destruct (canonicalize_total localeCompare arr' Hne') as [k' Hk'].
  rewrite Hk, Hk'. f_equal.
  destruct (canonicalize_least arr k Hne Hk) as [r [-> [Hr Hmin]]].
  destruct (canonicalize_least arr' k' Hne' Hk') as [r' [-> [Hr' Hmin']]].
  assert (Hr'arr : sameRing arr r') by exact (sameRing_trans _ _ _ Hsame Hr').
  assert (Hrarr' : sameRing arr' r)
    by exact (sameRing_trans _ _ _ (sameRing_sym _ _ Hsame) Hr).
  specialize (Hmin r' Hr'arr). specialize (Hmin' r Hrarr').
  f_equal. apply (join_sep_inj ","%char).
  - intros ->. apply sameRing_length in Hr'arr. destruct arr; [congruence|discriminate].
  - intros ->. apply sameRing_length in Hr. destruct arr; [congruence|discriminate].
  - intros x Hx. apply Hcomma. exact (sameRing_In _ _ _ Hr'arr Hx).
  - intros x Hx. apply Hcomma. exact (sameRing_In _ _ _ Hr Hx).
  - unfold rotationGt in Hmin, Hmin'.
    rewrite (cmp_antisym (join "," r) (join "," r')) in Hmin.
    destruct (localeCompare (join "," r') (join "," r)) eqn:E; try discriminate.
    now apply cmp_eq.
Qed.

End CanonicalKey.

(** ** Every cycle of 3 to 5 nodes is found *)

Lemma foldM_eventually {A S} (Inv Q : S -> Prop) (f : S -> A -> result S)
    (l : list A) (x : A) :
  (forall s y s', In y l -> Inv s -> f s y = Returned s' -> Inv s') ->
  (forall s y s', In y l -> Inv s -> Q s -> f s y = Returned s' -> Q s') ->
  In x l ->
  (forall s s', Inv s -> f s x = Returned s' -> Q s') ->
  forall s s', Inv s -> foldM f l s = Returned s' -> Q s'.
Proof.
  intros HInv HQ Hx Hreach.
  assert (Hkeep : forall l' s s',
             incl l' l -> Inv s -> Q s -> foldM f l' s = Returned s' -> Q s').
  { induction l' as [|y l' IH]; intros s s' Hincl Hs Hq Hrun; simpl in Hrun.
    - now injection Hrun as <-.
    - destruct (f s y) as [s1| |] eqn:Hf; cbn [bind] in Hrun; try discriminate.
      assert (Hy : In y l) by (apply Hincl; now left).
      apply (IH s1 s');
        [|exact (HInv s y s1 Hy Hs Hf)|exact (HQ s y s1 Hy Hs Hq Hf)|exact Hrun].
      intros z Hz. apply Hincl. now right. }
  assert (Hgo : forall l' s s',
             incl l' l -> In x l' -> Inv s -> foldM f l' s = Returned s' -> Q s').
  { induction l' as [|y l' IH]; intros s s' Hincl Hin Hs Hrun; [destruct Hin|].
    simpl in Hrun.
    destruct (f s y) as [s1| |] eqn:Hf; cbn [bind] in Hrun; try discriminate.
    assert (Hy : In y l) by (apply Hincl; now left).
    assert (Hincl' : incl l' l) by (intros z Hz; apply Hincl; now right).
    assert (Hs1 : Inv s1) by exact (HInv s y s1 Hy Hs Hf).
    destruct Hin as [->|Hin].
    - apply (Hkeep l' s1 s'); [exact Hincl' | exact Hs1 | | exact Hrun].
      exact (Hreach s s1 Hs Hf).
    - apply (IH s1 s'); assumption. }
  intros s s'. apply Hgo; [apply incl_refl | exact Hx].
Qed.

Lemma isPath_edge e l1 x y l2 : isPath e (l1 ++ x :: y :: l2) -> hasEdge e x y.
Proof.
  induction l1 as [|a l1 IH]; intros H.
  - simpl in H. tauto.
  - destruct l1 as [|b l1]; simpl in H; [tauto|].
    apply IH. simpl. tauto.
Qed.

Lemma hasEdge_key e x y : hasEdge e x y -> exists ns, map_get (adjacency e) x = Some ns /\ In y ns.
Proof.
  unfold hasEdge, neighborsOf. destruct (map_get (adjacency e) x) as [ns|]; [|intros []].
  intros H. now exists ns.
Qed.

Lemma simpleCycle_nodes_have_edges e c x :
  simpleCycle e c -> In x c -> exists y, hasEdge e x y.
Proof.
  intros [Hne [_ [Hpath Hclose]]] Hx.
  apply in_split in Hx. destruct Hx as [l1 [l2 Hc]]. subst c.
  destruct l2 as [|y l2].
  - exists (hd "" (l1 ++ [x])). now rewrite last_last in Hclose.
  - exists y. now apply isPath_edge in Hpath.
Qed.

Lemma simpleCycle_nodes_are_keys e c x :
  simpleCycle e c -> In x c -> In x (map_keys (adjacency e)).
Proof.
  intros Hc Hx. destruct (simpleCycle_nodes_have_edges e c x Hc Hx) as [y Hy].
  destruct (hasEdge_key e x y Hy) as [ns [Hget _]].
  apply map_get_In in Hget. unfold map_keys. apply in_map_iff. now exists (x, ns).
Qed.

Section CyclesComplete.

Variable localeCompare : string -> string -> comparison.
Variable e : Engine.
Variables min max : nat.

Lemma frame_refl st : frame localeCompare st st.
Proof. now split. Qed.

Lemma frame_trans a b c : frame localeCompare a b -> frame localeCompare b c -> frame localeCompare a c.
Proof. intros [H1 H2] [H3 H4]. split; auto. Qed.

Lemma emitCycle_frame path st st' :
  emitCycle localeCompare path st = Returned st' ->
  visited st' = visited st /\ frame localeCompare st st' /\
  forall key, canonicalize localeCompare path = Returned key -> In key (emitted st').
Proof.
  unfold emitCycle.
  destruct (canonicalize localeCompare path) as [key| |] eqn:Hkey; cbn [bind];
    try discriminate.
  destruct (set_has (emitted st) key) eqn:Hhas; cbn [negb]; intros H;
    injection H as <-.
  - split; [reflexivity|]. split; [apply frame_refl|].
    intros k Hk. injection Hk as <-. now apply set_has_In.
  - split; [reflexivity|]. split; [split|]; simpl.
    + intros k Hk. apply set_add_In. now left.
    + intros [Hf Hnd]. split; simpl.
      * unfold set_add. rewrite Hhas. apply Forall2_app; [exact Hf|].
        constructor; [exact Hkey | constructor].
      * now apply set_add_NoDup.
    + intros k Hk. injection Hk as <-. apply set_add_In. now right.
Qed.

(** A call of [dfs] restores [visited] and only adds to the emitted keys. *)
Lemma dfs_frame start :
  forall fuel current path st st',
    dfs localeCompare fuel e min max start current path st = Returned st' ->
    visited st' = visited st /\ frame localeCompare st st'.
Proof.
  induction fuel as [|fuel IH]; intros current path st st' Hrun; [discriminate|].
  simpl in Hrun.
  destruct (max <? length path)%nat.
  { injection Hrun as <-. split; [reflexivity | apply frame_refl]. }
  destruct (map_get (adjacency e) current) as [neighbors|].
  2:{ injection Hrun as <-. split; [reflexivity | apply frame_refl]. }
  revert Hrun.
  apply (foldM_invariant (fun s => visited s = visited st /\ frame localeCompare st s));
    [|split; [reflexivity | apply frame_refl]].
  intros s next s' _ [Hv Hf] Hstep.
  destruct (if (next =? start) && (min <=? length path)%nat
            then emitCycle localeCompare path s else Returned s)
    as [s1| |] eqn:Hemit; cbn [bind] in Hstep; try discriminate.
  assert (H1 : visited s1 = visited s /\ frame localeCompare s s1).
  { destruct ((next =? start) && (min <=? length path)%nat).
    - destruct (emitCycle_frame path s s1 Hemit) as [? [? _]]. now split.
    - injection Hemit as <-. split; [reflexivity | apply frame_refl]. }
  destruct H1 as [Hv1 Hf1].
  destruct (set_has (visited s1) next) eqn:Hseen; cbn [negb] in Hstep.
  { injection Hstep as <-. split; [congruence | eapply frame_trans; eassumption]. }
  destruct (dfs localeCompare fuel e min max start next (path ++ [next])
              (withVisited s1 (set_add (visited s1) next))) as [s2| |] eqn:Hrec;
    cbn [bind] in Hstep; try discriminate.
  injection Hstep as <-.
  destruct (IH _ _ _ _ Hrec) as [Hv2 Hf2]. simpl in Hv2.
  split.
  - simpl. rewrite Hv2, set_delete_add by exact Hseen. congruence.
  - apply (frame_trans st s1); [eapply frame_trans; eassumption|].
    destruct Hf2 as [Hm Hk]. split; [exact Hm | exact Hk].
Qed.

Variable c : list string.
Variable key : string.
Hypothesis c_cycle : simpleCycle e c.
Hypothesis c_size : min <= length c <= max.
Hypothesis c_key : canonicalize localeCompare c = Returned key.

(** Along the cycle [c = p ++ q]: a call of [dfs] on the prefix [p]
    records the key of [c]. *)
Lemma dfs_reaches :
  forall q p fuel st st',
    c = p ++ q -> p <> [] ->
    (forall x, In x (visited st) -> In x p) ->
    dfs localeCompare fuel e min max (hd "" c) (last p "") p st = Returned st' ->
    In key (emitted st').
Proof.
  destruct c_cycle as [Hcne [Hnd [Hpath Hclose]]].
  induction q as [|x q IH]; intros p fuel st st' Hc Hne Hvis Hrun;
    (destruct fuel as [|fuel]; [discriminate|]); simpl in Hrun.
  - rewrite app_nil_r in Hc. subst p.
    destruct (max <? length c)%nat eqn:Hmax; [apply Nat.ltb_lt in Hmax; lia|].
    destruct (hasEdge_key e _ _ Hclose) as [ns [Hget Hin]]. rewrite Hget in Hrun.
    revert Hrun.
    apply (foldM_eventually (fun s => visited s = visited st)
             (fun s => In key (emitted s)) _ ns (hd "" c)); [| |exact Hin| |reflexivity].
    + intros s y s' _ Hv Hstep.
      destruct (if (y =? hd "" c) && (min <=? length c)%nat
                then emitCycle localeCompare c s else Returned s)
        as [s1| |] eqn:Hemit; cbn [bind] in Hstep; try discriminate.
      assert (Hv1 : visited s1 = visited s).
      { destruct ((y =? hd "" c) && (min <=? length c)%nat).
        - now destruct (emitCycle_frame c s s1 Hemit).
        - now injection Hemit as <-. }
      destruct (set_has (visited s1) y) eqn:Hseen; cbn [negb] in Hstep.
      { injection Hstep as <-. congruence. }
      destruct (dfs localeCompare fuel e min max (hd "" c) y (c ++ [y])
                  (withVisited s1 (set_add (visited s1) y))) as [s2| |] eqn:Hrec;
        cbn [bind] in Hstep; try discriminate.
      injection Hstep as <-. destruct (dfs_frame _ _ _ _ _ _ Hrec) as [Hv2 _].
      simpl in *. rewrite Hv2, set_delete_add by exact Hseen. congruence.
    + intros s y s' _ _ Hq Hstep.
      destruct (if (y =? hd "" c) && (min <=? length c)%nat
                then emitCycle localeCompare c s else Returned s)
        as [s1| |] eqn:Hemit; cbn [bind] in Hstep; try discriminate.
      assert (Hq1 : In key (emitted s1)).
      { destruct ((y =? hd "" c) && (min <=? length c)%nat).
        - destruct (emitCycle_frame c s s1 Hemit) as [_ [[Hm _] _]]. now apply Hm.
        - now injection Hemit as <-. }
      destruct (set_has (visited s1) y); cbn [negb] in Hstep.
      { now injection Hstep as <-. }
      destruct (dfs localeCompare fuel e min max (hd "" c) y (c ++ [y])
                  (withVisited s1 (set_add (visited s1) y))) as [s2| |] eqn:Hrec;
        cbn [bind] in Hstep; try discriminate.
      injection Hstep as <-. destruct (dfs_frame _ _ _ _ _ _ Hrec) as [_ [Hm _]].
      simpl. now apply Hm.
    + intros s s' _ Hstep.
      rewrite String.eqb_refl in Hstep.
      assert (Hmin : (min <=? length c)%nat = true) by (apply Nat.leb_le; lia).
      rewrite Hmin in Hstep. cbn [andb] in Hstep.
      destruct (emitCycle localeCompare c s) as [s1| |] eqn:Hemit;
        cbn [bind] in Hstep; try discriminate.
      destruct (emitCycle_frame c s s1 Hemit) as [_ [_ Hk]].
      specialize (Hk key c_key).
      destruct (set_has (visited s1) (hd "" c)); cbn [negb] in Hstep.
      { now injection Hstep as <-. }
      destruct (dfs localeCompare fuel e min max (hd "" c) (hd "" c) (c ++ [hd "" c])
                  (withVisited s1 (set_add (visited s1) (hd "" c)))) as [s2| |] eqn:Hrec;
        cbn [bind] in Hstep; try discriminate.
      injection Hstep as <-. destruct (dfs_frame _ _ _ _ _ _ Hrec) as [_ [Hm _]].
      simpl. now apply Hm.
  - assert (Hlen : length p < length c).
    { rewrite Hc, length_app. simpl. lia. }
    destruct (max <? length p)%nat eqn:Hmax; [apply Nat.ltb_lt in Hmax; lia|].
    assert (Hedge : hasEdge e (last p "") x).
    { destruct (exists_last Hne) as [p0 [a Hp]]. subst p.
      rewrite last_last. rewrite Hc, <- app_assoc in Hpath. simpl in Hpath.
      now apply isPath_edge in Hpath. }
    destruct (hasEdge_key e _ _ Hedge) as [ns [Hget Hin]]. rewrite Hget in Hrun.
    assert (Hfresh : ~ In x p).
    { rewrite Hc in Hnd. apply NoDup_remove_2 in Hnd.
      intros Hx. apply Hnd. apply in_or_app. now left. }
    revert Hrun.
    apply (foldM_eventually (fun s => visited s = visited st)
             (fun s => In key (emitted s)) _ ns x); [| |exact Hin| |reflexivity].
    + intros s y s' _ Hv Hstep.
      destruct (if (y =? hd "" c) && (min <=? length p)%nat
                then emitCycle localeCompare p s else Returned s)
        as [s1| |] eqn:Hemit; cbn [bind] in Hstep; try discriminate.
      assert (Hv1 : visited s1 = visited s).
      { destruct ((y =? hd "" c) && (min <=? length p)%nat).
        - now destruct (emitCycle_frame p s s1 Hemit).
        - now injection Hemit as <-. }
      destruct (set_has (visited s1) y) eqn:Hseen; cbn [negb] in Hstep.
      { injection Hstep as <-. congruence. }
      destruct (dfs localeCompare fuel e min max (hd "" c) y (p ++ [y])
                  (withVisited s1 (set_add (visited s1) y))) as [s2| |] eqn:Hrec;
        cbn [bind] in Hstep; try discriminate.
      injection Hstep as <-. destruct (dfs_frame _ _ _ _ _ _ Hrec) as [Hv2 _].
      simpl in *. rewrite Hv2, set_delete_add by exact Hseen. congruence.
    + intros s y s' _ _ Hq Hstep.
      destruct (if (y =? hd "" c) && (min <=? length p)%nat
                then emitCycle localeCompare p s else Returned s)
        as [s1| |] eqn:Hemit; cbn [bind] in Hstep; try discriminate.
      assert (Hq1 : In key (emitted s1)).
      { destruct ((y =? hd "" c) && (min <=? length p)%nat).
        - destruct (emitCycle_frame p s s1 Hemit) as [_ [[Hm _] _]]. now apply Hm.
        - now injection Hemit as <-. }
      destruct (set_has (visited s1) y); cbn [negb] in Hstep.
      { now injection Hstep as <-. }
      destruct (dfs localeCompare fuel e min max (hd "" c) y (p ++ [y])
                  (withVisited s1 (set_add (visited s1) y))) as [s2| |] eqn:Hrec;
        cbn [bind] in Hstep; try discriminate.
      injection Hstep as <-. destruct (dfs_frame _ _ _ _ _ _ Hrec) as [_ [Hm _]].
      simpl. now apply Hm.
    + intros s s' Hv Hstep.
      destruct (if (x =? hd "" c) && (min <=? length p)%nat
                then emitCycle localeCompare p s else Returned s)
        as [s1| |] eqn:Hemit; cbn [bind] in Hstep; try discriminate.
      assert (Hv1 : visited s1 = visited s).
      { destruct ((x =? hd "" c) && (min <=? length p)%nat).
        - now destruct (emitCycle_frame p s s1 Hemit).
        - now injection Hemit as <-. }
      assert (Hseen : set_has (visited s1) x = false).
      { apply set_has_false. intros Hx. apply Hfresh, Hvis. congruence. }
      rewrite Hseen in Hstep. cbn [negb] in Hstep.
      destruct (dfs localeCompare fuel e min max (hd "" c) x (p ++ [x])
                  (withVisited s1 (set_add (visited s1) x))) as [s2| |] eqn:Hrec;
        cbn [bind] in Hstep; try discriminate.
      injection Hstep as <-. simpl.
      apply (IH (p ++ [x]) fuel (withVisited s1 (set_add (visited s1) x)) s2).
      * now rewrite <- app_assoc.
      * now destruct p.
      * intros z Hz. simpl in Hz. apply set_add_In in Hz. apply in_or_app.
        destruct Hz as [Hz| ->]; [left | right; now left].
        apply Hvis. congruence.
      * now rewrite last_last.
Qed.

End CyclesComplete.

Lemma Forall2_key_of {K P} (R : K -> P -> Prop) ks ps p :
  Forall2 R ks ps -> In p ps -> exists k, In k ks /\ R k p.
Proof.
  induction 1 as [|k0 p0 ks ps HR _ IH]; intros Hin; [destruct Hin|].
  destruct Hin as [<-|Hin].
  - exists k0. split; [now left | exact HR].
  - destruct (IH Hin) as [k [Hk HRk]]. exists k. split; [now right | exact HRk].
Qed.

Lemma Forall2_value_of {K P} (R : K -> P -> Prop) ks ps k :
  Forall2 R ks ps -> In k ks -> exists p, In p ps /\ R k p.
Proof.
  induction 1 as [|k0 p0 ks ps HR _ IH]; intros Hin; [destruct Hin|].
  destruct Hin as [<-|Hin].
  - exists p0. split; [now left | exact HR].
  - destruct (IH Hin) as [p [Hp HRp]]. exists p. split; [now right | exact HRp].
Qed.

(** Two recorded cycles with the same key are the same record. *)
Lemma keysOk_unique cmp st c1 c2 k :
  keysOk cmp st ->
  In c1 (results st) -> In c2 (results st) ->
  canonicalize cmp c1 = Returned k -> canonicalize cmp c2 = Returned k ->
  c1 = c2.
Proof.
  intros [Hf Hnd]. revert Hnd.
  induction Hf as [|k0 p0 ks ps HR Hf IH]; intros Hnd H1 H2 Hk1 Hk2; [destruct H1|].
  inversion Hnd as [|? ? Hnotin Hnd']; subst.
  assert (Hkey : forall p, In p ps -> canonicalize cmp p = Returned k0 -> False).
  { intros p Hp Hkp. destruct (Forall2_key_of _ _ _ p Hf Hp) as [k' [Hk' HR']].
    rewrite Hkp in HR'. injection HR' as <-. contradiction. }
  destruct H1 as [<-|H1], H2 as [<-|H2].
  - reflexivity.
  - exfalso. rewrite HR in Hk1. injection Hk1 as <-. now apply (Hkey c2).
  - exfalso. rewrite HR in Hk2. injection Hk2 as <-. now apply (Hkey c1).
  - now apply IH.
Qed.

Section CyclesExactlyOnce.

Variable localeCompare : string -> string -> comparison.
Hypothesis cmp_eq : forall x y, localeCompare x y = Eq -> x = y.
Hypothesis cmp_antisym : forall x y, localeCompare x y = CompOpp (localeCompare y x).
Hypothesis cmp_trans :
  forall x y z, localeCompare x y = Lt -> localeCompare y z = Lt -> localeCompare x z = Lt.

Variable e : Engine.
Variables min max : nat.
Hypothesis ids_plain :
  forall k, In k (map_keys (adjacency e)) -> noComma k = true /\ noBar k = true.

Lemma detectCycles_final_state cycles :
  detectCycles localeCompare e min max = Returned cycles ->
  exists st,
    results st = cycles /\ keysOk localeCompare st /\
    forall c key,
      simpleCycle e c -> min <= length c <= max ->
      canonicalize localeCompare c = Returned key ->
      In key (emitted st).
Proof.
  unfold detectCycles.
  destruct (foldM _ (map_keys (adjacency e)) _) as [st| |] eqn:Hfold;
    cbn [bind]; try discriminate.
  intros H. injection H as <-. exists st. split; [reflexivity|]. split.
  - revert Hfold. apply (foldM_invariant (keysOk localeCompare)).
    + intros s node s' _ Hs Hrun.
      destruct (dfs_frame localeCompare e min max _ _ _ _ _ _ Hrun) as [_ [_ Hk]].
      apply Hk. exact Hs.
    + split; constructor.
  - intros c key Hc Hsize Hkey. revert Hfold.
    assert (Hne : c <> []) by apply Hc.
    assert (Hhd : In (hd "" c) (map_keys (adjacency e))).
    { apply (simpleCycle_nodes_are_keys e c); [exact Hc|].
      destruct c; [congruence | now left]. }
    apply (foldM_eventually (fun _ => True) (fun s => In key (emitted s))
             _ _ (hd "" c)); [ | | exact Hhd | | exact I].
    + intros; exact I.
    + intros s node s' _ _ Hq Hrun.
      destruct (dfs_frame localeCompare e min max _ _ _ _ _ _ Hrun) as [_ [Hm _]].
      now apply Hm.
    + intros s s' _ Hrun.
      apply (dfs_reaches localeCompare e min max c key Hc Hsize Hkey
               (tl c) [hd "" c] (S max) (withVisited s [hd "" c]) s').
      * destruct c; [congruence | reflexivity].
      * discriminate.
      * intros x Hx. exact Hx.
      * exact Hrun.
Qed.

(** X28. When no account id of the graph contains a comma or a bar and
    the comparator is a strict total order, every simple
    directed cycle with [min .. max] nodes is represented by exactly one
    returned sequence: one element of the result names the same ring (a
    rotation of the cycle or of its reversal), and no other element does. *)
Theorem detectCycles_exactly_once c cycles :
  simpleCycle e c -> min <= length c <= max ->
  detectCycles localeCompare e min max = Returned cycles ->
  exists c',
    In c' cycles /\ sameRing c c' /\
    forall c'', In c'' cycles -> sameRing c c'' -> c'' = c'.
Proof.
  intros Hc Hsize Hrun.
  assert (Hne : c <> []) by apply Hc.
  assert (Hplain : forall x, In x c -> noComma x = true /\ noBar x = true).
  { intros x Hx. apply ids_plain. now apply (simpleCycle_nodes_are_keys e c). }
  destruct (canonicalize_total localeCompare c Hne) as [key Hkey].
  destruct (detectCycles_final_state cycles Hrun) as [st [<- [Hok Hall]]].
  pose proof (Hall c key Hc Hsize Hkey) as Hin.
  destruct (Forall2_value_of _ _ _ key (proj1 Hok) Hin) as [c' [Hc' Hkey']].
  exists c'. split; [exact Hc'|].
  destruct (detectCycles_sound localeCompare e min max (results st) c' Hrun Hc')
    as [Hcyc' _].
  assert (Hne' : c' <> []) by apply Hcyc'.
  split.
  - destruct (canonicalize_least localeCompare cmp_eq cmp_antisym cmp_trans c key Hne Hkey)
      as [r [Hr [Hsame _]]].
    destruct (canonicalize_least localeCompare cmp_eq cmp_antisym cmp_trans c' key Hne' Hkey')
      as [r' [Hr' [Hsame' _]]].
    assert (Heq : r = r').
    { apply (join_sep_inj "|"%char).
      - intros ->. apply sameRing_length in Hsame. destruct c; [congruence|discriminate].
      - intros ->. apply sameRing_length in Hsame'. destruct c'; [congruence|discriminate].
      - intros x Hx. apply Hplain. exact (sameRing_In _ _ _ Hsame Hx).
      - intros x Hx. apply ids_plain. apply (simpleCycle_nodes_are_keys e c' x Hcyc').
        exact (sameRing_In _ _ _ Hsame' Hx).
      - change (join "|" r = join "|" r'). congruence. }
    subst r'. exact (sameRing_trans _ _ _ Hsame (sameRing_sym _ _ Hsame')).
  - intros c'' Hc'' Hsame''.
    assert (Hkey'' : canonicalize localeCompare c'' = Returned key).
    { rewrite (canonicalize_invariant localeCompare cmp_eq cmp_antisym cmp_trans c c'' Hne);
        [exact Hkey | | exact Hsame''].
      intros x Hx. now apply Hplain. }
    exact (keysOk_unique localeCompare st c'' c' key Hok Hc'' Hc' Hkey'' Hkey').
Qed.

End CyclesExactlyOnce.

(** The code-unit order of [String.compare] is a strict total order, so
    the two restricted results apply to it. *)
Lemma String_compare_trans x y z :
  String.compare x y = Lt -> String.compare y z = Lt -> String.compare x z = Lt.
Proof.
  revert y z. induction x as [|a x IH]; intros [|b y] [|c z] Hxy Hyz;
    simpl in *; try congruence.
  destruct (Ascii.compare a b) eqn:Eab; try discriminate;
    destruct (Ascii.compare b c) eqn:Ebc; try discriminate.
  - apply Ascii.compare_eq_iff in Eab, Ebc. subst.
    assert (Hcc : Ascii.compare c c = Eq) by (unfold Ascii.compare; apply N.compare_refl).
    rewrite Hcc. eapply IH; eassumption.
  - apply Ascii.compare_eq_iff in Eab. subst. now rewrite Ebc.
  - apply Ascii.compare_eq_iff in Ebc. subst. now rewrite Eab.
  - unfold Ascii.compare in *. apply N.compare_lt_iff in Eab, Ebc.
    assert (Hac : (N_of_ascii a ?= N_of_ascii c)%N = Lt).
    { apply N.compare_lt_iff. eapply N.lt_trans; eassumption. }
    now rewrite Hac.
Qed.

Lemma canonicalize_invariant_code_units arr arr' :
  arr <> [] ->
  (forall x, In x arr -> noComma x = true) ->
  sameRing arr arr' ->
  canonicalize String.compare arr' = canonicalize String.compare arr.
Proof.
  apply (canonicalize_invariant String.compare
           String.compare_eq_iff String.compare_antisym String_compare_trans).
Qed.

(** ** The rings of one analysis, by detector *)

Lemma registerCandidates_rings e p cs reg :
  map ringTag (fraudRings (fold_left (registerCandidate e p) cs reg)) =
  map ringTag (fraudRings reg) ++ map (fun c => (p, accounts c)) cs.
Proof.
  revert reg. induction cs as [|c cs IH]; intros reg; simpl.
  - now rewrite app_nil_r.
  - rewrite IH. unfold registerCandidate, addRing. cbn [fraudRings].
    rewrite map_app, <- app_assoc. reflexivity.
Qed.

Lemma registerCycles_rings e cycles st :
  map ringTag (fraudRings (fst (fold_left (registerCycle e) cycles st))) =
  map ringTag (fraudRings (fst st)) ++ map (fun c => (cycle, c)) cycles.
Proof.
  revert st. induction cycles as [|c cycles IH]; intros st; simpl.
  - now rewrite app_nil_r.
  - rewrite IH. unfold registerCycle, addRing. cbn [fst fraudRings].
    rewrite map_app, <- app_assoc. reflexivity.
Qed.

Lemma registerCycles_members e cycles st x :
  In x (snd (fold_left (registerCycle e) cycles st)) <->
  In x (snd st) \/ exists c, In c cycles /\ In x c.
Proof.
  revert st. induction cycles as [|c cycles IH]; intros st; simpl.
  - split; [now left | intros [H|[c [[] _]]]; exact H].
  - rewrite IH. simpl. rewrite fold_set_add_In. split.
    + intros [[H|H]|[c' [Hc' Hx]]].
      * now left.
      * right. exists c. split; [now left | exact H].
      * right. exists c'. split; [now right | exact Hx].
    + intros [H|[c' [[<-|Hc'] Hx]]].
      * left. now left.
      * left. now right.
      * right. now exists c'.
Qed.

Section RingsOfAnalysis.

Variable localeCompare : string -> string -> comparison.

(** The rings of the result are those of the cycle detector, then those
    of the smurfing detector, then those of the shell detector run with the
    members of all cycles as exclusion set. *)
Lemma analyze_rings e r :
  analyze localeCompare e = Returned r ->
  exists cycles smurfs cycleAccounts,
    detectCycles localeCompare e 3 5 = Returned cycles /\
    detectSmurfing e = Returned smurfs /\
    (forall x, In x cycleAccounts <-> exists c, In c cycles /\ In x c) /\
    map ringTag (fraud_rings r) =
      map (fun c => (cycle, c)) cycles ++
      map (fun c => (smurfing, accounts c)) smurfs ++
      map (fun c => (shell, accounts c)) (detectShell e cycleAccounts).
Proof.
  unfold analyze. intros H.
  destruct (detectCycles localeCompare e 3 5) as [cycles| |]; cbn [bind] in H;
    try discriminate.
  destruct (detectSmurfing e) as [smurfs| |]; cbn [bind] in H; try discriminate.
  injection H as <-.
  exists cycles, smurfs, (snd (fold_left (registerCycle e) cycles (emptyRegistry, []))).
  split; [reflexivity|]. split; [reflexivity|]. split.
  - intros x. rewrite registerCycles_members. simpl. tauto.
  - cbn [fraud_rings].
    rewrite !registerCandidates_rings, registerCycles_rings. simpl.
    now rewrite <- app_assoc.
Qed.

(** X30. The first three nodes of every shell ring of the result lie on
    no cycle ring of the same analysis. *)
Theorem shell_ring_first_three_off_cycles e r sh :
  analyze localeCompare e = Returned r ->
  In sh (fraud_rings r) -> pattern_type sh = shell ->
  exists a b c d,
    member_accounts sh = [a; b; c; d] /\
    forall cy, In cy (fraud_rings r) -> pattern_type cy = cycle ->
               ~ In a (member_accounts cy) /\
               ~ In b (member_accounts cy) /\
               ~ In c (member_accounts cy).
Proof.
  intros Hrun Hsh Hp.
  destruct (analyze_rings e r Hrun) as [cycles [smurfs [cyc [_ [_ [Hcyc Htags]]]]]].
  assert (Htag : forall ring, In ring (fraud_rings r) ->
                              In (pattern_type ring, member_accounts ring)
                                 (map ringTag (fraud_rings r))).
  { intros ring Hin. apply in_map_iff. now exists ring. }
  pose proof (Htag sh Hsh) as Hin. rewrite Htags, Hp in Hin.
  apply in_app_or in Hin. destruct Hin as [Hin|Hin].
  { apply in_map_iff in Hin. destruct Hin as [? [Heq _]]. discriminate. }
  apply in_app_or in Hin. destruct Hin as [Hin|Hin].
  { apply in_map_iff in Hin. destruct Hin as [? [Heq _]]. discriminate. }
  apply in_map_iff in Hin. destruct Hin as [cand [Heq Hcand]].
  injection Heq as Hacc.
  destruct (detectShell_excludes_first_three e cyc cand Hcand)
    as [a [b [c [d [Habcd [Ha [Hb Hc]]]]]]].
  exists a, b, c, d. split; [congruence|].
  intros cy Hcy Hpc.
  pose proof (Htag cy Hcy) as Hin. rewrite Htags, Hpc in Hin.
  assert (Hmem : In (member_accounts cy) cycles).
  { apply in_app_or in Hin. destruct Hin as [Hin|Hin].
    - apply in_map_iff in Hin. destruct Hin as [c0 [Heq Hc0]].
      injection Heq as <-. exact Hc0.
    - apply in_app_or in Hin. destruct Hin as [Hin|Hin];
        apply in_map_iff in Hin; destruct Hin as [? [Heq _]]; discriminate. }
  repeat split; intros Hx; [apply Ha | apply Hb | apply Hc];
    apply Hcyc; now exists (member_accounts cy).
Qed.

End RingsOfAnalysis.

(** On [chainIntoCycle], whose ids are plain, the cycle D -> E -> F -> D
    has exactly one representative. *)
Example detectCycles_exactly_once_example :
  exists cycles c',
    detectCycles String.compare (DetectionEngine isoTime chainIntoCycle) 3 5
      = Returned cycles /\
    In c' cycles /\ sameRing ["E"; "F"; "D"] c' /\
    forall c'', In c'' cycles -> sameRing ["E"; "F"; "D"] c'' -> c'' = c'.
Proof.
  destruct (detectCycles_total String.compare (DetectionEngine isoTime chainIntoCycle) 3 5)
    as [cycles Hrun].
  exists cycles.
  destruct (detectCycles_exactly_once String.compare
              String.compare_eq_iff String.compare_antisym String_compare_trans
              (DetectionEngine isoTime chainIntoCycle) 3 5) with
    (c := ["E"; "F"; "D"]) (cycles := cycles) as [c' H].
  - intros k Hk. vm_compute in Hk.
    repeat (destruct Hk as [<-|Hk]; [split; reflexivity|]). destruct Hk.
  - split; [discriminate|]. split.
    + repeat constructor; simpl; intuition discriminate.
    + split; vm_compute; tauto.
  - simpl. lia.
  - exact Hrun.
  - exists c'. split; [exact Hrun | exact H].
Defined.

(** * The graph index built by [buildGraph] *)

Lemma map_get_update_same {V} (m : JsMap V) (k : string) (f : V -> V) :
  map_get (map_update m k f) k = option_map f (map_get m k).
Proof.
  induction m as [|[k' v'] m IH]; simpl; [reflexivity|].
  destruct (k' =? k) eqn:E; simpl; rewrite E; [reflexivity | exact IH].
Qed.

Lemma map_get_update_other {V} (m : JsMap V) (k k' : string) (f : V -> V) :
  k <> k' -> map_get (map_update m k f) k' = map_get m k'.
Proof.
  intros Hne. induction m as [|[k0 v0] m IH]; simpl; [reflexivity|].
  destruct (k0 =? k) eqn:E; simpl.
  - apply String.eqb_eq in E. subst k0.
    apply String.eqb_neq in Hne. now rewrite Hne.
  - destruct (k0 =? k'); [reflexivity | exact IH].
Qed.

Lemma map_has_keys {V} (m : JsMap V) (k : string) :
  map_has m k = set_has (map_keys m) k.
Proof.
  unfold map_has, set_has, map_keys.
  induction m as [|[k' v'] m IH]; simpl; [reflexivity|].
  rewrite (String.eqb_sym k k'). destruct (k' =? k); simpl; [reflexivity | exact IH].
Qed.

Lemma map_set_new_keys {V} (m : JsMap V) (k : string) (v : V) :
  map_has m k = false -> map_keys (map_set m k v) = map_keys m ++ [k].
Proof.
  unfold map_has, map_keys.
  induction m as [|[k' v'] m IH]; simpl; [reflexivity|].
  destruct (k' =? k) eqn:E; simpl; [discriminate|].
  intros H. now rewrite IH.
Qed.

(** [if (!m.has(k)) m.set(k, d)], as [buildGraph] writes it three times. *)
Lemma map_ensure_keys {V} (m : JsMap V) (k : string) (d : V) :
  map_keys (if negb (map_has m k) then map_set m k d else m) = set_add (map_keys m) k.
Proof.
  unfold set_add. rewrite <- map_has_keys.
  destruct (map_has m k) eqn:E; simpl; [reflexivity|].
  now apply map_set_new_keys.
Qed.

Lemma map_ensure_get {V} (m : JsMap V) (k k' : string) (d : V) :
  map_get (if negb (map_has m k) then map_set m k d else m) k' =
  if k =? k'
  then Some (match map_get m k with Some v => v | None => d end)
  else map_get m k'.
Proof.
  unfold map_has. destruct (k =? k') eqn:E.
  - apply String.eqb_eq in E. subst k'.
    destruct (map_get m k) eqn:G; simpl; [exact G | apply map_get_set_same].
  - apply String.eqb_neq in E.
    destruct (map_get m k); simpl; [reflexivity | now apply map_get_set_other].
Qed.

Lemma set_of_list_snoc (l : list string) (x : string) :
  set_of_list (l ++ [x]) = set_add (set_of_list l) x.
Proof. unfold set_of_list. now rewrite fold_left_app. Qed.

Lemma allAccountsOf_snoc (l : list Tx) (t : Tx) :
  allAccountsOf (l ++ [t]) =
  set_add (set_add (allAccountsOf l) (sender_id t)) (receiver_id t).
Proof. unfold allAccountsOf. now rewrite fold_left_app. Qed.

Lemma sendersOf_snoc (l : list Tx) (t : Tx) :
  sendersOf (l ++ [t]) = set_add (sendersOf l) (sender_id t).
Proof. unfold sendersOf. rewrite map_app. cbn [map]. apply set_of_list_snoc. Qed.

Lemma receiversOf_snoc (a : string) (l : list Tx) (t : Tx) :
  receiversOf a (l ++ [t]) =
  if sender_id t =? a then set_add (receiversOf a l) (receiver_id t) else receiversOf a l.
Proof.
  unfold receiversOf. rewrite filter_app. cbn [filter].
  destruct (sender_id t =? a).
  - rewrite map_app. cbn [map]. apply set_of_list_snoc.
  - now rewrite app_nil_r.
Qed.

Lemma set_has_add (s : JsSet) (x y : string) :
  set_has (set_add s x) y = set_has s y || (x =? y).
Proof.
  apply eq_true_iff_eq.
  rewrite set_has_In, set_add_In, orb_true_iff, set_has_In, String.eqb_eq.
  intuition congruence.
Qed.

Lemma receiversOf_unknown (a : string) (l : list Tx) :
  set_has (sendersOf l) a = false -> receiversOf a l = [].
Proof.
  intros E. unfold receiversOf. rewrite filter_none; [reflexivity|].
  intros x Hx. apply set_has_false in E.
  apply String.eqb_neq. intros Heq. apply E.
  apply set_of_list_In, in_map_iff. now exists x.
Qed.

Lemma allAccountsOf_In (l : list Tx) (x : string) :
  In x (allAccountsOf l) <-> exists t, In t l /\ (sender_id t = x \/ receiver_id t = x).
Proof.
  induction l as [|y l IH] using rev_ind.
  - simpl. split; [intros [] | intros [t [[] _]]].
  - rewrite allAccountsOf_snoc, !set_add_In, IH. split.
    + intros [[[t [Ht Hx]] | -> ] | -> ].
      * exists t. split; [apply in_app_iff; now left | exact Hx].
      * exists y. split; [apply in_app_iff; right; now left | now left].
      * exists y. split; [apply in_app_iff; right; now left | now right].
    + intros [t [Ht Hx]]. apply in_app_iff in Ht. destruct Ht as [Ht | [<- | []]].
      * left. left. now exists t.
      * destruct Hx as [<-|<-]; [left; now right | now right].
Qed.

Lemma pushesOf_unknown (a : string) (l : list Tx) :
  set_has (allAccountsOf l) a = false -> flat_map (pushesOf a) l = [].
Proof.
  intros Hk. apply set_has_false in Hk.
  assert (Hall : forall x, In x l -> pushesOf a x = []).
  { intros x Hx. unfold pushesOf.
    destruct (String.eqb_spec (sender_id x) a) as [Hs|_].
    - exfalso. apply Hk. apply allAccountsOf_In. exists x. split; [exact Hx | now left].
    - destruct (String.eqb_spec (receiver_id x) a) as [Hr|_]; [|reflexivity].
      exfalso. apply Hk. apply allAccountsOf_In. exists x. split; [exact Hx | now right]. }
  clear Hk. induction l as [|x l IH]; simpl; [reflexivity|].
  rewrite Hall by now left. apply IH. intros y Hy. apply Hall. now right.
Qed.

(** State of the two maps after [buildGraph] has gone through [l]. *)
Lemma buildGraph_state (l : list Tx) :
  let g := fold_left buildGraph_step l ([], []) in
  map_keys (fst g) = sendersOf l /\
  map_keys (snd g) = allAccountsOf l /\
  (forall a, map_get (fst g) a =
             if set_has (sendersOf l) a then Some (receiversOf a l) else None) /\
  (forall a, map_get (snd g) a =
             if set_has (allAccountsOf l) a then Some (flat_map (pushesOf a) l) else None).
Proof.
  induction l as [|t l IH] using rev_ind.
  - simpl. repeat split; reflexivity.
  - rewrite fold_left_app. simpl.
    destruct IH as [Hk1 [Hk2 [Hg1 Hg2]]].
    set (g := fold_left buildGraph_step l ([], [])) in *.
    unfold buildGraph_step. cbv zeta.
    cbn [fst snd].
    split; [|split; [|split]].
    + now rewrite map_update_keys, map_ensure_keys, Hk1, sendersOf_snoc.
    + now rewrite !map_update_keys, !map_ensure_keys, Hk2, allAccountsOf_snoc.
    + intros a.
      rewrite sendersOf_snoc, receiversOf_snoc, set_has_add.
      destruct (String.eqb_spec (sender_id t) a) as [<-|Hne].
      * rewrite map_get_update_same, map_ensure_get, String.eqb_refl. cbn [option_map].
        rewrite Hg1, orb_true_r.
        destruct (set_has (sendersOf l) (sender_id t)) eqn:E; [reflexivity|].
        now rewrite receiversOf_unknown.
      * rewrite map_get_update_other by exact Hne.
        rewrite map_ensure_get.
        destruct (String.eqb_spec (sender_id t) a) as [Heq|_]; [contradiction|].
        now rewrite Hg1, orb_false_r.
    + intros a.
      rewrite allAccountsOf_snoc, flat_map_app. cbn [flat_map]. rewrite app_nil_r.
      rewrite !set_has_add.
      set (m0 := snd g) in *.
      set (m1 := if negb (map_has m0 (sender_id t)) then map_set m0 (sender_id t) [] else m0).
      set (m2 := if negb (map_has m1 (receiver_id t)) then map_set m1 (receiver_id t) [] else m1).
      set (m3 := map_update m2 (sender_id t) (fun l0 => l0 ++ [t])).
      assert (Hold : forall k, match map_get m0 k with Some v => v | None => [] end
                               = flat_map (pushesOf k) l).
      { intros k. rewrite Hg2.
        destruct (set_has (allAccountsOf l) k) eqn:E; [reflexivity|].
        symmetry. now apply pushesOf_unknown. }
      assert (G1 : forall k, map_get m1 k =
                   if sender_id t =? k
                   then Some (flat_map (pushesOf (sender_id t)) l)
                   else map_get m0 k).
      { intros k. unfold m1. rewrite map_ensure_get. now rewrite Hold. }
      assert (G2 : forall k, map_get m2 k =
                   if receiver_id t =? k
                   then Some (flat_map (pushesOf (receiver_id t)) l)
                   else map_get m1 k).
      { intros k. unfold m2. rewrite map_ensure_get, G1.
        destruct (String.eqb_spec (sender_id t) (receiver_id t)) as [Hs|Hs].
        - now rewrite Hs.
        - now rewrite Hold. }
      assert (G3 : forall k, map_get m3 k =
                   if sender_id t =? k
                   then Some (flat_map (pushesOf (sender_id t)) l ++ [t])
                   else map_get m2 k).
      { intros k. unfold m3. destruct (String.eqb_spec (sender_id t) k) as [<-|Hne].
        - rewrite map_get_update_same, G2.
          destruct (String.eqb_spec (receiver_id t) (sender_id t)) as [Hr|Hr].
          + now rewrite Hr.
          + now rewrite G1, String.eqb_refl.
        - now apply map_get_update_other. }
      unfold pushesOf at 2.
      destruct (String.eqb_spec (receiver_id t) a) as [<-|Hr].
      * rewrite map_get_update_same, G3, G2, String.eqb_refl, orb_true_r.
        destruct (String.eqb_spec (sender_id t) (receiver_id t)) as [Hs|Hs].
        -- cbn [option_map]. rewrite Hs. now rewrite <- app_assoc.
        -- reflexivity.
      * rewrite map_get_update_other by exact Hr.
        rewrite G3, G2, G1.
        destruct (String.eqb_spec (receiver_id t) a) as [Heq|_]; [contradiction|].
        destruct (String.eqb_spec (sender_id t) a) as [Hs|Hs].
        -- rewrite orb_true_r, app_nil_r. cbn [orb]. now rewrite Hs.
        -- rewrite !orb_false_r, app_nil_r. apply Hg2.
Qed.

Lemma find_pushesOf (from to : string) (l : list Tx) :
  find (fun t : Tx => (sender_id t =? from) && (receiver_id t =? to))
       (flat_map (pushesOf from) l) =
  find (fun t : Tx => (sender_id t =? from) && (receiver_id t =? to)) l.
Proof.
  induction l as [|t l IH]; [reflexivity|].
  cbn [flat_map find]. unfold pushesOf at 1.
  destruct (sender_id t =? from) eqn:Es; destruct (receiver_id t =? from) eqn:Er;
    cbn [app find andb]; rewrite ?Es; cbn [andb];
    destruct (receiver_id t =? to) eqn:Et; cbn [andb]; try reflexivity;
    rewrite ?Es, ?Et; cbn [andb]; exact IH.
Qed.

Section GraphIndex.

Variable Date_getTime : string -> JsNum.

Lemma txsOf_built (txs : list Transaction) (acc : string) :
  txsOf (DetectionEngine Date_getTime txs) acc =
  flat_map (pushesOf acc) (map (cacheTime Date_getTime) txs).
Proof.
  unfold txsOf, DetectionEngine. cbn [accountTx].
  destruct (buildGraph_state (map (cacheTime Date_getTime) txs)) as [_ [_ [_ Hg]]].
  cbv zeta in Hg. rewrite Hg.
  destruct (set_has _ acc) eqn:E; [reflexivity|].
  symmetry. now apply pushesOf_unknown.
Qed.

(** X1. [buildGraph] files every transaction under its sender and under
    its receiver, in batch order: the list that [accountTx] holds for an
    account is the batch restricted to the transactions that name the
    account, each one once as sender and once as receiver, so that a
    transfer from an account to itself is listed twice.  An account that
    no transaction names has the empty list. *)
Theorem buildGraph_accountTx_lists (txs : list Transaction) (acc : string) :
  txsOf (DetectionEngine Date_getTime txs) acc =
  flat_map (pushesOf acc) (map (cacheTime Date_getTime) txs).
Proof. apply txsOf_built. Qed.

(** X2. The adjacency map built by [buildGraph]: its keys are the
    distinct senders of the batch in the order of their first transfer,
    the set stored for a sender lists its distinct receivers in the order
    of their first transfer, and there is an edge from [u] to [v] exactly
    when some transaction goes from [u] to [v]. *)
Theorem buildGraph_adjacency_sets (txs : list Transaction) :
  let e := DetectionEngine Date_getTime txs in
  map_keys (adjacency e) = sendersOf (transactions e) /\
  (forall a, neighborsOf e a = receiversOf a (transactions e)) /\
  (forall u v, hasEdge e u v <->
               exists t, In t txs /\ sender_id t = u /\ receiver_id t = v).
Proof.
  cbv zeta.
  destruct (buildGraph_state (map (cacheTime Date_getTime) txs)) as [Hk [_ [Hg _]]].
  cbv zeta in Hk, Hg.
  assert (Hn : forall a,
             neighborsOf (DetectionEngine Date_getTime txs) a =
             receiversOf a (map (cacheTime Date_getTime) txs)).
  { intros a. unfold neighborsOf, DetectionEngine. cbn [adjacency]. rewrite Hg.
    destruct (set_has _ a) eqn:E; [reflexivity|].
    symmetry. now apply receiversOf_unknown. }
  split; [exact Hk|]. split; [exact Hn|].
  intros u v. unfold hasEdge. rewrite Hn. unfold receiversOf.
  rewrite set_of_list_In, in_map_iff. split.
  - intros [t [Hv Ht]]. apply filter_In in Ht. destruct Ht as [Ht Hu].
    apply in_map_iff in Ht. destruct Ht as [t0 [<- Ht0]].
    exists t0. split; [exact Ht0|]. split; [now apply String.eqb_eq | exact Hv].
  - intros [t [Ht [Hu Hv]]]. exists (cacheTime Date_getTime t).
    split; [exact Hv|]. apply filter_In. split.
    + now apply in_map.
    + now apply String.eqb_eq.
Qed.

(** X3. The keys of [accountTx] are the accounts of the batch: every id
    that occurs as sender or receiver of some transaction, each once, in
    the order of first occurrence (the sender of a transaction before its
    receiver).  They are the set that [analyze] counts for
    [total_accounts_analyzed]. *)
Theorem buildGraph_account_keys (txs : list Transaction) :
  let e := DetectionEngine Date_getTime txs in
  map_keys (accountTx e) = allAccountsOf (transactions e) /\
  NoDup (map_keys (accountTx e)) /\
  (forall x, In x (map_keys (accountTx e)) <->
             exists t, In t txs /\ (sender_id t = x \/ receiver_id t = x)).
Proof.
  cbv zeta.
  destruct (buildGraph_state (map (cacheTime Date_getTime) txs)) as [_ [Hk _]].
  cbv zeta in Hk.
  unfold DetectionEngine. cbn [accountTx transactions].
  split; [exact Hk|]. rewrite Hk. split.
  - unfold allAccountsOf.
    apply (fold_left_invariant (fun s : JsSet => NoDup s)); [|constructor].
    intros s x _ Hs. now apply set_add_NoDup, set_add_NoDup.
  - intros x. rewrite allAccountsOf_In. split.
    + intros [t [Ht Hx]]. apply in_map_iff in Ht. destruct Ht as [t0 [<- Ht0]].
      now exists t0.
    + intros [t [Ht Hx]]. exists (cacheTime Date_getTime t).
      split; [now apply in_map | exact Hx].
Qed.

(** X4. On an engine built from a batch, [getTxTime from to] is the cached
    time of the first transaction of the batch that goes from [from] to
    [to], and [null] when the batch has no such transaction. *)
Theorem getTxTime_first_transfer (txs : list Transaction) (from to : string) :
  getTxTime (DetectionEngine Date_getTime txs) from to =
  option_map (fun t : Transaction => Date_getTime (timestamp t))
    (find (fun t : Transaction => (sender_id t =? from) && (receiver_id t =? to)) txs).
Proof.
  unfold getTxTime. rewrite txsOf_built, find_pushesOf.
  induction txs as [|t txs IH]; [reflexivity|].
  cbn [map find]. cbn [cacheTime tx_data sender_id receiver_id].
  destruct ((sender_id t =? from) && (receiver_id t =? to)); [reflexivity | exact IH].
Qed.

End GraphIndex.

(** * Ring identifiers *)

Lemma to_uint_nonnil (n : nat) : Nat.to_uint n <> Decimal.Nil.
Proof.
  rewrite <- (DecimalNat.Unsigned.of_to n) at 1.
  rewrite DecimalNat.Unsigned.to_of. apply DecimalFacts.unorm_nonnil.
Qed.

Lemma repeat_zero_digits (k : nat) (d : Decimal.uint) :
  String.append (repeat_string k "0") (NilEmpty.string_of_uint d) =
  NilEmpty.string_of_uint (Nat.iter k Decimal.D0 d).
Proof.
  induction k as [|k IH]; [reflexivity|].
  cbn [repeat_string Nat.iter nat_rect]. simpl String.append. now rewrite IH.
Qed.

Lemma of_uint_iter_D0 (k : nat) (d : Decimal.uint) :
  Nat.of_uint (Nat.iter k Decimal.D0 d) = Nat.of_uint d.
Proof.
  rewrite <- DecimalNat.Unsigned.of_uint_norm, DecimalFacts.unorm_iter_D0.
  apply DecimalNat.Unsigned.of_uint_norm.
Qed.

(** Padding with zeros does not merge two numbers. *)
Lemma padStart_zero_inj (w n m : nat) :
  padStart w "0" (string_of_nat n) = padStart w "0" (string_of_nat m) -> n = m.
Proof.
  unfold padStart, string_of_nat.
  assert (Hs : forall k, NilZero.string_of_uint (Nat.to_uint k)
                         = NilEmpty.string_of_uint (Nat.to_uint k)).
  { intros k. pose proof (to_uint_nonnil k) as Hk.
    destruct (Nat.to_uint k); [congruence | reflexivity ..]. }
  rewrite !Hs, !repeat_zero_digits. intros H.
  apply (f_equal NilEmpty.uint_of_string) in H.
  rewrite !NilEmpty.usu in H. injection H as H.
  apply (f_equal Nat.of_uint) in H.
  now rewrite !of_uint_iter_D0, !DecimalNat.Unsigned.of_to in H.
Qed.

Lemma ringIdOf_inj (n m : nat) : ringIdOf n = ringIdOf m -> n = m.
Proof.
  unfold ringIdOf. simpl String.append. intros H.
  injection H as H. now apply (padStart_zero_inj 3).
Qed.

Lemma NoDup_map_injective {A B} (f : A -> B) (l : list A) :
  (forall x y, f x = f y -> x = y) -> NoDup l -> NoDup (map f l).
Proof.
  intros Hinj. induction 1 as [|x l Hx Hl IH]; simpl; constructor; [|exact IH].
  intros Hin. apply in_map_iff in Hin. destruct Hin as [y [Heq Hy]].
  apply Hinj in Heq. now subst y.
Qed.

Lemma addRing_numbered e reg accounts pattern risk :
  ringsNumbered reg -> ringsNumbered (addRing e reg accounts pattern risk).
Proof.
  intros [Hids Hc]. unfold ringsNumbered, addRing. cbn [fraudRings ringCounter].
  rewrite length_app, Nat.add_1_r. split; [|now rewrite Hc].
  rewrite map_app, seq_S, map_app, Hids, Hc. reflexivity.
Qed.

(** * Risk scores *)

Lemma clamp_range (risk : Q) : (0 <= Qmin (Qmax risk 0) 1 <= 1)%Q.
Proof.
  unfold Qmin, Qmax.
  destruct (Qltb risk 0) eqn:E0.
  - replace (Qltb 1 0) with false by reflexivity. split; [apply Qle_refl | discriminate].
  - apply Qltb_ge in E0. destruct (Qltb 1 risk) eqn:E1.
    + split; [discriminate | apply Qle_refl].
    + apply Qltb_ge in E1. now split.
Qed.

Lemma clamp_mono (x y : Q) :
  (x <= y)%Q -> (Qmin (Qmax x 0) 1 <= Qmin (Qmax y 0) 1)%Q.
Proof.
  intros Hxy. unfold Qmin, Qmax.
  destruct (Qltb x 0) eqn:Ex; destruct (Qltb y 0) eqn:Ey;
    try apply Qltb_lt in Ex; try apply Qltb_ge in Ex;
    try apply Qltb_lt in Ey; try apply Qltb_ge in Ey;
    replace (Qltb 1 0) with false by reflexivity.
  - apply Qle_refl.
  - destruct (Qltb 1 y) eqn:E1; [discriminate | exact Ey].
  - destruct (Qltb 1 x) eqn:E1.
    + apply Qltb_lt in E1. lra.
    + lra.
  - destruct (Qltb 1 x) eqn:E1; destruct (Qltb 1 y) eqn:E2;
      try apply Qltb_lt in E1; try apply Qltb_ge in E1;
      try apply Qltb_lt in E2; try apply Qltb_ge in E2; lra.
Qed.

Lemma clamp_idle (x : Q) : (0 <= x <= 1)%Q -> Qmin (Qmax x 0) 1 = x.
Proof.
  intros [H0 H1]. unfold Qmin, Qmax.
  apply Qltb_ge in H0. rewrite H0. apply Qltb_ge in H1. now rewrite H1.
Qed.

Lemma toFixed1_nonneg (x : Q) :
  (0 <= x)%Q -> toFixed1 x = (Qfloor (x * 10 + (1 # 2)) # 10)%Q.
Proof. intros H. unfold toFixed1. apply Qltb_ge in H. now rewrite H. Qed.

Lemma tenths_le (n m : Z) : (n <= m)%Z -> (n # 10 <= m # 10)%Q.
Proof. intros H. unfold Qle. simpl. lia. Qed.

Lemma riskScoreOf_mono (x y : Q) : (x <= y)%Q -> (riskScoreOf x <= riskScoreOf y)%Q.
Proof.
  intros Hxy. unfold riskScoreOf. cbv zeta.
  pose proof (clamp_range x) as [Hx0 _]. pose proof (clamp_range y) as [Hy0 _].
  pose proof (clamp_mono x y Hxy) as Hm.
  set (u := Qmin (Qmax x 0) 1) in *. set (v := Qmin (Qmax y 0) 1) in *.
  rewrite !toFixed1_nonneg by lra.
  apply tenths_le, Qfloor_resp_le. lra.
Qed.

Lemma round_tenths (x : Q) :
  (0 <= x <= 100)%Q ->
  (0 <= Qfloor (x * 10 + (1 # 2)) <= 1000)%Z /\
  (- (1 # 20) < (Qfloor (x * 10 + (1 # 2)) # 10) - x <= 1 # 20)%Q.
Proof.
  intros [H0 H1].
  pose proof (Qfloor_le (x * 10 + (1 # 2))) as Hle.
  pose proof (Qlt_floor (x * 10 + (1 # 2))) as Hlt.
  rewrite inject_Z_plus in Hlt. change (inject_Z 1) with 1%Q in Hlt.
  rewrite (Qmake_Qdiv (Qfloor (x * 10 + (1 # 2))) 10).
  assert (Hz : forall a b : Z, (inject_Z a < inject_Z b)%Q -> (a < b)%Z).
  { intros a b H. now rewrite Zlt_Qlt. }
  split; [split|].
  - assert (H : (-1 < Qfloor (x * 10 + (1 # 2)))%Z); [|lia].
    apply Hz. revert Hlt. generalize (inject_Z (Qfloor (x * 10 + (1 # 2)))).
    intros f Hlt. change (inject_Z (-1)) with (- (1))%Q. lra.
  - assert (H : (Qfloor (x * 10 + (1 # 2)) < 1001)%Z); [|lia].
    apply Hz. revert Hle. generalize (inject_Z (Qfloor (x * 10 + (1 # 2)))).
    intros f Hle. change (inject_Z 1001) with 1001%Q. lra.
  - revert Hle Hlt. generalize (inject_Z (Qfloor (x * 10 + (1 # 2)))).
    intros f Hle Hlt. unfold Qdiv. change (/ inject_Z (Z.pos 10))%Q with (1 # 10)%Q.
    split; lra.
Qed.

Lemma riskScoreOf_tenths (risk : Q) :
  exists n : Z,
    riskScoreOf risk = (n # 10)%Q /\ (0 <= n <= 1000)%Z /\
    (- (1 # 20) < (n # 10) - Qmin (Qmax risk 0) 1 * 100 <= 1 # 20)%Q.
Proof.
  unfold riskScoreOf. cbv zeta.
  pose proof (clamp_range risk) as [H0 H1].
  set (c := Qmin (Qmax risk 0) 1) in *. clearbody c.
  rewrite toFixed1_nonneg by lra.
  exists (Qfloor (c * 100 * 10 + (1 # 2))). split; [reflexivity|].
  apply round_tenths. lra.
Qed.

Lemma smurfRisk_range (nSenders nReceivers : nat) :
  (15 # 100 <= smurfRisk nSenders nReceivers <= 1)%Q.
Proof.
  assert (Hcap : forall x : Q, (0 <= x)%Q -> (0 <= Qmin x 1 <= 1)%Q).
  { intros x Hx. unfold Qmin. destruct (Qltb 1 x) eqn:E.
    - split; [discriminate | apply Qle_refl].
    - apply Qltb_ge in E. now split. }
  assert (Hnat : forall n, (0 <= nat_to_Q n)%Q).
  { intros n. unfold nat_to_Q. change 0%Q with (inject_Z 0).
    rewrite <- Zle_Qle. lia. }
  unfold smurfRisk. cbv zeta.
  pose proof (Hnat nSenders) as Hs. pose proof (Hnat (nSenders + nReceivers)) as Hh.
  assert (H1 : (0 <= nat_to_Q nSenders / 30)%Q).
  { unfold Qdiv. apply Qmult_le_0_compat; [exact Hs | discriminate]. }
  assert (H2 : (0 <= nat_to_Q (nSenders + nReceivers) / 40)%Q).
  { unfold Qdiv. apply Qmult_le_0_compat; [exact Hh | discriminate]. }
  apply Hcap in H1. apply Hcap in H2.
  revert H1 H2.
  generalize (Qmin (nat_to_Q nSenders / 30) 1).
  generalize (Qmin (nat_to_Q (nSenders + nReceivers) / 40) 1).
  intros hub snd H1 H2.
  destruct (MIN_UNIQUE <=? nReceivers)%nat; lra.
Qed.

(** X5. [addRing] clamps the risk to [0, 1], scales it and rounds it to
    one decimal: every risk score is a number of tenths between 0.0 and
    100.0 and lies within 0.05 of one hundred times the clamped risk. *)
Theorem riskScoreOf_range (risk : Q) :
  exists n : Z,
    riskScoreOf risk = (n # 10)%Q /\ (0 <= n <= 1000)%Z /\
    (- (1 # 20) < (n # 10) - Qmin (Qmax risk 0) 1 * 100 <= 1 # 20)%Q.
Proof. apply riskScoreOf_tenths. Qed.

(** X6. The risk of a smurfing candidate lies between 0.15 and 1, because
    both of its components are capped at 1: the clamp of [addRing] never
    changes it. *)
Theorem smurfRisk_bounds (nSenders nReceivers : nat) :
  (15 # 100 <= smurfRisk nSenders nReceivers <= 1)%Q /\
  Qmin (Qmax (smurfRisk nSenders nReceivers) 0) 1 = smurfRisk nSenders nReceivers.
Proof.
  pose proof (smurfRisk_range nSenders nReceivers) as Hb.
  split; [exact Hb|]. apply clamp_idle. lra.
Qed.

(** * The result of [analyze] *)

Lemma registerCandidates_bodies e p cs reg :
  map ringBody (fraudRings (fold_left (registerCandidate e p) cs reg)) =
  map ringBody (fraudRings reg) ++
  map (fun c => (p, accounts c, riskScoreOf (risk c))) cs.
Proof.
  revert reg. induction cs as [|c cs IH]; intros reg; simpl.
  - now rewrite app_nil_r.
  - rewrite IH. unfold registerCandidate, addRing. cbn [fraudRings].
    rewrite map_app, <- app_assoc. reflexivity.
Qed.

Lemma registerCycles_bodies e cycles st :
  map ringBody (fraudRings (fst (fold_left (registerCycle e) cycles st))) =
  map ringBody (fraudRings (fst st)) ++
  map (fun c => (cycle, c, riskScoreOf (85 # 100))) cycles.
Proof.
  revert st. induction cycles as [|c cycles IH]; intros st; simpl.
  - now rewrite app_nil_r.
  - rewrite IH. unfold registerCycle, addRing. cbn [fst fraudRings].
    rewrite map_app, <- app_assoc. reflexivity.
Qed.

Section SortedOutput.

Context {A : Type} (gt : A -> A -> bool) (R : A -> A -> Prop).
Hypothesis gt_true : forall x y, gt y x = true -> R x y.
Hypothesis gt_false : forall x y, gt y x = false -> R y x.
Hypothesis R_trans : forall x y z, R x y -> R y z -> R x z.

Lemma insert_sorted_sorted (x : A) (l : list A) :
  StronglySorted R l -> StronglySorted R (insert_sorted gt x l).
Proof.
  induction 1 as [|y l Hl IH Hy]; simpl.
  - constructor; constructor.
  - destruct (gt y x) eqn:E.
    + constructor.
      * constructor; assumption.
      * constructor; [now apply gt_true|].
        rewrite Forall_forall in *. intros z Hz.
        apply (R_trans x y z); [now apply gt_true | now apply Hy].
    + constructor; [exact IH|].
      rewrite Forall_forall in *. intros z Hz.
      apply (Permutation_in _ (Permutation_sym (insert_sorted_perm gt x l))) in Hz.
      destruct Hz as [<-|Hz]; [now apply gt_false | now apply Hy].
Qed.

Lemma jsSort_sorted (l : list A) : StronglySorted R (jsSort gt l).
Proof.
  unfold jsSort.
  apply (fold_left_invariant (fun acc => StronglySorted R acc)); [|constructor].
  intros s x _ Hs. now apply insert_sorted_sorted.
Qed.

End SortedOutput.

Section ResultOfAnalysis.

Variable localeCompare : string -> string -> comparison.

(** The parts of one run of [analyze]. *)
Lemma analyze_parts e r :
  analyze localeCompare e = Returned r ->
  exists cycles smurfs cycleAccounts reg,
    detectCycles localeCompare e 3 5 = Returned cycles /\
    detectSmurfing e = Returned smurfs /\
    (forall x, In x cycleAccounts <-> exists c, In c cycles /\ In x c) /\
    registryOk e reg /\
    ringsNumbered reg /\
    map ringBody (fraudRings reg) =
      map (fun c => (cycle, c, riskScoreOf (85 # 100))) cycles ++
      map (fun c => (smurfing, accounts c, riskScoreOf (risk c))) smurfs ++
      map (fun c => (shell, accounts c, riskScoreOf (risk c)))
          (detectShell e cycleAccounts) /\
    fraud_rings r = fraudRings reg /\
    suspicious_accounts r = jsSort scoreGt (map_values (suspiciousMap reg)) /\
    summary r =
      {| total_accounts_analyzed := length (allAccountsOf (transactions e));
         suspicious_accounts_flagged := length (suspicious_accounts r);
         fraud_rings_detected := length (fraud_rings r) |}.
Proof.
  unfold analyze. intros H.
  destruct (detectCycles localeCompare e 3 5) as [cycles| |]; cbn [bind] in H;
    try discriminate.
  destruct (detectSmurfing e) as [smurfs| |]; cbn [bind] in H; try discriminate.
  injection H as <-.
  set (st1 := fold_left (registerCycle e) cycles (emptyRegistry, [])).
  exists cycles, smurfs, (snd st1).
  eexists.
  split; [reflexivity|]. split; [reflexivity|]. split.
  { intros x. unfold st1. rewrite registerCycles_members. simpl. tauto. }
  split; [|split; [|split; [|split; [reflexivity | split; reflexivity]]]].
  - apply (fold_left_invariant (registryOk e)).
    { intros s x _ Hs. now apply addRing_ok. }
    apply (fold_left_invariant (registryOk e)).
    { intros s x _ Hs. now apply addRing_ok. }
    apply (fold_left_invariant (fun st => registryOk e (fst st))).
    { intros s x _ Hs. simpl. now apply addRing_ok. }
    apply emptyRegistry_ok.
  - apply (fold_left_invariant ringsNumbered).
    { intros s x _ Hs. now apply addRing_numbered. }
    apply (fold_left_invariant ringsNumbered).
    { intros s x _ Hs. now apply addRing_numbered. }
    apply (fold_left_invariant (fun st => ringsNumbered (fst st))).
    { intros s x _ Hs. simpl. now apply addRing_numbered. }
    split; reflexivity.
  - rewrite !registerCandidates_bodies. unfold st1.
    rewrite registerCycles_bodies. simpl. now rewrite <- app_assoc.
Qed.

(** X7. The rings of one analysis carry the ids [RING_001], [RING_002],
    ... in the order of their registration: the id of the k-th ring is
    made from the number k, padded with zeros to three digits. *)
Theorem ring_ids_are_sequential e r :
  analyze localeCompare e = Returned r ->
  map ring_id (fraud_rings r) = map ringIdOf (seq 1 (length (fraud_rings r))).
Proof.
  intros Hrun.
  destruct (analyze_parts e r Hrun)
    as [cycles [smurfs [cyc [reg [_ [_ [_ [_ [[Hids _] [_ [Hr _]]]]]]]]]]].
  rewrite Hr. exact Hids.
Qed.

(** X8. No two rings of one analysis have the same id, however many
    rings there are: beyond 999 the number is longer than three digits
    but still not shared. *)
Theorem ring_ids_are_distinct e r :
  analyze localeCompare e = Returned r -> NoDup (map ring_id (fraud_rings r)).
Proof.
  intros Hrun.
  destruct (analyze_parts e r Hrun)
    as [cycles [smurfs [cyc [reg [_ [_ [_ [_ [[Hids _] [_ [Hr _]]]]]]]]]]].
  rewrite Hr, Hids.
  apply NoDup_map_injective; [exact ringIdOf_inj | apply seq_NoDup].
Qed.

Lemma scoreGt_true (x y : SuspiciousAccount) : scoreGt y x = true -> scoreGe x y.
Proof.
  unfold scoreGt, scoreGe. intros H. apply Qltb_lt in H. lra.
Qed.

Lemma scoreGt_false (x y : SuspiciousAccount) : scoreGt y x = false -> scoreGe y x.
Proof.
  unfold scoreGt, scoreGe. intros H. apply Qltb_ge in H. lra.
Qed.

(** X9. The list of suspicious accounts is in descending order of
    suspicion score: no account is followed, anywhere later in the list, by
    one with a higher score. *)
Theorem suspicious_accounts_sorted e r :
  analyze localeCompare e = Returned r ->
  StronglySorted scoreGe (suspicious_accounts r).
Proof.
  intros Hrun.
  destruct (analyze_parts e r Hrun)
    as [cycles [smurfs [cyc [reg [_ [_ [_ [_ [_ [_ [_ [Hs _]]]]]]]]]]]].
  rewrite Hs. apply (jsSort_sorted scoreGt scoreGe scoreGt_true scoreGt_false).
  unfold scoreGe. intros x y z Hxy Hyz. lra.
Qed.

Lemma memberOf_In (acc : string) (ring : FraudRing) :
  memberOf acc ring = true <-> In acc (member_accounts ring).
Proof.
  unfold memberOf. rewrite existsb_exists. split.
  - intros [x [Hx Heq]]. apply String.eqb_eq in Heq. now subst x.
  - intros H. exists acc. split; [exact H | apply String.eqb_refl].
Qed.

(** A record of the suspicion map is filed under its own account id, the
    account is no merchant, and the ring that gave the record its score
    lists the account. *)
Lemma registry_record e reg k sa :
  registryOk e reg ->
  In (k, sa) (suspiciousMap reg) ->
  account_id sa = k /\
  isMerchant e k None None = false /\
  exists ring,
    In ring (fraudRings reg) /\ In k (member_accounts ring) /\
    sa_ring_id sa = ring_id ring /\
    suspicion_score sa = risk_score ring /\
    In (pattern_type ring) (detected_patterns sa).
Proof.
  intros [Hnd Hall] Hin.
  pose proof (In_map_get _ _ _ Hnd Hin) as Hget.
  specialize (Hall k). unfold entryOk in Hall. rewrite Hget in Hall.
  destruct (isMerchant e k None None); [discriminate|].
  destruct Hall as [Hid [[R1 [rmax [R2 [HR [Hscore [Hring _]]]]]] [_ Hpat]]].
  split; [exact Hid|]. split; [reflexivity|].
  assert (Hmax : In rmax (ringsOf k (fraudRings reg))).
  { rewrite HR. apply in_app_iff. right. now left. }
  pose proof Hmax as Hmax'.
  unfold ringsOf in Hmax'. apply filter_In in Hmax'. destruct Hmax' as [Hrings Hmem].
  exists rmax. split; [exact Hrings|]. split; [now apply memberOf_In|].
  split; [exact Hring|]. split; [exact Hscore|].
  apply Hpat. now exists rmax.
Qed.

(** The sorted list of records read off a registry: no account twice,
    and every record comes from the suspicion map. *)
Lemma registry_suspects e reg :
  registryOk e reg ->
  NoDup (map account_id (jsSort scoreGt (map_values (suspiciousMap reg)))) /\
  (forall sa, In sa (jsSort scoreGt (map_values (suspiciousMap reg))) ->
              exists k, In (k, sa) (suspiciousMap reg)).
Proof.
  intros Hok. split.
  - apply (Permutation_NoDup
             (l := map account_id (map_values (suspiciousMap reg)))).
    + apply Permutation_map, jsSort_perm.
    + replace (map account_id (map_values (suspiciousMap reg)))
        with (map_keys (suspiciousMap reg)); [apply Hok|].
      unfold map_keys, map_values. rewrite map_map.
      apply map_ext_in. intros [k v] Hkv. simpl.
      symmetry. exact (proj1 (registry_record e reg k v Hok Hkv)).
  - intros sa Hin. apply jsSort_In in Hin. unfold map_values in Hin.
    apply in_map_iff in Hin. destruct Hin as [[k v] [Hv Hkv]]. simpl in Hv. subst v.
    now exists k.
Qed.

(** X10. The suspicious accounts of one analysis are the accounts that
    some ring lists as a member and that are no merchants, each of them
    once; and the record of each one names a ring of the result that lists
    the account, with that ring's id, score and pattern. *)
Theorem suspicious_accounts_are_ring_members e r :
  analyze localeCompare e = Returned r ->
  NoDup (map account_id (suspicious_accounts r)) /\
  (forall acc,
      In acc (map account_id (suspicious_accounts r)) <->
      isMerchant e acc None None = false /\
      exists ring, In ring (fraud_rings r) /\ In acc (member_accounts ring)) /\
  (forall sa,
      In sa (suspicious_accounts r) ->
      exists ring,
        In ring (fraud_rings r) /\
        In (account_id sa) (member_accounts ring) /\
        sa_ring_id sa = ring_id ring /\
        suspicion_score sa = risk_score ring /\
        In (pattern_type ring) (detected_patterns sa)).
Proof.
  intros Hrun.
  destruct (analyze_parts e r Hrun)
    as [cycles [smurfs [cyc [reg [_ [_ [_ [Hok [_ [_ [Hr [Hs _]]]]]]]]]]]].
  rewrite Hr, Hs.
  destruct (registry_suspects e reg Hok) as [Hnodup Hrec].
  split; [exact Hnodup|]. split.
  - intros acc. split.
    + intros Hin. apply in_map_iff in Hin. destruct Hin as [sa [Hid Hin]].
      destruct (Hrec sa Hin) as [k Hk].
      destruct (registry_record e reg k sa Hok Hk) as [Hid' [Hm [ring [H1 [H2 _]]]]].
      assert (Hk' : k = acc) by congruence. rewrite Hk' in Hm, H2.
      split; [exact Hm|]. now exists ring.
    + intros [Hm [ring [Hring Hmem]]].
      destruct Hok as [Hnd Hall]. pose proof (Hall acc) as Hacc.
      unfold entryOk in Hacc. rewrite Hm in Hacc.
      destruct (map_get (suspiciousMap reg) acc) as [sa|] eqn:Hget.
      * destruct Hacc as [Hid _]. apply in_map_iff. exists sa. split; [exact Hid|].
        apply jsSort_In. unfold map_values. apply in_map_iff.
        exists (acc, sa). split; [reflexivity | now apply map_get_In].
      * exfalso.
        assert (Hin : In ring (ringsOf acc (fraudRings reg))).
        { unfold ringsOf. apply filter_In. split; [exact Hring | now apply memberOf_In]. }
        rewrite Hacc in Hin. destruct Hin.
  - intros sa Hin. destruct (Hrec sa Hin) as [k Hk].
    destruct (registry_record e reg k sa Hok Hk) as [Hid [_ [ring [H1 [H2 [H3 [H4 H5]]]]]]].
    exists ring. rewrite Hid. repeat split; assumption.
Qed.

(** X11. The rings of one analysis come in the order of the three
    detectors: first all cycle rings, then all smurfing rings, then all
    shell rings. *)
Theorem rings_ordered_by_detector e r :
  analyze localeCompare e = Returned r ->
  exists nCycle nSmurfing nShell,
    map pattern_type (fraud_rings r) =
    repeat cycle nCycle ++ repeat smurfing nSmurfing ++ repeat shell nShell.
Proof.
  intros Hrun.
  destruct (analyze_parts e r Hrun)
    as [cycles [smurfs [cyc [reg [_ [_ [_ [_ [_ [Hb [Hr _]]]]]]]]]]].
  exists (length cycles), (length smurfs), (length (detectShell e cyc)).
  rewrite Hr.
  replace (map pattern_type (fraudRings reg))
    with (map (fun b : Pattern * list string * Q => fst (fst b))
              (map ringBody (fraudRings reg)))
    by (rewrite map_map; reflexivity).
  rewrite Hb, !map_app, !map_map. cbn [fst].
  assert (Hconst : forall (A : Type) (p : Pattern) (l : list A),
             map (fun _ => p) l = repeat p (length l)).
  { intros A p l. induction l as [|x l IH]; simpl; [reflexivity | now rewrite IH]. }
  now rewrite !Hconst.
Qed.

End ResultOfAnalysis.

(** * The shell detector: shape of a chain and the [seen] set *)

Lemma shellStepD_seen e a b c neighborsA st d :
  In (a, neighborsA) (adjacency e) -> In b neighborsA ->
  In c (neighborsOf e b) -> In d (neighborsOf e c) -> c <> a ->
  shellSeen e st -> shellSeen e (shellStepD e a b c st d).
Proof.
  intros Ha Hab Hbc Hcd Hca Hst. unfold shellStepD.
  destruct ((d =? a) || (d =? b) || (d =? c)) eqn:Hd; [exact Hst|].
  apply orb_false_iff in Hd. destruct Hd as [Hd Hdc].
  apply orb_false_iff in Hd. destruct Hd as [Hda Hdb].
  apply String.eqb_neq in Hda, Hdb, Hdc.
  destruct (match map_get (adjacency e) d with
            | Some s => set_has s a
            | None => false
            end) eqn:Hback; [exact Hst|].
  destruct (isTemporalChain e a b c d); cbn [negb]; [|exact Hst].
  destruct (Qltb (shellRisk e a b c d) (b64 (6 # 10))); [exact Hst|].
  destruct (set_has (snd st) (join "|" [a; b; c; d])) eqn:Hseen; cbn [negb];
    [exact Hst|].
  destruct Hst as [Hshape [Hkeys Hnd]].
  split; [|split]; cbn [fst snd].
  - intros ring Hin. apply in_app_or in Hin.
    destruct Hin as [Hin|[Hin|[]]]; [now apply Hshape|].
    subst ring. exists a, b, c, d, neighborsA. cbn [accounts].
    repeat (split; [assumption || reflexivity|]).
    unfold neighborsOf. destruct (map_get (adjacency e) d) as [s|]; [|intros []].
    now apply set_has_false.
  - unfold set_add. rewrite Hseen, map_app, Hkeys. reflexivity.
  - now apply set_add_NoDup.
Qed.

Lemma shellStepC_seen e cyc a b neighborsA st c :
  In (a, neighborsA) (adjacency e) -> In b neighborsA ->
  In c (neighborsOf e b) ->
  shellSeen e st -> shellSeen e (shellStepC e cyc a b st c).
Proof.
  intros Ha Hab Hbc Hst. unfold shellStepC.
  destruct (set_has cyc c); [exact Hst|].
  destruct (isShellIntermediate e c); cbn [negb]; [|exact Hst].
  destruct (c =? a) eqn:Hca; [exact Hst|].
  apply String.eqb_neq in Hca.
  apply (fold_left_invariant (shellSeen e)); [|exact Hst].
  intros s d Hd Hs. now apply (shellStepD_seen e a b c neighborsA).
Qed.

Lemma shellStepB_seen e cyc a neighborsA st b :
  In (a, neighborsA) (adjacency e) -> In b neighborsA ->
  shellSeen e st -> shellSeen e (shellStepB e cyc a st b).
Proof.
  intros Ha Hab Hst. unfold shellStepB.
  destruct (set_has cyc b); [exact Hst|].
  destruct (isShellIntermediate e b); cbn [negb]; [|exact Hst].
  apply (fold_left_invariant (shellSeen e)); [|exact Hst].
  intros s c Hc Hs. now apply (shellStepC_seen e cyc a b neighborsA).
Qed.

Lemma shellStepA_seen e cyc st entry :
  In entry (adjacency e) ->
  shellSeen e st -> shellSeen e (shellStepA e cyc st entry).
Proof.
  intros Hentry Hst. unfold shellStepA. destruct entry as [a neighborsA].
  destruct (isMerchant e a None None); [exact Hst|].
  destruct (set_has cyc a); [exact Hst|].
  apply (fold_left_invariant (shellSeen e)); [|exact Hst].
  intros s b Hb Hs. now apply (shellStepB_seen e cyc a neighborsA).
Qed.

Lemma detectShell_seen e cyc :
  shellSeen e (fold_left (shellStepA e cyc) (adjacency e) ([], [])).
Proof.
  apply (fold_left_invariant (shellSeen e)).
  - intros s entry Hentry Hs. now apply shellStepA_seen.
  - split; [intros r []|]. split; [reflexivity | constructor].
Qed.

(** X12. Shape of an emitted shell chain [a, b, c, d]: [a] is a key of
    the adjacency map with [b] among its neighbours, [c] is a neighbour of
    [b] and [d] a neighbour of [c]; [c] differs from [a], [d] differs from
    [a], [b] and [c], and there is no edge from [d] back to [a]. *)
Theorem detectShell_chain_shape e cyc ring :
  In ring (detectShell e cyc) -> shellShape e ring.
Proof. intros Hin. now apply (proj1 (detectShell_seen e cyc)). Qed.

(** X13. The shell detector emits no chain twice: the member lists of the
    candidates it returns are pairwise different. *)
Theorem detectShell_no_repeats e cyc : NoDup (map accounts (detectShell e cyc)).
Proof.
  unfold detectShell.
  destruct (detectShell_seen e cyc) as [_ [Hkeys Hnd]].
  rewrite Hkeys in Hnd.
  set (rings := fst (fold_left (shellStepA e cyc) (adjacency e) ([], []))) in *.
  clearbody rings. clear Hkeys.
  induction rings as [|x rings IH]; simpl; [constructor|].
  inversion Hnd as [|k ks Hx Hrest]; subst.
  constructor; [|now apply IH].
  intros Hin. apply Hx. apply in_map_iff in Hin. destruct Hin as [y [Heq Hy]].
  apply in_map_iff. exists y. split; [|exact Hy].
  unfold shellKey. now rewrite Heq.
Qed.

(** * The helper predicates of the detectors *)

Lemma isTemporalChain_times e a b c d :
  isTemporalChain e a b c d = true ->
  exists x y z : Z,
    getTxTime e a b = Some (Num x) /\
    getTxTime e b c = Some (Num y) /\
    getTxTime e c d = Some (Num z) /\
    x <> 0%Z /\ y <> 0%Z /\ z <> 0%Z /\ (x < y)%Z /\ (y < z)%Z.
Proof.
  unfold isTemporalChain. cbv zeta.
  assert (Hnone : forall o, falsy o = false -> exists v : Z, o = Some (Num v) /\ v <> 0%Z).
  { intros [[|v]|]; simpl; try discriminate.
    intros H. exists v. split; [reflexivity | now apply Z.eqb_neq]. }
  destruct (falsy (getTxTime e a b)) eqn:Fab; [discriminate|].
  destruct (falsy (getTxTime e b c)) eqn:Fbc; [discriminate|].
  destruct (falsy (getTxTime e c d)) eqn:Fcd; [discriminate|].
  cbn [orb].
  destruct (Hnone _ Fab) as [x [-> Hx]].
  destruct (Hnone _ Fbc) as [y [-> Hy]].
  destruct (Hnone _ Fcd) as [z [-> Hz]].
  cbn [toNumber num_lt]. intros H. apply andb_true_iff in H.
  destruct H as [H1 H2]. apply Z.ltb_lt in H1, H2.
  exists x, y, z. repeat split; assumption.
Qed.

(** X14. [isTemporalChain] accepts the hops a -> b, b -> c, c -> d exactly
    when each of them has a first transaction, the three cached times are
    numbers other than [NaN] and other than 0, and they increase
    strictly. *)
Theorem isTemporalChain_spec e a b c d :
  isTemporalChain e a b c d = true <->
  exists x y z : Z,
    getTxTime e a b = Some (Num x) /\
    getTxTime e b c = Some (Num y) /\
    getTxTime e c d = Some (Num z) /\
    x <> 0%Z /\ y <> 0%Z /\ z <> 0%Z /\ (x < y)%Z /\ (y < z)%Z.
Proof.
  split; [apply isTemporalChain_times|].
  unfold isTemporalChain. cbv zeta.
  intros [x [y [z [-> [-> [-> [Hx [Hy [Hz [H1 H2]]]]]]]]]].
  cbn [falsy toNumber num_lt].
  apply Z.eqb_neq in Hx, Hy, Hz. rewrite Hx, Hy, Hz. cbn [orb].
  apply andb_true_iff. split; now apply Z.ltb_lt.
Qed.



(** X16. The merchant filter only fires on volume: an account whose
    fan-in (the override, or else the number of its incoming transactions)
    is at most 100 and that sends to at most 100 distinct receivers is not
    a merchant, whatever its amounts. *)
Theorem isMerchant_needs_volume e account fanIn avgAmount :
  match fanIn with
  | Some n => n
  | None => length (incomingOf e account)
  end <= MERCHANT_IN_THRESHOLD ->
  length (set_of_list (map (fun t : Tx => receiver_id t) (outgoingOf e account)))
    <= MERCHANT_IN_THRESHOLD ->
  isMerchant e account fanIn avgAmount = false.
Proof.
  intros Hin Hout. unfold isMerchant. cbv zeta.
  apply Nat.ltb_ge in Hin, Hout. rewrite Hin, Hout. reflexivity.
Qed.

Lemma isMerchant_needs_volume_witness :
  length (incomingOf (DetectionEngine isoTime hubBatch) "H") <= MERCHANT_IN_THRESHOLD /\
  length (set_of_list (map (fun t : Tx => receiver_id t)
                           (outgoingOf (DetectionEngine isoTime hubBatch) "H")))
    <= MERCHANT_IN_THRESHOLD /\
  isMerchant (DetectionEngine isoTime hubBatch) "H" None None = false.
Proof.
  assert (H1 : length (incomingOf (DetectionEngine isoTime hubBatch) "H")
               <= MERCHANT_IN_THRESHOLD).
  { apply Nat.leb_le. vm_compute. reflexivity. }
  assert (H2 : length (set_of_list (map (fun t : Tx => receiver_id t)
                         (outgoingOf (DetectionEngine isoTime hubBatch) "H")))
               <= MERCHANT_IN_THRESHOLD).
  { apply Nat.leb_le. vm_compute. reflexivity. }
  exact (conj H1 (conj H2 (isMerchant_needs_volume _ "H" None None H1 H2))).
Defined.

(** X17. The payroll branch of the merchant filter: an account that sends
    to more than 100 distinct receivers and has at most 5 incoming
    transactions is a merchant, whatever fan-in and average amount the
    caller passes. *)
Theorem payroll_account_is_merchant e account fanIn avgAmount :
  MERCHANT_IN_THRESHOLD <
    length (set_of_list (map (fun t : Tx => receiver_id t) (outgoingOf e account))) ->
  length (incomingOf e account) <= 5 ->
  isMerchant e account fanIn avgAmount = true.
Proof.
  intros Hout Hin. unfold isMerchant. cbv zeta.
  apply Nat.ltb_lt in Hout. apply Nat.leb_le in Hin. rewrite Hout, Hin.
  destruct (_ && _ && _); reflexivity.
Qed.

Lemma payroll_account_is_merchant_witness :
  MERCHANT_IN_THRESHOLD <
    length (set_of_list (map (fun t : Tx => receiver_id t)
                             (outgoingOf (DetectionEngine isoTime payrollBatch) "P"))) /\
  length (incomingOf (DetectionEngine isoTime payrollBatch) "P") <= 5 /\
  isMerchant (DetectionEngine isoTime payrollBatch) "P" None None = true.
Proof.
  assert (H1 : MERCHANT_IN_THRESHOLD <
               length (set_of_list (map (fun t : Tx => receiver_id t)
                         (outgoingOf (DetectionEngine isoTime payrollBatch) "P")))).
  { apply Nat.ltb_lt. vm_compute. reflexivity. }
  assert (H2 : length (incomingOf (DetectionEngine isoTime payrollBatch) "P") <= 5).
  { apply Nat.leb_le. vm_compute. reflexivity. }
  exact (conj H1 (conj H2 (payroll_account_is_merchant _ "P" None None H1 H2))).
Defined.

(** * The smurfing detector: members of a ring *)

Lemma In_slice {A} (l : list A) (i j : nat) (x : A) : In x (slice l i j) -> In x l.
Proof.
  unfold slice. intros H.
  destruct (In_firstn_nth _ _ _ H) as [k [_ Hk]].
  apply nth_error_In in Hk.
  destruct (In_skipn_nth _ _ _ Hk) as [m [_ Hm]].
  now apply nth_error_In in Hm.
Qed.

(** Whatever the times are, the window that the scan keeps is a piece of
    the list it scans. *)
Lemma densestWindow_incl (incoming bestWindow : list Tx) :
  densestWindow incoming = Returned bestWindow ->
  forall t, In t bestWindow -> In t incoming.
Proof.
  unfold densestWindow.
  destruct (foldM (windowStep incoming) (seq 0 (length incoming)) (0, []))
    as [st| |] eqn:Hfold; cbn [bind]; try discriminate.
  intros H. injection H as <-. revert Hfold.
  apply (foldM_invariant (fun s : nat * list Tx => forall t, In t (snd s) -> In t incoming));
    [|intros t []].
  intros s right s' _ Hs Hstep. unfold windowStep in Hstep.
  destruct (nth_error incoming right) as [tr|]; [|discriminate].
  destruct (advanceLeft _ incoming (_time tr) (fst s)) as [left'| |];
    cbn [bind] in Hstep; try discriminate.
  injection Hstep as <-. cbn [snd].
  destruct (length (snd s) <? length (slice incoming left' (right + 1)))%nat.
  - intros t Ht. now apply In_slice in Ht.
  - exact Hs.
Qed.

Lemma set_of_list_head (x : string) (l : list string) :
  hd_error (set_of_list (x :: l)) = Some x.
Proof.
  unfold set_of_list. cbn [fold_left]. unfold set_add at 2. cbn [set_has existsb app].
  assert (H : forall s, hd_error (fold_left set_add l (x :: s)) = Some x).
  { induction l as [|y l IH]; intros s; [reflexivity|].
    cbn [fold_left]. unfold set_add at 2.
    destruct (set_has (x :: s) y); [apply IH|].
    rewrite <- app_comm_cons. apply IH. }
  apply H.
Qed.

Lemma sortedIncoming_In (account : string) (txs : list Tx) (t : Tx) :
  In t (sortedIncoming account txs) -> In t txs /\ receiver_id t = account.
Proof.
  unfold sortedIncoming. intros H. apply jsSort_In in H.
  apply filter_In in H. destruct H as [H1 H2]. split; [exact H1|].
  now apply String.eqb_eq.
Qed.

Lemma smurfing_ring_facts e rings ring :
  detectSmurfing e = Returned rings ->
  In ring rings ->
  exists account txs,
    In (account, txs) (accountTx e) /\
    isMerchant e account None None = false /\
    hd_error (accounts ring) = Some account /\
    NoDup (accounts ring) /\
    MIN_UNIQUE <= length (accounts ring) /\
    (forall x, In x (accounts ring) -> counterparty account txs x) /\
    (SMURFING_RISK_THRESHOLD <= risk ring <= 1)%Q.
Proof.
  intros Hrun Hin.
  destruct (detectSmurfing_emission e rings ring Hrun Hin) as [account [txs [Hentry Hc]]].
  destruct (smurfCandidate_emission e account txs ring Hc)
    as [bestWindow [first [Hm [Hbest [Hfirst [_ [Hsenders [Hrisk [Hthr Hacc]]]]]]]]].
  exists account, txs. split; [exact Hentry|]. split; [exact Hm|].
  set (receivers := uniqueReceiversOf account txs (_time first)) in *.
  set (members := if (MIN_UNIQUE <=? length receivers)%nat
                  then account :: uniqueSendersOf bestWindow ++ receivers
                  else account :: uniqueSendersOf bestWindow) in *.
  assert (Hmem : exists rest, members = account :: uniqueSendersOf bestWindow ++ rest /\
                              (forall x, In x rest -> In x receivers)).
  { unfold members. destruct (MIN_UNIQUE <=? length receivers)%nat.
    - exists receivers. split; [reflexivity | auto].
    - exists []. split; [now rewrite app_nil_r | intros x []]. }
  destruct Hmem as [rest [Hmembers Hrest]].
  rewrite Hacc, Hmembers.
  split; [apply set_of_list_head|]. split; [apply set_of_list_NoDup|]. split; [|split].
  - apply Nat.le_trans with (1 := Hsenders).
    apply NoDup_incl_length; [apply set_of_list_NoDup|].
    intros x Hx. apply set_of_list_In. right. apply in_app_iff. now left.
  - intros x Hx. apply (proj1 (set_of_list_In _ x)) in Hx.
    destruct Hx as [<-|Hx]; [now left|].
    right. apply in_app_iff in Hx. destruct Hx as [Hx|Hx].
    + unfold uniqueSendersOf in Hx. apply (proj1 (set_of_list_In _ x)) in Hx.
      apply in_map_iff in Hx.
      destruct Hx as [t [Hs Ht]].
      apply (densestWindow_incl _ _ Hbest) in Ht.
      apply sortedIncoming_In in Ht. destruct Ht as [Ht Hr].
      exists t. split; [exact Ht|]. left. now split.
    + apply Hrest in Hx. unfold receivers, uniqueReceiversOf in Hx.
      apply (proj1 (set_of_list_In _ x)) in Hx. apply in_map_iff in Hx.
      destruct Hx as [t [Hr Ht]].
      apply filter_In in Ht. destruct Ht as [Ht Hcond].
      apply andb_true_iff in Hcond. destruct Hcond as [Hcond _].
      apply andb_true_iff in Hcond. destruct Hcond as [Hs _].
      apply String.eqb_eq in Hs.
      exists t. split; [exact Ht|]. right. now split.
  - split; [exact Hthr|]. rewrite Hrisk. apply smurfRisk_range.
Qed.

(** X18. The members of a smurfing ring: the list starts with the account
    in the middle, which is a key of [accountTx] and no merchant; it
    names no account twice and has at least 10 entries; every member
    other than the account itself sent to it or received from it in one
    of its transactions; and the risk of the ring lies between the
    threshold 0.65 and 1. *)
Theorem smurfing_ring_members e rings ring :
  detectSmurfing e = Returned rings ->
  In ring rings ->
  exists account txs,
    In (account, txs) (accountTx e) /\
    isMerchant e account None None = false /\
    hd_error (accounts ring) = Some account /\
    NoDup (accounts ring) /\
    MIN_UNIQUE <= length (accounts ring) /\
    (forall x, In x (accounts ring) -> counterparty account txs x) /\
    (SMURFING_RISK_THRESHOLD <= risk ring <= 1)%Q.
Proof. apply smurfing_ring_facts. Qed.

(** * The rings of the result, pattern by pattern *)

Section RingsByPattern.

Variable localeCompare : string -> string -> comparison.

(** Each ring of the result comes from one candidate of one detector. *)
Lemma ring_origin e r ring :
  analyze localeCompare e = Returned r ->
  In ring (fraud_rings r) ->
  exists cycles smurfs cycleAccounts,
    detectCycles localeCompare e 3 5 = Returned cycles /\
    detectSmurfing e = Returned smurfs /\
    (forall x, In x cycleAccounts <-> exists c, In c cycles /\ In x c) /\
    ((pattern_type ring = cycle /\ In (member_accounts ring) cycles /\
      risk_score ring = riskScoreOf (85 # 100)) \/
     (pattern_type ring = smurfing /\
      exists c, In c smurfs /\ member_accounts ring = accounts c /\
                risk_score ring = riskScoreOf (risk c)) \/
     (pattern_type ring = shell /\
      exists c, In c (detectShell e cycleAccounts) /\
                member_accounts ring = accounts c /\
                risk_score ring = riskScoreOf (risk c))).
Proof.
  intros Hrun Hin.
  destruct (analyze_parts localeCompare e r Hrun)
    as [cycles [smurfs [cyc [reg [Hc [Hs [Hcyc [_ [_ [Hb [Hr _]]]]]]]]]]].
  exists cycles, smurfs, cyc. split; [exact Hc|]. split; [exact Hs|]. split; [exact Hcyc|].
  rewrite Hr in Hin. apply (in_map ringBody) in Hin. rewrite Hb in Hin.
  unfold ringBody in Hin.
  apply in_app_or in Hin. destruct Hin as [Hin|Hin].
  { left. apply in_map_iff in Hin. destruct Hin as [c [Heq Hin]].
    injection Heq as H1 H2 H3. rewrite <- H1, <- H2, <- H3. now repeat split. }
  right. apply in_app_or in Hin. destruct Hin as [Hin|Hin].
  - left. apply in_map_iff in Hin. destruct Hin as [c [Heq Hin]].
    injection Heq as H1 H2 H3. split; [now rewrite <- H1|].
    exists c. now repeat split.
  - right. apply in_map_iff in Hin. destruct Hin as [c [Heq Hin]].
    injection Heq as H1 H2 H3. split; [now rewrite <- H1|].
    exists c. now repeat split.
Qed.

(** X19. The score of a ring by its pattern: a cycle ring always has
    85.0; a smurfing ring has between 65.0 and 100.0; a shell ring has
    80.0 or 62.5. *)
Theorem ring_scores_by_pattern e r ring :
  analyze localeCompare e = Returned r ->
  In ring (fraud_rings r) ->
  match pattern_type ring with
  | cycle => risk_score ring = (850 # 10)%Q
  | smurfing => (650 # 10 <= risk_score ring <= 1000 # 10)%Q
  | shell => risk_score ring = (800 # 10)%Q \/ risk_score ring = (625 # 10)%Q
  end.
Proof.
  intros Hrun Hin.
  destruct (ring_origin e r ring Hrun Hin)
    as [cycles [smurfs [cyc [_ [Hs [_ [[-> [_ Hscore]]|[[-> Hc]|[-> Hc]]]]]]]]].
  - rewrite Hscore. reflexivity.
  - destruct Hc as [c [Hc [_ ->]]].
    destruct (smurfing_ring_facts e smurfs c Hs Hc)
      as [account [txs [_ [_ [_ [_ [_ [_ [Hlow _]]]]]]]]].
    split.
    + apply (riskScoreOf_mono (65 # 100)) in Hlow. exact Hlow.
    + destruct (riskScoreOf_tenths (risk c)) as [n [-> [[_ Hn] _]]].
      now apply tenths_le.
  - destruct Hc as [c [Hc [_ ->]]].
    destruct (detectShell_sound e cyc c Hc) as [a [b [c0 [d [_ [-> _]]]]]].
    rewrite shellRisk_value.
    destruct (num_lt (shellSpread e a b c0 d) (Num DAY_MS)); [left | right];
      vm_compute; reflexivity.
Qed.

(** X20. Every cycle ring of the result lists the nodes of a simple
    directed cycle of the transaction graph: 3 to 5 different accounts,
    an edge from each one to the next and from the last back to the
    first. *)
Theorem cycle_rings_are_simple_cycles e r ring :
  analyze localeCompare e = Returned r ->
  In ring (fraud_rings r) ->
  pattern_type ring = cycle ->
  simpleCycle e (member_accounts ring) /\ 3 <= length (member_accounts ring) <= 5.
Proof.
  intros Hrun Hin Hp.
  destruct (ring_origin e r ring Hrun Hin)
    as [cycles [smurfs [cyc [Hc [_ [_ [[_ [Hmem _]]|[[Hq _]|[Hq _]]]]]]]]];
    try congruence.
  exact (detectCycles_sound localeCompare e 3 5 cycles _ Hc Hmem).
Qed.

End RingsByPattern.

(** * The analysis of a batch *)

Section AnalysisOfBatch.

Variable Date_getTime : string -> JsNum.
Variable localeCompare : string -> string -> comparison.

Lemma inBatch_cached (txs : list Transaction) (x : string) :
  In x (allAccountsOf (map (cacheTime Date_getTime) txs)) <-> inBatch txs x.
Proof.
  rewrite allAccountsOf_In. unfold inBatch. split.
  - intros [t [Ht Hx]]. apply in_map_iff in Ht. destruct Ht as [t0 [<- Ht0]].
    now exists t0.
  - intros [t [Ht Hx]]. exists (cacheTime Date_getTime t).
    split; [now apply in_map | exact Hx].
Qed.

Lemma allAccountsOf_NoDup (l : list Tx) : NoDup (allAccountsOf l).
Proof.
  unfold allAccountsOf.
  apply (fold_left_invariant (fun s : JsSet => NoDup s)); [|constructor].
  intros s x _ Hs. now apply set_add_NoDup, set_add_NoDup.
Qed.

(** What the maps of a freshly built engine hold. *)
Lemma built_engine (txs : list Transaction) :
  let e := DetectionEngine Date_getTime txs in
  (forall a neighborsA b, In (a, neighborsA) (adjacency e) -> In b neighborsA ->
                          hasEdge e a b) /\
  (forall u v, hasEdge e u v -> inBatch txs u /\ inBatch txs v) /\
  (forall a, In a (map_keys (adjacency e)) -> inBatch txs a) /\
  (forall a l, In (a, l) (accountTx e) ->
               inBatch txs a /\
               forall t, In t l -> inBatch txs (sender_id t) /\ inBatch txs (receiver_id t)).
Proof.
  cbv zeta.
  destruct (buildGraph_state (map (cacheTime Date_getTime) txs))
    as [Hk1 [Hk2 [Hg1 Hg2]]].
  cbv zeta in Hk1, Hk2, Hg1, Hg2.
  set (e := DetectionEngine Date_getTime txs).
  change (fst (fold_left buildGraph_step (map (cacheTime Date_getTime) txs) ([], [])))
    with (adjacency e) in Hk1, Hg1.
  change (snd (fold_left buildGraph_step (map (cacheTime Date_getTime) txs) ([], [])))
    with (accountTx e) in Hk2, Hg2.
  assert (Hcached : forall t, In t (map (cacheTime Date_getTime) txs) ->
                              inBatch txs (sender_id t) /\ inBatch txs (receiver_id t)).
  { intros t Ht. apply in_map_iff in Ht. destruct Ht as [t0 [<- Ht0]].
    split; exists t0; (split; [exact Ht0|]); [now left | now right]. }
  assert (Hedge : forall u v, hasEdge e u v -> inBatch txs u /\ inBatch txs v).
  { intros u v Huv. unfold hasEdge, neighborsOf in Huv. rewrite Hg1 in Huv.
    destruct (set_has _ u); [|destruct Huv].
    unfold receiversOf in Huv. apply (proj1 (set_of_list_In _ v)) in Huv.
    apply in_map_iff in Huv. destruct Huv as [t [Hv Ht]].
    apply filter_In in Ht. destruct Ht as [Ht Hu]. apply String.eqb_eq in Hu.
    destruct (Hcached t Ht) as [H1 H2]. rewrite Hu in H1. rewrite Hv in H2.
    now split. }
  assert (Hnd1 : NoDup (map_keys (adjacency e))).
  { rewrite Hk1. apply set_of_list_NoDup. }
  assert (Hnd2 : NoDup (map_keys (accountTx e))).
  { rewrite Hk2. apply allAccountsOf_NoDup. }
  split; [|split; [exact Hedge|split]].
  - intros a nA b Ha Hb. unfold hasEdge, neighborsOf.
    now rewrite (In_map_get _ _ _ Hnd1 Ha).
  - intros a Ha. rewrite Hk1 in Ha. unfold sendersOf in Ha.
    apply (proj1 (set_of_list_In _ a)) in Ha.
    apply in_map_iff in Ha. destruct Ha as [t [<- Ht]]. now apply Hcached.
  - intros a l Hal. split.
    + apply inBatch_cached. rewrite <- Hk2. apply in_map_iff. now exists (a, l).
    + intros t Ht.
      pose proof (In_map_get _ _ _ Hnd2 Hal) as Hget. rewrite Hg2 in Hget.
      destruct (set_has _ a); [|discriminate]. injection Hget as <-.
      apply in_flat_map in Ht. destruct Ht as [t0 [Ht0 Hpush]].
      unfold pushesOf in Hpush. apply in_app_iff in Hpush.
      assert (Heq : t = t0).
      { destruct Hpush as [H|H].
        - destruct (sender_id t0 =? a); [|destruct H]. destruct H as [H|[]]. now symmetry.
        - destruct (receiver_id t0 =? a); [|destruct H]. destruct H as [H|[]]. now symmetry. }
      subst t0. now apply Hcached.
Qed.

(** Every member of every ring is an account of the batch. *)
Lemma ring_members_in_batch (txs : list Transaction) r ring x :
  runAnalysis Date_getTime localeCompare txs = Returned r ->
  In ring (fraud_rings r) -> In x (member_accounts ring) -> inBatch txs x.
Proof.
  unfold runAnalysis. intros Hrun Hring Hx.
  destruct (built_engine txs) as [Hentry [Hedge [Hkeys Hacc]]]. cbv zeta in *.
  set (e := DetectionEngine Date_getTime txs) in *.
  destruct (ring_origin localeCompare e r ring Hrun Hring)
    as [cycles [smurfs [cyc [Hc [Hs [_ [[_ [Hmem _]]|[[_ Hcand]|[_ Hcand]]]]]]]]].
  - destruct (detectCycles_sound localeCompare e 3 5 cycles _ Hc Hmem) as [Hcycle _].
    apply Hkeys. exact (simpleCycle_nodes_are_keys e _ x Hcycle Hx).
  - destruct Hcand as [c [Hc' [Hm _]]]. rewrite Hm in Hx.
    destruct (smurfing_ring_facts e smurfs c Hs Hc')
      as [account [l [Hal [_ [_ [_ [_ [Hcp _]]]]]]]].
    destruct (Hacc account l Hal) as [Ha Hl].
    destruct (Hcp x Hx) as [->|[t [Ht [[_ <-]|[_ <-]]]]].
    + exact Ha.
    + exact (proj1 (Hl t Ht)).
    + exact (proj2 (Hl t Ht)).
  - destruct Hcand as [c [Hc' [Hm _]]]. rewrite Hm in Hx.
    destruct (proj1 (detectShell_seen e cyc) c Hc')
      as [a [b [c0 [d [nA [Hacc' [Ha [Hab [Hbc [Hcd _]]]]]]]]]].
    rewrite Hacc' in Hx.
    pose proof (Hedge a b (Hentry a nA b Ha Hab)) as [Hia Hib].
    pose proof (Hedge b c0 Hbc) as [_ Hic].
    pose proof (Hedge c0 d Hcd) as [_ Hid].
    destruct Hx as [<-|[<-|[<-|[<-|[]]]]]; assumption.
Qed.

(** X21. The analysis never flags an account that is not in its input:
    every member of every ring and every suspicious account is the sender
    or the receiver of some transaction of the batch, and the number of
    suspicious accounts does not exceed the number of accounts analysed. *)
Theorem only_batch_accounts_flagged (txs : list Transaction) r :
  runAnalysis Date_getTime localeCompare txs = Returned r ->
  (forall ring x, In ring (fraud_rings r) -> In x (member_accounts ring) ->
                  inBatch txs x) /\
  (forall sa, In sa (suspicious_accounts r) -> inBatch txs (account_id sa)) /\
  suspicious_accounts_flagged (summary r) <= total_accounts_analyzed (summary r).
Proof.
  intros Hrun.
  assert (Hrings : forall ring x, In ring (fraud_rings r) -> In x (member_accounts ring) ->
                                  inBatch txs x).
  { intros ring x. now apply ring_members_in_batch. }
  unfold runAnalysis in Hrun.
  destruct (analyze_parts localeCompare _ r Hrun)
    as [cycles [smurfs [cyc [reg [_ [_ [_ [Hok [_ [_ [Hr [Hs Hsum]]]]]]]]]]]].
  destruct (registry_suspects _ reg Hok) as [Hnodup Hrec].
  assert (Hsusp : forall sa, In sa (suspicious_accounts r) -> inBatch txs (account_id sa)).
  { intros sa Hin. rewrite Hs in Hin. destruct (Hrec sa Hin) as [k Hk].
    destruct (registry_record _ reg k sa Hok Hk) as [Hid [_ [ring [H1 [H2 _]]]]].
    rewrite Hid. apply (Hrings ring); [now rewrite Hr | exact H2]. }
  split; [exact Hrings|]. split; [exact Hsusp|].
  rewrite Hsum. cbn [suspicious_accounts_flagged total_accounts_analyzed].
  rewrite <- (length_map account_id).
  apply NoDup_incl_length; [now rewrite Hs|].
  intros x Hx. apply in_map_iff in Hx. destruct Hx as [sa [<- Hsa]].
  cbn [transactions DetectionEngine]. apply inBatch_cached. now apply Hsusp.
Qed.

(** X22. The summary of an analysis: [total_accounts_analyzed] is the
    number of different account ids that occur as sender or receiver in
    the batch, and the two other counters are the lengths of the two lists
    of the result. *)
Theorem summary_counts (txs : list Transaction) r :
  runAnalysis Date_getTime localeCompare txs = Returned r ->
  (exists ids, NoDup ids /\ (forall x, In x ids <-> inBatch txs x) /\
               total_accounts_analyzed (summary r) = length ids) /\
  suspicious_accounts_flagged (summary r) = length (suspicious_accounts r) /\
  fraud_rings_detected (summary r) = length (fraud_rings r).
Proof.
  unfold runAnalysis. intros Hrun.
  destruct (analyze_parts localeCompare _ r Hrun)
    as [cycles [smurfs [cyc [reg [_ [_ [_ [_ [_ [_ [_ [_ Hsum]]]]]]]]]]]].
  rewrite Hsum. cbn [total_accounts_analyzed suspicious_accounts_flagged fraud_rings_detected].
  split; [|split; reflexivity].
  exists (allAccountsOf (map (cacheTime Date_getTime) txs)).
  split; [apply allAccountsOf_NoDup|]. split; [apply inBatch_cached | reflexivity].
Qed.

(** X23. The empty batch: the analysis returns no suspicious account, no
    ring and a summary of zeros. *)
Theorem empty_batch_empty_result :
  runAnalysis Date_getTime localeCompare [] =
  Returned {| suspicious_accounts := [];
              fraud_rings := [];
              summary := {| total_accounts_analyzed := 0;
                            suspicious_accounts_flagged := 0;
                            fraud_rings_detected := 0 |} |}.
Proof. reflexivity. Qed.

End AnalysisOfBatch.

(** * The cycle detector: keys and repetitions *)

Lemma Forall2_NoDup {K P} (R : K -> P -> Prop) (ks : list K) (ps : list P) :
  (forall k k' p, R k p -> R k' p -> k = k') ->
  Forall2 R ks ps -> NoDup ks -> NoDup ps.
Proof.
  intros Hfun. induction 1 as [|k p ks ps Hkp Hrest IH]; intros Hnd; [constructor|].
  inversion Hnd as [|k0 ks0 Hk Hks]; subst.
  constructor; [|now apply IH].
  intros Hin. destruct (Forall2_key_of R ks ps p Hrest Hin) as [k' [Hk' Hk'p]].
  assert (k' = k) by (eapply Hfun; eassumption). subst k'. contradiction.
Qed.

Section CycleKeys.

Variable localeCompare : string -> string -> comparison.

(** X24. [canonicalize] raises on the empty array, where no rotation
    exists to take the key from; on every other array it returns the
    members of one rotation of the array or of its reversal, joined by
    bars, whatever the comparator does. *)
Theorem canonicalize_picks_rotation (x : string) (l : list string) :
  canonicalize localeCompare [] = Thrown /\
  exists r, canonicalize localeCompare (x :: l) = Returned (join "|" r) /\
            sameRing (x :: l) r.
Proof.
  split; [reflexivity|].
  unfold canonicalize. cbv zeta.
  set (rotations := rotationsOf (x :: l) ++ rotationsOf (rev (x :: l))).
  destruct (jsSort (rotationGt localeCompare) rotations) as [|r rest] eqn:Hsort.
  - exfalso.
    assert (Hlen : length (jsSort (rotationGt localeCompare) rotations) = length rotations)
      by apply jsSort_length.
    rewrite Hsort in Hlen. unfold rotations in Hlen.
    rewrite length_app, rotationsOf_length in Hlen. simpl in Hlen. lia.
  - exists r. split; [reflexivity|].
    apply (canonical_candidates_spec (x :: l) r); [discriminate|].
    fold rotations. apply (jsSort_In (rotationGt localeCompare)). rewrite Hsort. now left.
Qed.

Variable e : Engine.
Variables min max : nat.

Lemma detectCycles_keys cycles :
  detectCycles localeCompare e min max = Returned cycles ->
  exists st, results st = cycles /\ keysOk localeCompare st.
Proof.
  unfold detectCycles.
  destruct (foldM _ (map_keys (adjacency e)) _) as [st| |] eqn:Hfold;
    cbn [bind]; try discriminate.
  intros H. injection H as <-. exists st. split; [reflexivity|].
  revert Hfold. apply (foldM_invariant (keysOk localeCompare)).
  - intros s node s' _ Hs Hrun.
    destruct (dfs_frame localeCompare e min max _ _ _ _ _ _ Hrun) as [_ [_ Hk]].
    apply Hk. exact Hs.
  - split; constructor.
Qed.

(** X25. The cycle detector returns no node sequence twice, and no two
    of the sequences it returns have the same canonical key: the set of
    emitted keys does what it is there for, whatever the ids and the
    comparator are. *)
Theorem detectCycles_no_repeats cycles :
  detectCycles localeCompare e min max = Returned cycles ->
  NoDup cycles /\
  forall c1 c2 key,
    In c1 cycles -> In c2 cycles ->
    canonicalize localeCompare c1 = Returned key ->
    canonicalize localeCompare c2 = Returned key ->
    c1 = c2.
Proof.
  intros Hrun. destruct (detectCycles_keys cycles Hrun) as [st [<- Hok]].
  split.
  - destruct Hok as [Hf Hnd].
    refine (Forall2_NoDup _ _ _ _ Hf Hnd).
    intros k k' p H1 H2. rewrite H1 in H2. now injection H2.
  - intros c1 c2 key H1 H2 K1 K2.
    exact (keysOk_unique localeCompare st c1 c2 key Hok H1 H2 K1 K2).
Qed.

End CycleKeys.

Section KeyIdentifiesRing.

Variable localeCompare : string -> string -> comparison.
Hypothesis cmp_eq : forall x y, localeCompare x y = Eq -> x = y.
Hypothesis cmp_antisym : forall x y, localeCompare x y = CompOpp (localeCompare y x).
Hypothesis cmp_trans :
  forall x y z, localeCompare x y = Lt -> localeCompare y z = Lt -> localeCompare x z = Lt.

(** X26. Where the canonical key does its job: for two non-empty node
    sequences whose ids contain neither a comma nor a bar, and a comparator
    that is a strict total order, the keys are equal exactly when one
    sequence is a rotation of the other or of its reversal. *)
Theorem canonicalize_key_identifies_ring (arr arr' : list string) :
  arr <> [] -> arr' <> [] ->
  (forall x, In x arr -> noComma x = true /\ noBar x = true) ->
  (forall x, In x arr' -> noBar x = true) ->
  (canonicalize localeCompare arr = canonicalize localeCompare arr' <->
   sameRing arr arr').
Proof.
  intros Hne Hne' Hplain Hbar'. split.
  - intros Heq.
    destruct (canonicalize_total localeCompare arr Hne) as [k Hk].
    assert (Hk' : canonicalize localeCompare arr' = Returned k) by congruence.
    destruct (canonicalize_least localeCompare cmp_eq cmp_antisym cmp_trans arr k Hne Hk)
      as [r [Hr [Hsame _]]].
    destruct (canonicalize_least localeCompare cmp_eq cmp_antisym cmp_trans arr' k Hne' Hk')
      as [r' [Hr' [Hsame' _]]].
    assert (Hrr : r = r').
    { apply (join_sep_inj "|"%char).
      - intros ->. apply sameRing_length in Hsame. destruct arr; [congruence|discriminate].
      - intros ->. apply sameRing_length in Hsame'. destruct arr'; [congruence|discriminate].
      - intros x Hx. apply Hplain. exact (sameRing_In _ _ _ Hsame Hx).
      - intros x Hx. apply Hbar'. exact (sameRing_In _ _ _ Hsame' Hx).
      - change (join "|" r = join "|" r'). congruence. }
    subst r'. exact (sameRing_trans _ _ _ Hsame (sameRing_sym _ _ Hsame')).
  - intros Hsame. symmetry.
    apply (canonicalize_invariant localeCompare cmp_eq cmp_antisym cmp_trans arr arr' Hne);
      [|exact Hsame].
    intros x Hx. now apply Hplain.
Qed.

End KeyIdentifiesRing.

Lemma canonicalize_key_identifies_ring_witness :
  (canonicalize String.compare ["D"; "E"; "F"] = canonicalize String.compare ["F"; "E"; "D"]
   <-> sameRing ["D"; "E"; "F"] ["F"; "E"; "D"]) /\
  sameRing ["D"; "E"; "F"] ["F"; "E"; "D"].
Proof.
  split.
  - apply (canonicalize_key_identifies_ring String.compare
             String.compare_eq_iff String.compare_antisym String_compare_trans).
    + discriminate.
    + discriminate.
    + intros x Hx. cbn [In] in Hx.
      repeat (destruct Hx as [<-|Hx]; [split; reflexivity|]). destruct Hx.
    + intros x Hx. cbn [In] in Hx.
      repeat (destruct Hx as [<-|Hx]; [reflexivity|]). destruct Hx.
  - right. exists [], ["F"; "E"; "D"]. split; reflexivity.
Defined.

(** * Timing of a shell chain *)

(** The first and the last hop of an emitted chain decide its risk. *)
Lemma shell_chain_risk e cyc ring :
  In ring (detectShell e cyc) ->
  exists a b c d (x y z : Z),
    accounts ring = [a; b; c; d] /\
    getTxTime e a b = Some (Num x) /\
    getTxTime e b c = Some (Num y) /\
    getTxTime e c d = Some (Num z) /\
    (x < y)%Z /\ (y < z)%Z /\
    risk ring = if (z - x <? DAY_MS)%Z then shellRiskFast else shellRiskSlow.
Proof.
  intros Hin.
  destruct (detectShell_sound e cyc ring Hin)
    as [a [b [c [d [Hacc [Hrisk [_ [_ [_ [_ [_ [_ [_ [_ Ht]]]]]]]]]]]]]].
  destruct (isTemporalChain_times e a b c d Ht)
    as [x [y [z [Hab [Hbc [Hcd [_ [_ [_ [Hxy Hyz]]]]]]]]]].
  exists a, b, c, d, x, y, z.
  split; [exact Hacc|]. split; [exact Hab|]. split; [exact Hbc|]. split; [exact Hcd|].
  split; [exact Hxy|]. split; [exact Hyz|].
  rewrite Hrisk, shellRisk_value. unfold shellSpread. rewrite Hab, Hcd.
  reflexivity.
Qed.

(** X27. Timing of an emitted shell chain [a, b, c, d]: the first
    transfers a -> b, b -> c and c -> d have parsed, non-zero times in
    strictly increasing order, so the spread from the first hop to the
    last is positive; the risk of the chain is the binary64 number
    0.7999999999999999 ([shellRiskFast], the result of 0.7 * 1 + 0.1) when
    that spread is under 24 hours and the binary64 number
    0.6249999999999999 ([shellRiskSlow], the result of 0.7 * 0.75 + 0.1)
    otherwise; the scores are 80.0 and 62.5. *)
Theorem shell_chain_timing e cyc ring :
  In ring (detectShell e cyc) ->
  exists a b c d (x y z : Z),
    accounts ring = [a; b; c; d] /\
    getTxTime e a b = Some (Num x) /\
    getTxTime e b c = Some (Num y) /\
    getTxTime e c d = Some (Num z) /\
    (x < y)%Z /\ (y < z)%Z /\
    risk ring = (if (z - x <? DAY_MS)%Z then shellRiskFast else shellRiskSlow) /\
    riskScoreOf (risk ring) = (if (z - x <? DAY_MS)%Z then 800 # 10 else 625 # 10)%Q.
Proof.
  intros Hin.
  destruct (shell_chain_risk e cyc ring Hin)
    as [a [b [c [d [x [y [z [H1 [H2 [H3 [H4 [H5 [H6 H7]]]]]]]]]]]]].
  exists a, b, c, d, x, y, z.
  refine (conj H1 (conj H2 (conj H3 (conj H4 (conj H5 (conj H6 (conj H7 _))))))).
  rewrite H7. destruct (z - x <? DAY_MS)%Z; vm_compute; reflexivity.
Qed.

(** * The theorems at work on the example batches *)

(** On [chainIntoCycle] the analysis registers a cycle ring and a shell
    ring. *)
Lemma ring_ids_are_sequential_witness :
  exists r,
    analyze String.compare (DetectionEngine isoTime chainIntoCycle) = Returned r /\
    map ring_id (fraud_rings r) = map ringIdOf (seq 1 (length (fraud_rings r))).
Proof.
  eexists.
  match goal with
  | |- ?A = Returned ?r /\ _ =>
      assert (H1 : A = Returned r) by (vm_compute; reflexivity)
  end.
  exact (conj H1 (ring_ids_are_sequential String.compare _ _ H1)).
Defined.

Lemma ring_ids_are_distinct_witness :
  exists r,
    analyze String.compare (DetectionEngine isoTime chainIntoCycle) = Returned r /\
    NoDup (map ring_id (fraud_rings r)).
Proof.
  eexists.
  match goal with
  | |- ?A = Returned ?r /\ _ =>
      assert (H1 : A = Returned r) by (vm_compute; reflexivity)
  end.
  exact (conj H1 (ring_ids_are_distinct String.compare _ _ H1)).
Defined.

Lemma suspicious_accounts_sorted_witness :
  exists r,
    analyze String.compare (DetectionEngine isoTime chainIntoCycle) = Returned r /\
    StronglySorted scoreGe (suspicious_accounts r).
Proof.
  eexists.
  match goal with
  | |- ?A = Returned ?r /\ _ =>
      assert (H1 : A = Returned r) by (vm_compute; reflexivity)
  end.
  exact (conj H1 (suspicious_accounts_sorted String.compare _ _ H1)).
Defined.

Lemma suspicious_accounts_are_ring_members_witness :
  exists r,
    analyze String.compare (DetectionEngine isoTime chainIntoCycle) = Returned r /\
    NoDup (map account_id (suspicious_accounts r)) /\
    (forall sa,
        In sa (suspicious_accounts r) ->
        exists ring,
          In ring (fraud_rings r) /\
          In (account_id sa) (member_accounts ring) /\
          sa_ring_id sa = ring_id ring /\
          suspicion_score sa = risk_score ring /\
          In (pattern_type ring) (detected_patterns sa)).
Proof.
  eexists.
  match goal with
  | |- ?A = Returned ?r /\ _ =>
      assert (H1 : A = Returned r) by (vm_compute; reflexivity)
  end.
  pose proof (suspicious_accounts_are_ring_members String.compare _ _ H1) as H.
  exact (conj H1 (conj (proj1 H) (proj2 (proj2 H)))).
Defined.

Lemma rings_ordered_by_detector_witness :
  exists r,
    analyze String.compare (DetectionEngine isoTime chainIntoCycle) = Returned r /\
    exists nCycle nSmurfing nShell,
      map pattern_type (fraud_rings r) =
      repeat cycle nCycle ++ repeat smurfing nSmurfing ++ repeat shell nShell.
Proof.
  eexists.
  match goal with
  | |- ?A = Returned ?r /\ _ =>
      assert (H1 : A = Returned r) by (vm_compute; reflexivity)
  end.
  exact (conj H1 (rings_ordered_by_detector String.compare _ _ H1)).
Defined.

(** The shell chain A, B, C, D of [chainIntoCycle]. *)
Lemma detectShell_chain_shape_witness :
  exists ring,
    In ring (detectShell (DetectionEngine isoTime chainIntoCycle) ["D"; "E"; "F"]) /\
    shellShape (DetectionEngine isoTime chainIntoCycle) ring.
Proof.
  eexists.
  match goal with
  | |- In ?ring ?l /\ _ =>
      assert (H1 : In ring l) by (vm_compute; left; reflexivity)
  end.
  exact (conj H1 (detectShell_chain_shape _ _ _ H1)).
Defined.

Lemma shell_chain_timing_witness :
  exists ring,
    In ring (detectShell (DetectionEngine isoTime chainIntoCycle) ["D"; "E"; "F"]) /\
    exists a b c d (x y z : Z),
      accounts ring = [a; b; c; d] /\
      getTxTime (DetectionEngine isoTime chainIntoCycle) a b = Some (Num x) /\
      getTxTime (DetectionEngine isoTime chainIntoCycle) b c = Some (Num y) /\
      getTxTime (DetectionEngine isoTime chainIntoCycle) c d = Some (Num z) /\
      (x < y)%Z /\ (y < z)%Z /\
      risk ring = (if (z - x <? DAY_MS)%Z then shellRiskFast else shellRiskSlow) /\
      riskScoreOf (risk ring) = (if (z - x <? DAY_MS)%Z then 800 # 10 else 625 # 10)%Q.
Proof.
  eexists.
  match goal with
  | |- In ?ring ?l /\ _ =>
      assert (H1 : In ring l) by (vm_compute; left; reflexivity)
  end.
  exact (conj H1 (shell_chain_timing _ _ _ H1)).
Defined.

(** The hub H of [hubBatch] with its 20 senders and 15 receivers. *)
Lemma smurfing_ring_members_witness :
  exists rings ring,
    detectSmurfing (DetectionEngine isoTime hubBatch) = Returned rings /\
    In ring rings /\
    exists account txs,
      In (account, txs) (accountTx (DetectionEngine isoTime hubBatch)) /\
      isMerchant (DetectionEngine isoTime hubBatch) account None None = false /\
      hd_error (accounts ring) = Some account /\
      NoDup (accounts ring) /\
      MIN_UNIQUE <= length (accounts ring) /\
      (forall x, In x (accounts ring) -> counterparty account txs x) /\
      (SMURFING_RISK_THRESHOLD <= risk ring <= 1)%Q.
Proof.
  eexists. eexists.
  match goal with
  | |- ?A = Returned ?rings /\ In ?ring _ /\ _ =>
      assert (H1 : A = Returned rings) by (vm_compute; reflexivity);
      assert (H2 : In ring rings) by (left; reflexivity)
  end.
  exact (conj H1 (conj H2 (smurfing_ring_members _ _ _ H1 H2))).
Defined.

Lemma ring_scores_by_pattern_witness :
  exists r ring,
    analyze String.compare (DetectionEngine isoTime hubBatch) = Returned r /\
    In ring (fraud_rings r) /\
    match pattern_type ring with
    | cycle => risk_score ring = (850 # 10)%Q
    | smurfing => (650 # 10 <= risk_score ring <= 1000 # 10)%Q
    | shell => risk_score ring = (800 # 10)%Q \/ risk_score ring = (625 # 10)%Q
    end.
Proof.
  eexists. eexists.
  match goal with
  | |- ?A = Returned ?r /\ In ?ring _ /\ _ =>
      assert (H1 : A = Returned r) by (vm_compute; reflexivity);
      assert (H2 : In ring (fraud_rings r)) by (left; reflexivity)
  end.
  exact (conj H1 (conj H2 (ring_scores_by_pattern String.compare _ _ _ H1 H2))).
Defined.

Lemma cycle_rings_are_simple_cycles_witness :
  exists r ring,
    analyze String.compare (DetectionEngine isoTime chainIntoCycle) = Returned r /\
    In ring (fraud_rings r) /\
    pattern_type ring = cycle /\
    simpleCycle (DetectionEngine isoTime chainIntoCycle) (member_accounts ring) /\
    3 <= length (member_accounts ring) <= 5.
Proof.
  eexists. eexists.
  match goal with
  | |- ?A = Returned ?r /\ In ?ring _ /\ _ =>
      assert (H1 : A = Returned r) by (vm_compute; reflexivity);
      assert (H2 : In ring (fraud_rings r)) by (left; reflexivity);
      assert (H3 : pattern_type ring = cycle) by reflexivity
  end.
  exact (conj H1 (conj H2 (conj H3
           (cycle_rings_are_simple_cycles String.compare _ _ _ H1 H2 H3)))).
Defined.

Lemma shell_ring_first_three_off_cycles_witness :
  exists r sh,
    analyze String.compare (DetectionEngine isoTime chainIntoCycle) = Returned r /\
    In sh (fraud_rings r) /\
    pattern_type sh = shell /\
    exists a b c d,
      member_accounts sh = [a; b; c; d] /\
      forall cy, In cy (fraud_rings r) -> pattern_type cy = cycle ->
                 ~ In a (member_accounts cy) /\
                 ~ In b (member_accounts cy) /\
                 ~ In c (member_accounts cy).
Proof.
  eexists. eexists.
  match goal with
  | |- ?A = Returned ?r /\ In ?ring _ /\ _ =>
      assert (H1 : A = Returned r) by (vm_compute; reflexivity);
      assert (H2 : In ring (fraud_rings r)) by (right; left; reflexivity);
      assert (H3 : pattern_type ring = shell) by reflexivity
  end.
  exact (conj H1 (conj H2 (conj H3
           (shell_ring_first_three_off_cycles String.compare _ _ _ H1 H2 H3)))).
Defined.

Lemma only_batch_accounts_flagged_witness :
  exists r,
    runAnalysis isoTime String.compare chainIntoCycle = Returned r /\
    (forall ring x, In ring (fraud_rings r) -> In x (member_accounts ring) ->
                    inBatch chainIntoCycle x) /\
    (forall sa, In sa (suspicious_accounts r) -> inBatch chainIntoCycle (account_id sa)) /\
    suspicious_accounts_flagged (summary r) <= total_accounts_analyzed (summary r).
Proof.
  eexists.
  match goal with
  | |- ?A = Returned ?r /\ _ =>
      assert (H1 : A = Returned r) by (vm_compute; reflexivity)
  end.
  exact (conj H1 (only_batch_accounts_flagged isoTime String.compare _ _ H1)).
Defined.

Lemma summary_counts_witness :
  exists r,
    runAnalysis isoTime String.compare chainIntoCycle = Returned r /\
    (exists ids, NoDup ids /\ (forall x, In x ids <-> inBatch chainIntoCycle x) /\
                 total_accounts_analyzed (summary r) = length ids) /\
    suspicious_accounts_flagged (summary r) = length (suspicious_accounts r) /\
    fraud_rings_detected (summary r) = length (fraud_rings r).
Proof.
  eexists.
  match goal with
  | |- ?A = Returned ?r /\ _ =>
      assert (H1 : A = Returned r) by (vm_compute; reflexivity)
  end.
  exact (conj H1 (summary_counts isoTime String.compare _ _ H1)).
Defined.

Lemma detectCycles_no_repeats_witness :
  exists cycles,
    detectCycles String.compare (DetectionEngine isoTime chainIntoCycle) 3 5
      = Returned cycles /\
    NoDup cycles /\
    forall c1 c2 key,
      In c1 cycles -> In c2 cycles ->
      canonicalize String.compare c1 = Returned key ->
      canonicalize String.compare c2 = Returned key ->
      c1 = c2.
Proof.
  eexists.
  match goal with
  | |- ?A = Returned ?cycles /\ _ =>
      assert (H1 : A = Returned cycles) by (vm_compute; reflexivity)
  end.
  exact (conj H1 (detectCycles_no_repeats String.compare _ _ _ _ H1)).
Defined.

(** The 20 transfers into the hub H of [hubBatch] all carry a parsed
    time. *)
Lemma smurfing_window_is_densest_witness :
  (forall t, In t (txsOf (DetectionEngine isoTime hubBatch) "H") -> timed t) /\
  sortedByTime (sortedIncoming "H" (txsOf (DetectionEngine isoTime hubBatch) "H")) /\
  exists bestWindow,
    densestWindow (sortedIncoming "H" (txsOf (DetectionEngine isoTime hubBatch) "H"))
      = Returned bestWindow /\
    forall r,
      r < length (sortedIncoming "H" (txsOf (DetectionEngine isoTime hubBatch) "H")) ->
      length (windowAt (sortedIncoming "H" (txsOf (DetectionEngine isoTime hubBatch) "H")) r)
        <= length bestWindow.
Proof.
  assert (H : forall t, In t (txsOf (DetectionEngine isoTime hubBatch) "H") -> timed t).
  { intros t Ht. vm_compute in Ht.
    repeat (destruct Ht as [<-|Ht]; [reflexivity|]). destruct Ht. }
  destruct (smurfing_window_is_densest "H" _ H) as [Hsorted [bestWindow [Hbest [_ Hmax]]]].
  split; [exact H|]. split; [exact Hsorted|].
  exists bestWindow. split; [exact Hbest | exact Hmax].
Defined.

(** * The shell detector emits every chain that passes its checks *)

Lemma fold_left_eventually {A S} (Inv Q : S -> Prop) (f : S -> A -> S)
    (l : list A) (x : A) :
  (forall s y, In y l -> Inv s -> Inv (f s y)) ->
  (forall s y, In y l -> Inv s -> Q s -> Q (f s y)) ->
  In x l ->
  (forall s, Inv s -> Q (f s x)) ->
  forall s, Inv s -> Q (fold_left f l s).
Proof.
  induction l as [|y l IH]; intros Hinv Hq Hx Hhit s Hs; [destruct Hx|].
  cbn [fold_left].
  assert (Hinv' : forall s0 y0, In y0 l -> Inv s0 -> Inv (f s0 y0)).
  { intros s0 y0 Hy0. apply Hinv. now right. }
  assert (Hq' : forall s0 y0, In y0 l -> Inv s0 -> Q s0 -> Q (f s0 y0)).
  { intros s0 y0 Hy0. apply Hq. now right. }
  assert (Hstep : Inv (f s y)) by (apply Hinv; [now left | exact Hs]).
  destruct Hx as [->|Hx].
  - apply (fold_left_invariant (fun s0 => Inv s0 /\ Q s0) f l).
    + intros s0 y0 Hy0 [H1 H2]. split; [now apply Hinv' | now apply Hq'].
    + split; [exact Hstep | now apply Hhit].
  - now apply IH.
Qed.

Lemma shellStepD_grows e a b c st d ring :
  In ring (fst st) -> In ring (fst (shellStepD e a b c st d)).
Proof.
  intros Hin. unfold shellStepD.
  destruct ((d =? a) || (d =? b) || (d =? c)); [exact Hin|].
  destruct (match map_get (adjacency e) d with
            | Some s => set_has s a
            | None => false
            end); [exact Hin|].
  destruct (negb (isTemporalChain e a b c d)); [exact Hin|].
  destruct (Qltb (shellRisk e a b c d) (b64 (6 # 10))); [exact Hin|].
  destruct (negb (set_has (snd st) (join "|" [a; b; c; d]))); [|exact Hin].
  cbn [fst]. apply in_app_iff. now left.
Qed.

Lemma shellStepC_grows e cyc a b st c ring :
  In ring (fst st) -> In ring (fst (shellStepC e cyc a b st c)).
Proof.
  intros Hin. unfold shellStepC.
  destruct (set_has cyc c); [exact Hin|].
  destruct (negb (isShellIntermediate e c)); [exact Hin|].
  destruct (c =? a); [exact Hin|].
  apply (fold_left_invariant (fun s : ShellState => In ring (fst s))); [|exact Hin].
  intros s d _ Hs. now apply shellStepD_grows.
Qed.

Lemma shellStepB_grows e cyc a st b ring :
  In ring (fst st) -> In ring (fst (shellStepB e cyc a st b)).
Proof.
  intros Hin. unfold shellStepB.
  destruct (set_has cyc b); [exact Hin|].
  destruct (negb (isShellIntermediate e b)); [exact Hin|].
  apply (fold_left_invariant (fun s : ShellState => In ring (fst s))); [|exact Hin].
  intros s c _ Hs. now apply shellStepC_grows.
Qed.

Lemma shellStepA_grows e cyc st entry ring :
  In ring (fst st) -> In ring (fst (shellStepA e cyc st entry)).
Proof.
  intros Hin. unfold shellStepA. destruct entry as [a neighborsA].
  destruct (isMerchant e a None None); [exact Hin|].
  destruct (set_has cyc a); [exact Hin|].
  apply (fold_left_invariant (fun s : ShellState => In ring (fst s))); [|exact Hin].
  intros s b _ Hs. now apply shellStepB_grows.
Qed.

Lemma neighborsOf_entry e b c :
  In c (neighborsOf e b) -> exists ns, In (b, ns) (adjacency e) /\ In c ns.
Proof.
  unfold neighborsOf. destruct (map_get (adjacency e) b) as [ns|] eqn:Hget; [|intros []].
  intros Hc. exists ns. split; [now apply map_get_In | exact Hc].
Qed.

(** In a graph without bars in its ids, the members of a chain of the
    detector's shape contain no bar. *)
Lemma shellShape_barFree e ring :
  barFree e -> shellShape e ring ->
  forall x, In x (accounts ring) -> noBar x = true.
Proof.
  intros Hbar [a [b [c [d [nA [Hacc [Ha [Hab [Hbc [Hcd _]]]]]]]]]] x Hx.
  rewrite Hacc in Hx.
  destruct (neighborsOf_entry e b c Hbc) as [nB [HB HBc]].
  destruct (neighborsOf_entry e c d Hcd) as [nC [HC HCd]].
  destruct Hx as [<-|[<-|[<-|[<-|[]]]]].
  - exact (proj1 (Hbar a nA Ha)).
  - exact (proj2 (Hbar a nA Ha) b Hab).
  - exact (proj2 (Hbar b nB HB) c HBc).
  - exact (proj2 (Hbar c nC HC) d HCd).
Qed.

Section ShellComplete.

Variable e : Engine.
Variable cyc : JsSet.
Variables a b c d : string.
Variable neighborsA : JsSet.
Hypothesis ids_bar_free : barFree e.
Hypothesis Ha : In (a, neighborsA) (adjacency e).
Hypothesis Hab : In b neighborsA.
Hypothesis Hbc : In c (neighborsOf e b).
Hypothesis Hcd : In d (neighborsOf e c).
Hypothesis Hm : isMerchant e a None None = false.
Hypothesis Hca : set_has cyc a = false.
Hypothesis Hcb : set_has cyc b = false.
Hypothesis Hcc : set_has cyc c = false.
Hypothesis Hsb : isShellIntermediate e b = true.
Hypothesis Hsc : isShellIntermediate e c = true.
Hypothesis Hc_a : c <> a.
Hypothesis Hd_a : d <> a.
Hypothesis Hd_b : d <> b.
Hypothesis Hd_c : d <> c.
Hypothesis Hback : ~ In a (neighborsOf e d).
Hypothesis Htime : isTemporalChain e a b c d = true.

Lemma shellStepD_emits st : shellSeen e st -> emittedChain a b c d (shellStepD e a b c st d).
Proof.
  intros [Hshape [Hkeys Hnd]]. unfold shellStepD.
  apply String.eqb_neq in Hd_a, Hd_b, Hd_c. rewrite Hd_a, Hd_b, Hd_c. cbn [orb].
  assert (Hnoback : match map_get (adjacency e) d with
                    | Some s => set_has s a
                    | None => false
                    end = false).
  { unfold neighborsOf in Hback. destruct (map_get (adjacency e) d); [|reflexivity].
    now apply set_has_false. }
  rewrite Hnoback, Htime, shellRisk_above_floor. cbn [negb].
  destruct (set_has (snd st) (join "|" [a; b; c; d])) eqn:Hseen; cbn [negb].
  - apply set_has_In in Hseen. rewrite Hkeys in Hseen.
    apply in_map_iff in Hseen. destruct Hseen as [ring [Hkey Hring]].
    exists ring. split; [exact Hring|].
    pose proof (Hshape ring Hring) as Hs.
    pose proof (shellShape_barFree e ring ids_bar_free Hs) as Hplain.
    destruct Hs as [a' [b' [c' [d' [nA' [Hacc _]]]]]].
    unfold shellKey in Hkey.
    apply (join_sep_inj "|"%char).
    + rewrite Hacc. discriminate.
    + discriminate.
    + exact Hplain.
    + destruct (neighborsOf_entry e b c Hbc) as [nB [HB HBc]].
      destruct (neighborsOf_entry e c d Hcd) as [nC [HC HCd]].
      intros x [<-|[<-|[<-|[<-|[]]]]].
      * exact (proj1 (ids_bar_free a neighborsA Ha)).
      * exact (proj2 (ids_bar_free a neighborsA Ha) b Hab).
      * exact (proj2 (ids_bar_free b nB HB) c HBc).
      * exact (proj2 (ids_bar_free c nC HC) d HCd).
    + exact Hkey.
  - eexists. cbn [fst]. split; [apply in_app_iff; right; now left | reflexivity].
Qed.

Lemma emittedChain_D st y : emittedChain a b c d st -> emittedChain a b c d (shellStepD e a b c st y).
Proof. intros [ring [H1 H2]]. exists ring. split; [now apply shellStepD_grows | exact H2]. Qed.

Lemma shellStepC_emits st : shellSeen e st -> emittedChain a b c d (shellStepC e cyc a b st c).
Proof.
  intros Hst. unfold shellStepC. rewrite Hcc, Hsc. cbn [negb].
  apply String.eqb_neq in Hc_a. rewrite Hc_a.
  apply String.eqb_neq in Hc_a.
  apply (fold_left_eventually (shellSeen e) (emittedChain a b c d) _ _ d); try assumption.
  - intros s y Hy Hs. now apply (shellStepD_seen e a b c neighborsA).
  - intros s y _ _ Hq. now apply emittedChain_D.
  - intros s Hs. now apply shellStepD_emits.
Qed.

Lemma emittedChain_C st a0 b0 y :
  emittedChain a b c d st -> emittedChain a b c d (shellStepC e cyc a0 b0 st y).
Proof. intros [ring [H1 H2]]. exists ring. split; [now apply shellStepC_grows | exact H2]. Qed.

Lemma shellStepB_emits st : shellSeen e st -> emittedChain a b c d (shellStepB e cyc a st b).
Proof.
  intros Hst. unfold shellStepB. rewrite Hcb, Hsb. cbn [negb].
  apply (fold_left_eventually (shellSeen e) (emittedChain a b c d) _ _ c); try assumption.
  - intros s y Hy Hs. now apply (shellStepC_seen e cyc a b neighborsA).
  - intros s y _ _ Hq. now apply emittedChain_C.
  - intros s Hs. now apply shellStepC_emits.
Qed.

Lemma emittedChain_B st a0 y :
  emittedChain a b c d st -> emittedChain a b c d (shellStepB e cyc a0 st y).
Proof. intros [ring [H1 H2]]. exists ring. split; [now apply shellStepB_grows | exact H2]. Qed.

Lemma shellStepA_emits st :
  shellSeen e st -> emittedChain a b c d (shellStepA e cyc st (a, neighborsA)).
Proof.
  intros Hst. unfold shellStepA. rewrite Hm, Hca.
  apply (fold_left_eventually (shellSeen e) (emittedChain a b c d) _ _ b); try assumption.
  - intros s y Hy Hs. now apply (shellStepB_seen e cyc a neighborsA).
  - intros s y _ _ Hq. now apply emittedChain_B.
  - intros s Hs. now apply shellStepB_emits.
Qed.

Lemma detectShell_emits :
  exists ring, In ring (detectShell e cyc) /\ accounts ring = [a; b; c; d].
Proof.
  unfold detectShell.
  apply (fold_left_eventually (shellSeen e) (emittedChain a b c d) _ _ (a, neighborsA)).
  - intros s y Hy Hs. now apply shellStepA_seen.
  - intros s y _ _ [ring [H1 H2]]. exists ring.
    split; [now apply shellStepA_grows | exact H2].
  - exact Ha.
  - intros s Hs. now apply shellStepA_emits.
  - split; [intros r []|]. split; [reflexivity | constructor].
Qed.

End ShellComplete.

(** A chain that passes the checks is emitted, with the risk its hops
    give it, when no id of the graph contains a bar. *)
Lemma detectShell_complete e cyc a b c d :
  barFree e -> passesShellChecks e cyc a b c d ->
  exists ring,
    In ring (detectShell e cyc) /\
    accounts ring = [a; b; c; d] /\
    risk ring = shellRisk e a b c d.
Proof.
  intros Hbar [[nA [Ha Hab]] [Hbc [Hcd [Hm [Hca [Hcb [Hcc [Hsb [Hsc
                [Hc_a [Hd_a [Hd_b [Hd_c [Hback Htime]]]]]]]]]]]]]].
  apply set_has_false in Hca, Hcb, Hcc.
  destruct (detectShell_emits e cyc a b c d nA Hbar Ha Hab Hbc Hcd Hm Hca Hcb Hcc
              Hsb Hsc Hc_a Hd_a Hd_b Hd_c Hback Htime) as [ring [Hin Hacc]].
  exists ring. split; [exact Hin|]. split; [exact Hacc|].
  destruct (detectShell_sound e cyc ring Hin) as [a' [b' [c' [d' [Hacc' [Hrisk _]]]]]].
  rewrite Hacc in Hacc'. injection Hacc' as -> -> -> ->. exact Hrisk.
Qed.

(** * The window of the scan and the intervals of 72 hours *)

Lemma filter_length_le {A} (p q : A -> bool) (l : list A) :
  (forall x, In x l -> p x = true -> q x = true) ->
  length (filter p l) <= length (filter q l).
Proof.
  induction l as [|x l IH]; intros H; [apply le_n|].
  cbn [filter].
  assert (IH' : length (filter p l) <= length (filter q l)).
  { apply IH. intros y Hy. apply H. now right. }
  destruct (p x) eqn:Hp.
  - rewrite (H x (or_introl eq_refl) Hp). cbn [length]. lia.
  - destruct (q x); cbn [length]; lia.
Qed.

Lemma filter_length_perm {A} (p : A -> bool) (l l' : list A) :
  Permutation l l' -> length (filter p l) = length (filter p l').
Proof.
  induction 1 as [|x l l' _ IH|x y l|l l' l'' _ IH1 _ IH2]; cbn [filter].
  - reflexivity.
  - destruct (p x); cbn [length]; now rewrite IH.
  - destruct (p x); destruct (p y); reflexivity.
  - now rewrite IH1.
Qed.

Lemma filter_idem {A} (p : A -> bool) (l : list A) : filter p (filter p l) = filter p l.
Proof.
  apply filter_all. intros x Hx. apply filter_In in Hx. tauto.
Qed.

(** The last element of a list that satisfies [p]: nothing after it
    does. *)
Lemma filter_last_hit {A} (p : A -> bool) (l : list A) :
  filter p l = [] \/
  exists r x, nth_error l r = Some x /\ p x = true /\
              filter p l = filter p (firstn (S r) l).
Proof.
  induction l as [|y l IH] using rev_ind; [now left|].
  rewrite filter_app. cbn [filter]. destruct (p y) eqn:Hy.
  - right. exists (length l), y. split; [|split; [exact Hy|]].
    + rewrite nth_error_app2 by apply le_n. now rewrite Nat.sub_diag.
    + rewrite firstn_all2 by (rewrite length_app; simpl; lia).
      rewrite filter_app. cbn [filter]. now rewrite Hy.
  - rewrite app_nil_r. destruct IH as [IH|[r [x [Hr [Hx Hf]]]]]; [now left|].
    right. exists r, x.
    assert (Hlt : r < length l) by (apply nth_error_Some; congruence).
    split; [|split; [exact Hx|]].
    + rewrite nth_error_app1 by exact Hlt. exact Hr.
    + rewrite firstn_app. replace (S r - length l) with 0 by lia.
      cbn [firstn]. now rewrite app_nil_r.
Qed.

Lemma inInterval_times (s : Z) (t : Tx) :
  inInterval s t = true -> (s <= timeOf t <= s + WINDOW_MS)%Z.
Proof.
  unfold inInterval, timeOf. destruct (_time t) as [|z]; [discriminate|].
  intros H. apply andb_true_iff in H. destruct H as [H1 H2].
  apply Z.leb_le in H1, H2. now split.
Qed.

(** No interval of 72 hours holds more elements of a time-sorted list than
    the fullest window that ends at one of its elements. *)
Lemma interval_within_window (incoming : list Tx) (s : Z) :
  filter (inInterval s) incoming = [] \/
  exists r, r < length incoming /\
            length (filter (inInterval s) incoming) <= length (windowAt incoming r).
Proof.
  destruct (filter_last_hit (inInterval s) incoming) as [H|[r [x [Hr [Hx Hf]]]]];
    [now left|].
  right. exists r. split; [apply nth_error_Some; congruence|].
  rewrite Hf. unfold windowAt. rewrite Hr.
  apply filter_length_le. intros t _ Ht.
  apply inInterval_times in Hx, Ht. unfold inWindow. apply Z.leb_le. lia.
Qed.

Lemma windowAt_span (incoming : list Tx) (r : nat) (last t : Tx) :
  sortedByTime incoming ->
  nth_error incoming r = Some last ->
  In t (windowAt incoming r) ->
  (timeOf last - WINDOW_MS <= timeOf t <= timeOf last)%Z.
Proof.
  intros Hsorted Hr Ht. unfold windowAt in Ht. rewrite Hr in Ht.
  apply filter_In in Ht. destruct Ht as [Ht Hw].
  unfold inWindow in Hw. apply Z.leb_le in Hw. split; [exact Hw|].
  destruct (In_firstn_nth _ _ _ Ht) as [i [Hi Hnth]].
  apply (sortedByTime_nth incoming i r t last Hsorted); [lia | exact Hnth | exact Hr].
Qed.

(** With parsed times on the incoming transactions, the window that the
    scan keeps is a densest 72-hour window of them. *)
Lemma timed_window_is_densest72 (account : string) (txs w : list Tx) :
  incomingTimed account txs ->
  densestWindow (sortedIncoming account txs) = Returned w ->
  w <> [] ->
  densest72 account txs w.
Proof.
  intros Htimed Hw Hne.
  assert (Hsame : sortedIncoming account (incomingTo account txs)
                  = sortedIncoming account txs).
  { unfold sortedIncoming, incomingTo. now rewrite filter_idem. }
  assert (Hsorted : sortedByTime (sortedIncoming account txs)).
  { rewrite <- Hsame. now apply sortedIncoming_sorted. }
  assert (Hperm : Permutation (incomingTo account txs) (sortedIncoming account txs)).
  { unfold sortedIncoming, incomingTo. apply jsSort_perm. }
  assert (Hall : forall t, In t (sortedIncoming account txs) -> timed t).
  { intros t Ht. apply Htimed.
    exact (Permutation_in _ (Permutation_sym Hperm) Ht). }
  destruct (densestWindow_is_densest (sortedIncoming account txs) Hall Hsorted)
    as [w' [Hw' [Hshape Hmax]]].
  assert (w' = w) by congruence. subst w'.
  destruct Hshape as [->|[r [Hr ->]]]; [congruence|].
  destruct (nth_error (sortedIncoming account txs) r) as [last|] eqn:Hlast.
  2:{ apply nth_error_None in Hlast. lia. }
  exists (sortedIncoming account txs), r, last.
  split; [exact Hperm|]. split; [exact Hsorted|]. split; [exact Hlast|].
  split; [reflexivity|]. split.
  - intros t Ht. exact (windowAt_span _ r last t Hsorted Hlast Ht).
  - intros s. rewrite (filter_length_perm _ _ _ Hperm).
    destruct (interval_within_window (sortedIncoming account txs) s) as [->|[r' [Hr' Hle]]].
    + apply Nat.le_0_l.
    + exact (Nat.le_trans _ _ _ Hle (Hmax r' Hr')).
Qed.

(** Transactions that are pairwise more than 72 hours apart: no interval
    of 72 hours holds two of them. *)
Lemma far_apart_intervals (l : list Tx) :
  allFarApart l = true -> forall s, length (filter (inInterval s) l) <= 1.
Proof.
  induction l as [|a l IH]; intros Hfar s; [apply Nat.le_0_l|].
  cbn [allFarApart] in Hfar. apply andb_true_iff in Hfar. destruct Hfar as [Ha Hl].
  cbn [filter]. destruct (inInterval s a) eqn:Hin; [|now apply IH].
  rewrite filter_none; [apply le_n|].
  intros b Hb. destruct (inInterval s b) eqn:Hinb; [|reflexivity].
  exfalso. rewrite forallb_forall in Ha. specialize (Ha b Hb).
  unfold farApart in Ha. unfold inInterval in Hin, Hinb.
  destruct (_time a) as [|x]; [discriminate|]. destruct (_time b) as [|y]; [discriminate|].
  apply andb_true_iff in Hin, Hinb. destruct Hin as [H1 H2]. destruct Hinb as [H3 H4].
  apply Z.leb_le in H1, H2, H3, H4. apply Z.ltb_lt in Ha. lia.
Qed.

Lemma set_of_list_length (l : list string) : length (set_of_list l) <= length l.
Proof.
  unfold set_of_list.
  assert (H : forall s, length (fold_left set_add l s) <= length s + length l).
  { induction l as [|x l IH]; intros s; cbn [fold_left length]; [lia|].
    specialize (IH (set_add s x)). unfold set_add in *.
    destruct (set_has s x); [lia|]. rewrite length_app in IH. simpl in IH. lia. }
  exact (H []).
Qed.




(** * The claims *)

Lemma run_unfold (txs : list Transaction) :
  run txs = analyze String.compare (DetectionEngine isoTime txs).
Proof. reflexivity. Qed.

(** C1 as amended.  For every batch, whether or not its timestamps can be
    parsed, the analysis returns a full result and never raises; every
    transaction is indexed with the time value that [Date] gave, [NaN]
    included; every ordering comparison on [NaN] is false and a [NaN] hop
    time is falsy. *)
Theorem analysis_always_returns :
  forall Date_getTime localeCompare txs,
    (exists r, runAnalysis Date_getTime localeCompare txs = Returned r) /\
    transactions (DetectionEngine Date_getTime txs) =
      map (fun t => {| tx_data := t; _time := Date_getTime (timestamp t) |}) txs /\
    (forall x,
        num_lt NaN x = false /\ num_lt x NaN = false /\
        num_le NaN x = false /\ num_le x NaN = false /\
        num_pos (num_sub NaN x) = false /\ num_pos (num_sub x NaN) = false) /\
    falsy (Some NaN) = true.
Proof.
  intros parse cmp txs. split; [|split; [reflexivity|split; [|reflexivity]]].
  - unfold runAnalysis. apply analyze_total.
  - intros x. destruct x; repeat split; reflexivity.
Qed.

(** Counterexample to C1 as stated.  The batch [unparsableBatch] holds 30
    transfers into X whose timestamp cannot be parsed; the analysis
    returns, every cached time is [NaN], the window scan keeps all 30
    transfers in one window, and the smurfing ring of X is emitted with
    score 65.0. *)
Lemma unparsable_timestamps_are_analysed :
  (forall t, In t unparsableBatch -> isoTime (timestamp t) = NaN) /\
  unparsableBatch <> [] /\
  (forall x, In x (transactions (DetectionEngine isoTime unparsableBatch)) ->
             _time x = NaN) /\
  (exists bestWindow,
      densestWindow
        (sortedIncoming "X" (txsOf (DetectionEngine isoTime unparsableBatch) "X"))
        = Returned bestWindow /\ length bestWindow = 30) /\
  (exists r ring,
      run unparsableBatch = Returned r /\
      fraud_rings r = [ring] /\
      pattern_type ring = smurfing /\
      risk_score ring = (650 # 10)%Q /\
      length (member_accounts ring) = 31) /\
  ~ (forall txs,
        (exists t, In t txs /\ isoTime (timestamp t) = NaN) ->
        forall r, run txs <> Returned r).
Proof.
  split.
  { intros t Hin. unfold unparsableBatch, fanIn in Hin.
    apply in_map_iff in Hin. destruct Hin as [i [<- _]]. reflexivity. }
  split; [discriminate|].
  split.
  { intros x Hin.
    change (transactions (DetectionEngine isoTime unparsableBatch))
      with (map (cacheTime isoTime) unparsableBatch) in Hin.
    apply in_map_iff in Hin.
    destruct Hin as [t [<- Hin]]. unfold cacheTime. cbn [_time].
    unfold unparsableBatch, fanIn in Hin.
    apply in_map_iff in Hin. destruct Hin as [i [<- _]]. reflexivity. }
  split.
  { eexists. split; [vm_compute; reflexivity | reflexivity]. }
  split.
  { eexists. eexists. split; [vm_compute; reflexivity|]. repeat split. }
  intros Hfail.
  destruct (analyze_total String.compare (DetectionEngine isoTime unparsableBatch))
    as [r Hr].
  apply (Hfail unparsableBatch) with (r := r); [|now rewrite run_unfold].
  exists (mkT "in1" "S1" "X" 100 "not-a-date"). split; [left|]; reflexivity.
Qed.

(** C2, evaluated on the batch [chainIntoCycle]: the analysis emits the
    cycle ring D, E, F and the shell ring A, B, C, D, so the last node of
    an emitted shell chain is a member of a cycle ring of the same
    analysis. *)
Theorem shell_ring_ends_in_cycle_member :
  exists r cyc sh,
    run chainIntoCycle = Returned r /\
    In cyc (fraud_rings r) /\ pattern_type cyc = cycle /\
    member_accounts cyc = ["D"; "E"; "F"] /\
    In sh (fraud_rings r) /\ pattern_type sh = shell /\
    member_accounts sh = ["A"; "B"; "C"; "D"] /\
    In "D" (member_accounts cyc) /\ In "D" (member_accounts sh).
Proof.
  eexists. eexists. eexists.
  split; [vm_compute; reflexivity|].
  split; [left; reflexivity|].
  split; [reflexivity|]. split; [reflexivity|].
  split; [right; left; reflexivity|].
  split; [reflexivity|]. split; [reflexivity|].
  split; simpl; tauto.
Qed.

(** C3. An account that is not merchant/payroll-classified and belongs to
    two or more emitted rings has exactly one record in
    [suspicious_accounts]; its score and ring id are those of the first
    ring of maximal score among its rings (a later ring replaces them only
    with a strictly greater score), so the score is the maximum over these
    rings, and its patterns are the rings' pattern labels without
    duplicates. *)
Theorem suspicious_record_merges_rings :
  forall localeCompare e r acc,
    analyze localeCompare e = Returned r ->
    isMerchant e acc None None = false ->
    2 <= length (ringsOf acc (fraud_rings r)) ->
    exists sa,
      In sa (suspicious_accounts r) /\
      account_id sa = acc /\
      (forall sa', In sa' (suspicious_accounts r) -> account_id sa' = acc -> sa' = sa) /\
      (forall ring, In ring (ringsOf acc (fraud_rings r)) ->
                    (risk_score ring <= suspicion_score sa)%Q) /\
      (exists R1 rmax R2,
          ringsOf acc (fraud_rings r) = R1 ++ rmax :: R2 /\
          suspicion_score sa = risk_score rmax /\
          sa_ring_id sa = ring_id rmax /\
          (forall ring, In ring R1 -> (risk_score ring < risk_score rmax)%Q) /\
          (forall ring, In ring R2 -> (risk_score ring <= risk_score rmax)%Q)) /\
      NoDup (detected_patterns sa) /\
      (forall p, In p (detected_patterns sa) <->
                 exists ring, In ring (ringsOf acc (fraud_rings r)) /\ pattern_type ring = p).
Proof.
  intros cmp e r acc Hrun Hm Hlen.
  destruct (analyze_registry cmp e r Hrun) as [reg [Hok [Hrings Hsus]]].
  pose proof Hok as [Hnd Hall].
  specialize (Hall acc). unfold entryOk in Hall. rewrite Hm in Hall.
  rewrite Hrings in *.
  destruct (map_get (suspiciousMap reg) acc) as [sa|] eqn:Hget.
  2:{ rewrite Hall in Hlen. simpl in Hlen. lia. }
  destruct Hall as [Hid [Hmax [Hndp Hpat]]].
  exists sa. split; [|split; [exact Hid|split; [|split; [|split; [exact Hmax|split; assumption]]]]].
  - rewrite Hsus. apply jsSort_In. unfold map_values.
    apply in_map_iff. exists (acc, sa). split; [reflexivity | now apply map_get_In].
  - intros sa' Hin' Hid'. rewrite Hsus in Hin'. apply jsSort_In in Hin'.
    pose proof (values_of_ok_map e reg sa' Hok Hin') as Hget'.
    rewrite Hid', Hget in Hget'. now inversion Hget'.
  - destruct Hmax as [R1 [rmax [R2 [HR [Hs [_ [Hlt Hle]]]]]]].
    intros ring Hin. rewrite HR in Hin. rewrite Hs.
    apply in_app_or in Hin. destruct Hin as [Hin|[Hin|Hin]].
    + apply Qlt_le_weak. now apply Hlt.
    + subst. apply Qle_refl.
    + now apply Hle.
Qed.

(** Witness of C3 on [chainIntoCycle]: D belongs to the cycle ring and to
    the shell ring. *)
Lemma suspicious_record_merges_rings_witness :
  exists r,
    analyze String.compare (DetectionEngine isoTime chainIntoCycle) = Returned r /\
    isMerchant (DetectionEngine isoTime chainIntoCycle) "D" None None = false /\
    2 <= length (ringsOf "D" (fraud_rings r)) /\
    exists sa,
      In sa (suspicious_accounts r) /\ account_id sa = "D" /\
      NoDup (detected_patterns sa) /\
      (forall ring, In ring (ringsOf "D" (fraud_rings r)) ->
                    (risk_score ring <= suspicion_score sa)%Q).
Proof.
  eexists. split; [vm_compute; reflexivity|].
  split; [vm_compute; reflexivity|].
  split; [vm_compute; apply le_n|].
  match goal with
  | |- exists sa, In sa (suspicious_accounts ?r) /\ _ =>
      destruct (suspicious_record_merges_rings String.compare
                  (DetectionEngine isoTime chainIntoCycle) r "D")
        as [sa [Hin [Hid [_ [Hmax [_ [Hnd _]]]]]]]
  end.
  - vm_compute. reflexivity.
  - vm_compute. reflexivity.
  - vm_compute. apply le_n.
  - exists sa. repeat split; assumption.
Defined.

(** C4, evaluated on the batch [commaBatch]: its graph has the single
    directed cycle a -> (a,a) -> (a,a,a) -> a, and the detector emits three
    node sequences for it, one per start node, each a rotation of the
    first. *)
Theorem one_cycle_emitted_three_times :
  adjacency (DetectionEngine isoTime commaBatch) =
    [("a", ["a,a"]); ("a,a", ["a,a,a"]); ("a,a,a", ["a"])] /\
  detectCycles String.compare (DetectionEngine isoTime commaBatch) 3 5 =
    Returned [ ["a"; "a,a"; "a,a,a"]; ["a,a"; "a,a,a"; "a"]; ["a,a,a"; "a"; "a,a"] ] /\
  rotationOf commaCycle ["a,a"; "a,a,a"; "a"] /\
  rotationOf commaCycle ["a,a,a"; "a"; "a,a"] /\
  exists r,
    run commaBatch = Returned r /\
    map member_accounts (fraud_rings r) =
      [ ["a"; "a,a"; "a,a,a"]; ["a,a"; "a,a,a"; "a"]; ["a,a,a"; "a"; "a,a"] ] /\
    map pattern_type (fraud_rings r) = [cycle; cycle; cycle].
Proof.
  split; [vm_compute; reflexivity|].
  split; [vm_compute; reflexivity|].
  split; [exists ["a"], ["a,a"; "a,a,a"]; split; reflexivity|].
  split; [exists ["a"; "a,a"], ["a,a,a"]; split; reflexivity|].
  eexists. split; [vm_compute; reflexivity|]. split; reflexivity.
Qed.

(** C5, evaluated on the cycle [commaCycle] = a, (a,a), (a,a,a): all
    rotations of the sequence and of its reversal give the same string when
    joined with a comma, so for every comparator that answers 0 on equal
    strings the sort keeps the input order and the key is the sequence
    itself joined with a bar; a rotation and the reversal of the sequence
    get other keys. *)
Theorem canonical_key_varies_with_rotation :
  forall localeCompare,
    (forall s, localeCompare s s = Eq) ->
    rotationOf commaCycle ["a,a"; "a,a,a"; "a"] /\
    canonicalize localeCompare commaCycle = Returned "a|a,a|a,a,a" /\
    canonicalize localeCompare ["a,a"; "a,a,a"; "a"] = Returned "a,a|a,a,a|a" /\
    canonicalize localeCompare (rev commaCycle) = Returned "a,a,a|a,a|a".
Proof.
  intros cmp Hrefl.
  assert (Htied : forall arr,
    (forall r, In r (rotationsOf arr ++ rotationsOf (rev arr)) ->
               join "," r = "a,a,a,a,a,a") ->
    jsSort (rotationGt cmp) (rotationsOf arr ++ rotationsOf (rev arr)) =
    rotationsOf arr ++ rotationsOf (rev arr)).
  { intros arr Hjoin. apply jsSort_tied. intros x y Hx Hy.
    unfold rotationGt. now rewrite (Hjoin x Hx), (Hjoin y Hy), Hrefl. }
  split; [exists ["a"], ["a,a"; "a,a,a"]; split; reflexivity|].
  split; [|split]; unfold canonicalize; rewrite Htied; try reflexivity;
    intros r Hr; simpl in Hr;
    repeat (destruct Hr as [<-|Hr]; [reflexivity|]); contradiction.
Qed.

(** Witness of C5 with the code-unit order. *)
Lemma canonical_key_varies_with_rotation_witness :
  (forall s, String.compare s s = Eq) /\
  canonicalize String.compare commaCycle = Returned "a|a,a|a,a,a" /\
  canonicalize String.compare ["a,a"; "a,a,a"; "a"] = Returned "a,a|a,a,a|a".
Proof.
  split; [exact String_compare_refl|].
  destruct (canonical_key_varies_with_rotation String.compare String_compare_refl)
    as [_ [H1 [H2 _]]].
  split; assumption.
Defined.






(** C8 as amended.  The risk of an emitted shell chain is the result of
    [0.7 * speedScore + 0.1] in binary64: the number 0.7999999999999999
    ([shellRiskFast], score 80.0) when the spread time(C->D) - time(A->B)
    is under 24 hours and the number 0.6249999999999999 ([shellRiskSlow],
    score 62.5) otherwise; neither is 0.8 or 0.625.  The floor 0.6 is never
    above the risk, and when no account id of the graph contains a bar,
    every chain that passes the structural and temporal checks is emitted,
    with the risk its spread gives it. *)
Theorem shell_risk_floor_never_rejects :
  (shellRiskFast = fadd (fmul (b64 (7 # 10)) 1) (b64 (1 # 10)) /\
   shellRiskSlow = fadd (fmul (b64 (7 # 10)) (b64 (75 # 100))) (b64 (1 # 10)) /\
   shellRiskFast = b64 (7999999999999999 # 10000000000000000) /\
   shellRiskSlow = b64 (6249999999999999 # 10000000000000000) /\
   ~ (shellRiskFast == 8 # 10)%Q /\
   ~ (shellRiskSlow == 625 # 1000)%Q /\
   riskScoreOf shellRiskFast = (800 # 10)%Q /\
   riskScoreOf shellRiskSlow = (625 # 10)%Q) /\
  (forall e cyc ring,
      In ring (detectShell e cyc) ->
      exists a b c d (x z : Z),
        accounts ring = [a; b; c; d] /\
        getTxTime e a b = Some (Num x) /\
        getTxTime e c d = Some (Num z) /\
        risk ring = (if (z - x <? DAY_MS)%Z then shellRiskFast else shellRiskSlow) /\
        riskScoreOf (risk ring) = (if (z - x <? DAY_MS)%Z then 800 # 10 else 625 # 10)%Q) /\
  (forall e a b c d, (b64 (6 # 10) <= shellRisk e a b c d)%Q) /\
  (forall e cyc a b c d,
      barFree e ->
      passesShellChecks e cyc a b c d ->
      exists ring,
        In ring (detectShell e cyc) /\
        accounts ring = [a; b; c; d] /\
        risk ring = shellRisk e a b c d).
Proof.
  split; [|split; [|split]].
  - repeat split; try (vm_compute; reflexivity); vm_compute; discriminate.
  - intros e cyc ring Hin.
    destruct (shell_chain_risk e cyc ring Hin)
      as [a [b [c [d [x [y [z [H1 [H2 [_ [H4 [_ [_ H7]]]]]]]]]]]]].
    exists a, b, c, d, x, z. refine (conj H1 (conj H2 (conj H4 (conj H7 _)))).
    rewrite H7. destruct (z - x <? DAY_MS)%Z; vm_compute; reflexivity.
  - intros e a b c d. apply Qltb_ge. apply shellRisk_above_floor.
  - intros e cyc a b c d. apply detectShell_complete.
Qed.

(** Witness of C8 on the chain A, B, C, D of [chainIntoCycle], whose ids
    contain no bar. *)
Lemma shell_risk_floor_never_rejects_witness :
  barFree (DetectionEngine isoTime chainIntoCycle) /\
  passesShellChecks (DetectionEngine isoTime chainIntoCycle) ["D"; "E"; "F"]
    "A" "B" "C" "D" /\
  (exists ring,
      In ring (detectShell (DetectionEngine isoTime chainIntoCycle) ["D"; "E"; "F"]) /\
      accounts ring = ["A"; "B"; "C"; "D"] /\
      risk ring = shellRisk (DetectionEngine isoTime chainIntoCycle) "A" "B" "C" "D") /\
  (exists ring a b c d (x z : Z),
      In ring (detectShell (DetectionEngine isoTime chainIntoCycle) ["D"; "E"; "F"]) /\
      accounts ring = [a; b; c; d] /\
      getTxTime (DetectionEngine isoTime chainIntoCycle) a b = Some (Num x) /\
      getTxTime (DetectionEngine isoTime chainIntoCycle) c d = Some (Num z) /\
      risk ring = (if (z - x <? DAY_MS)%Z then shellRiskFast else shellRiskSlow) /\
      riskScoreOf (risk ring) = (if (z - x <? DAY_MS)%Z then 800 # 10 else 625 # 10)%Q).
Proof.
  assert (Hbar : barFree (DetectionEngine isoTime chainIntoCycle)).
  { intros k ns Hin. vm_compute in Hin.
    repeat (destruct Hin as [Hin|Hin];
            [injection Hin as <- <-; split; [reflexivity|];
             intros n Hn; cbn [In] in Hn;
             repeat (destruct Hn as [<-|Hn]; [reflexivity|]); destruct Hn|]).
    destruct Hin. }
  assert (Hchk : passesShellChecks (DetectionEngine isoTime chainIntoCycle)
                   ["D"; "E"; "F"] "A" "B" "C" "D").
  { unfold passesShellChecks.
    split; [exists ["B"]; split; vm_compute; left; reflexivity|].
    split; [vm_compute; left; reflexivity|].
    split; [vm_compute; left; reflexivity|].
    split; [vm_compute; reflexivity|].
    split; [vm_compute; intuition discriminate|].
    split; [vm_compute; intuition discriminate|].
    split; [vm_compute; intuition discriminate|].
    split; [vm_compute; reflexivity|].
    split; [vm_compute; reflexivity|].
    split; [discriminate|]. split; [discriminate|].
    split; [discriminate|]. split; [discriminate|].
    split; [vm_compute; intuition discriminate | vm_compute; reflexivity]. }
  split; [exact Hbar|]. split; [exact Hchk|]. split.
  - exact (proj2 (proj2 (proj2 shell_risk_floor_never_rejects)) _ _ _ _ _ _ Hbar Hchk).
  - eexists.
    match goal with
    | |- exists a b c d x z, In ?ring ?l /\ _ =>
        assert (H1 : In ring l) by (vm_compute; left; reflexivity);
        destruct (proj1 (proj2 shell_risk_floor_never_rejects) _ _ ring H1)
          as [a [b [c [d [x [z H]]]]]];
        exists a, b, c, d, x, z; exact (conj H1 H)
    end.
Defined.

(** Counterexample to C8 as stated, on [barBatch].  Both chains
    ("x|y", z, c, d) and (x, "y|z", c, d) pass every structural and
    temporal check, and the batch has no cycle; the detector emits the
    first one and drops the second one, because both give the key
    "x|y|z|c|d".  The emitted chain has a spread of two hours, and its risk
    is the binary64 number 0.7999999999999999, not 0.8. *)
Lemma bar_ids_drop_a_passing_chain :
  passesShellChecks (DetectionEngine isoTime barBatch) [] "x|y" "z" "c" "d" /\
  passesShellChecks (DetectionEngine isoTime barBatch) [] "x" "y|z" "c" "d" /\
  join "|" ["x|y"; "z"; "c"; "d"] = join "|" ["x"; "y|z"; "c"; "d"] /\
  detectCycles String.compare (DetectionEngine isoTime barBatch) 3 5 = Returned [] /\
  map accounts (detectShell (DetectionEngine isoTime barBatch) [])
    = [["x|y"; "z"; "c"; "d"]] /\
  ~ In ["x"; "y|z"; "c"; "d"]
       (map accounts (detectShell (DetectionEngine isoTime barBatch) [])) /\
  (exists ring,
      In ring (detectShell (DetectionEngine isoTime barBatch) []) /\
      getTxTime (DetectionEngine isoTime barBatch) "x|y" "z" = Some (Num 1705312800000) /\
      getTxTime (DetectionEngine isoTime barBatch) "c" "d" = Some (Num 1705320000000) /\
      (1705320000000 - 1705312800000 < DAY_MS)%Z /\
      risk ring = shellRiskFast /\
      ~ (risk ring == 8 # 10)%Q) /\
  (exists r,
      run barBatch = Returned r /\
      map member_accounts (fraud_rings r) = [["x|y"; "z"; "c"; "d"]]) /\
  ~ (forall e cyc a b c d,
        passesShellChecks e cyc a b c d ->
        In [a; b; c; d] (map accounts (detectShell e cyc))).
Proof.
  assert (H1 : passesShellChecks (DetectionEngine isoTime barBatch) [] "x|y" "z" "c" "d").
  { unfold passesShellChecks.
    split; [exists ["z"]; split; vm_compute; left; reflexivity|].
    split; [vm_compute; left; reflexivity|].
    split; [vm_compute; left; reflexivity|].
    split; [vm_compute; reflexivity|].
    split; [intros []|]. split; [intros []|]. split; [intros []|].
    split; [vm_compute; reflexivity|].
    split; [vm_compute; reflexivity|].
    split; [discriminate|]. split; [discriminate|].
    split; [discriminate|]. split; [discriminate|].
    split; [vm_compute; intuition discriminate | vm_compute; reflexivity]. }
  assert (H2 : passesShellChecks (DetectionEngine isoTime barBatch) [] "x" "y|z" "c" "d").
  { unfold passesShellChecks.
    split; [exists ["y|z"]; split; [vm_compute; right; left; reflexivity
                                   | left; reflexivity]|].
    split; [vm_compute; left; reflexivity|].
    split; [vm_compute; left; reflexivity|].
    split; [vm_compute; reflexivity|].
    split; [intros []|]. split; [intros []|]. split; [intros []|].
    split; [vm_compute; reflexivity|].
    split; [vm_compute; reflexivity|].
    split; [discriminate|]. split; [discriminate|].
    split; [discriminate|]. split; [discriminate|].
    split; [vm_compute; intuition discriminate | vm_compute; reflexivity]. }
  assert (H3 : map accounts (detectShell (DetectionEngine isoTime barBatch) [])
               = [["x|y"; "z"; "c"; "d"]]) by (vm_compute; reflexivity).
  assert (H4 : ~ In ["x"; "y|z"; "c"; "d"]
                    (map accounts (detectShell (DetectionEngine isoTime barBatch) []))).
  { rewrite H3. intros [H|[]]. discriminate. }
  refine (conj H1 (conj H2 (conj _ (conj _ (conj H3 (conj H4 (conj _ (conj _ _)))))))).
  - reflexivity.
  - vm_compute. reflexivity.
  - eexists. split; [vm_compute; left; reflexivity|].
    split; [vm_compute; reflexivity|]. split; [vm_compute; reflexivity|].
    split; [reflexivity|]. split; [vm_compute; reflexivity | vm_compute; discriminate].
  - eexists. split; vm_compute; reflexivity.
  - intros Hall. apply H4. exact (Hall _ _ _ _ _ _ H2).
Qed.

(** C9. When the representative transaction of A->B, B->C or C->D has the
    cached time 0, the temporal-chain check fails and no shell ring is
    emitted for (A, B, C, D), whatever the other hop times are: the code
    tests the looked-up time for falsiness and 0 is falsy. *)
Theorem epoch_zero_hop_rejects_chain :
  forall e a b c d,
    getTxTime e a b = Some (Num 0) \/
    getTxTime e b c = Some (Num 0) \/
    getTxTime e c d = Some (Num 0) ->
    isTemporalChain e a b c d = false /\
    forall cyc ring, In ring (detectShell e cyc) -> accounts ring <> [a; b; c; d].
Proof.
  intros e a b c d Hzero.
  assert (Hfalse : isTemporalChain e a b c d = false).
  { unfold isTemporalChain.
    destruct Hzero as [H|[H|H]]; rewrite H; simpl;
      rewrite ?orb_true_r; reflexivity. }
  split; [exact Hfalse|].
  intros cyc ring Hin Hacc.
  destruct (detectShell_sound e cyc ring Hin)
    as [a' [b' [c' [d' [Hacc' [_ [_ [_ [_ [_ [_ [_ [_ [_ Ht]]]]]]]]]]]]]].
  rewrite Hacc in Hacc'. inversion Hacc'; subst. congruence.
Qed.

(** Witness of C9 on [epochChain]: the hop times 0 < 3600000 < 7200000
    increase strictly and the chain is rejected all the same. *)
Lemma epoch_zero_hop_rejects_chain_witness :
  getTxTime (DetectionEngine isoTime epochChain) "A" "B" = Some (Num 0) /\
  getTxTime (DetectionEngine isoTime epochChain) "B" "C" = Some (Num 3600000) /\
  getTxTime (DetectionEngine isoTime epochChain) "C" "D" = Some (Num 7200000) /\
  isTemporalChain (DetectionEngine isoTime epochChain) "A" "B" "C" "D" = false /\
  forall cyc ring,
    In ring (detectShell (DetectionEngine isoTime epochChain) cyc) ->
    accounts ring <> ["A"; "B"; "C"; "D"].
Proof.
  split; [vm_compute; reflexivity|].
  split; [vm_compute; reflexivity|].
  split; [vm_compute; reflexivity|].
  apply (epoch_zero_hop_rejects_chain (DetectionEngine isoTime epochChain) "A" "B" "C" "D").
  left. vm_compute. reflexivity.
Defined.

(** C10 as amended.  A smurfing ring comes from an account of the
    transaction index, its first member.  When it is emitted without
    fan-out (fewer than 10 distinct receivers in the fan-out window), its
    members are the account and the senders of the window, the risk is
    0.65, the score is 65.0 and the window that the scan selected holds at
    least 30 distinct senders; when the incoming transactions of the
    account all have a parsed time, that window is a densest 72-hour
    window of them. *)
Theorem fan_in_only_ring_has_thirty_senders :
  forall e rings ring,
    detectSmurfing e = Returned rings ->
    In ring rings ->
    exists account txs w first,
      In (account, txs) (accountTx e) /\
      hd_error (accounts ring) = Some account /\
      densestWindow (sortedIncoming account txs) = Returned w /\
      nth_error w 0 = Some first /\
      (length (uniqueReceiversOf account txs (_time first)) < MIN_UNIQUE ->
       accounts ring = set_of_list (account :: uniqueSendersOf w) /\
       (risk ring == 65 # 100)%Q /\
       riskScoreOf (risk ring) = (650 # 10)%Q /\
       30 <= length (uniqueSendersOf w) /\
       (incomingTimed account txs -> densest72 account txs w)).
Proof.
  intros e rings ring Hrun Hin.
  destruct (detectSmurfing_emission e rings ring Hrun Hin) as [account [txs [Hentry Hc]]].
  destruct (smurfCandidate_emission e account txs ring Hc)
    as [w [first [_ [Hw [Hfirst [_ [_ [Hrisk [Hthr Hacc]]]]]]]]].
  exists account, txs, w, first.
  split; [exact Hentry|]. split.
  { rewrite Hacc. destruct (MIN_UNIQUE <=? _)%nat; apply set_of_list_head. }
  split; [exact Hw|]. split; [exact Hfirst|].
  intros HnR. rewrite Hrisk in *.
  destruct (fan_in_only_threshold _ _ HnR Hthr) as [H30 Heq].
  split.
  { rewrite Hacc. apply Nat.leb_gt in HnR. now rewrite HnR. }
  split; [exact Heq|]. split; [now rewrite (riskScoreOf_compat _ _ Heq)|].
  split; [exact H30|].
  intros Htimed. apply (timed_window_is_densest72 account txs w Htimed Hw).
  intros ->. discriminate.
Qed.

(** Witness of C10 on [fanInOnlyBatch]: 30 senders into X at one parsed
    instant and nothing out of X. *)
Lemma fan_in_only_ring_has_thirty_senders_witness :
  incomingTimed "X" (txsOf (DetectionEngine isoTime fanInOnlyBatch) "X") /\
  exists rings ring,
    detectSmurfing (DetectionEngine isoTime fanInOnlyBatch) = Returned rings /\
    In ring rings /\
    exists account txs w first,
      In (account, txs) (accountTx (DetectionEngine isoTime fanInOnlyBatch)) /\
      hd_error (accounts ring) = Some account /\
      densestWindow (sortedIncoming account txs) = Returned w /\
      nth_error w 0 = Some first /\
      (length (uniqueReceiversOf account txs (_time first)) < MIN_UNIQUE ->
       accounts ring = set_of_list (account :: uniqueSendersOf w) /\
       (risk ring == 65 # 100)%Q /\
       riskScoreOf (risk ring) = (650 # 10)%Q /\
       30 <= length (uniqueSendersOf w) /\
       (incomingTimed account txs -> densest72 account txs w)).
Proof.
  split.
  - intros t Ht. vm_compute in Ht.
    repeat (destruct Ht as [<-|Ht]; [reflexivity|]). destruct Ht.
  - eexists. eexists.
    match goal with
    | |- ?R = Returned ?rings /\ In ?ring ?rings /\ _ =>
        assert (H1 : R = Returned rings) by (vm_compute; reflexivity);
        assert (H2 : In ring rings) by (left; reflexivity);
        exact (conj H1 (conj H2 (fan_in_only_ring_has_thirty_senders _ rings ring H1 H2)))
    end.
Defined.

(** Counterexample to C10 as stated, on [monthsApart]: X sends nothing,
    so its ring is emitted without fan-out, with the score 65.0; the list
    of incoming transfers is in the order that the sort leaves it in, the
    29 transfers with a parsed time are one month apart, and no interval
    of 72 hours holds more than one sender. *)
Lemma months_apart_fan_in_ring_has_one_sender_per_window :
  sortedIncoming "X" (txsOf (DetectionEngine isoTime monthsApart) "X")
    = incomingOf (DetectionEngine isoTime monthsApart) "X" /\
  outgoingOf (DetectionEngine isoTime monthsApart) "X" = [] /\
  (exists r ring,
      run monthsApart = Returned r /\
      fraud_rings r = [ring] /\
      pattern_type ring = smurfing /\
      hd_error (member_accounts ring) = Some "X" /\
      length (member_accounts ring) = 31 /\
      risk_score ring = (650 # 10)%Q) /\
  (forall s,
      length (set_of_list
                (map (fun t : Tx => sender_id t)
                     (filter (inInterval s)
                             (incomingOf (DetectionEngine isoTime monthsApart) "X"))))
        <= 1) /\
  ~ (forall e rings ring account,
        detectSmurfing e = Returned rings ->
        In ring rings ->
        hd_error (accounts ring) = Some account ->
        outgoingOf e account = [] ->
        exists s,
          30 <= length (set_of_list
                          (map (fun t : Tx => sender_id t)
                               (filter (inInterval s) (incomingOf e account))))).
Proof.
  assert (Hsparse : forall s,
             length (set_of_list
                       (map (fun t : Tx => sender_id t)
                            (filter (inInterval s)
                               (incomingOf (DetectionEngine isoTime monthsApart) "X"))))
               <= 1).
  { intros s. apply Nat.le_trans with (1 := set_of_list_length _).
    rewrite length_map. apply far_apart_intervals. vm_compute. reflexivity. }
  assert (Hout : outgoingOf (DetectionEngine isoTime monthsApart) "X" = [])
    by (vm_compute; reflexivity).
  refine (conj _ (conj Hout (conj _ (conj Hsparse _)))).
  - vm_compute. reflexivity.
  - eexists. eexists. split; [vm_compute; reflexivity|].
    split; [reflexivity|]. split; [reflexivity|].
    split; [vm_compute; reflexivity|]. split; vm_compute; reflexivity.
  - intros Hall.
    assert (Hring : exists rings ring,
               detectSmurfing (DetectionEngine isoTime monthsApart) = Returned rings /\
               In ring rings /\ hd_error (accounts ring) = Some "X").
    { eexists. eexists. split; [vm_compute; reflexivity|].
      split; [left; reflexivity | vm_compute; reflexivity]. }
    destruct Hring as [rings [ring [H1 [H2 H3]]]].
    destruct (Hall _ rings ring "X" H1 H2 H3 Hout) as [s Hs].
    specialize (Hsparse s). lia.
Qed.
